(** * McBeeDataExtractor: breeding-graph consolidation and shortest paths

    A shallow embedding of the core of the extractor:

    - [buildShortestPathMutations] of src/shortest_path_builder.js,
    - the identifier handling of the MagicBees species parser,
    - [buildBreedingPairsJsonc] and [checkIfInManualMutations] of the
      output builder.

    JavaScript values are modelled as the code uses them: strings as
    [string] (the identifiers and source names of this program are
    ASCII), numbers as binary64 [float], objects and [Map]s with string
    keys as insertion-ordered association lists, [Set]s as duplicate-free
    lists in insertion order, [undefined]/[null] as [None]. A thrown
    [TypeError] is the result [None] of the function that throws. *)

From Stdlib Require Import List String Ascii Bool Lia PeanoNat Sorted.
From Stdlib Require Import PrimFloat.
Import ListNotations.
Open Scope string_scope.
Open Scope list_scope.

(** Decimal literals denote the nearest binary64 value, as in the source. *)
Set Warnings "-inexact-float".

(* ================================================================== *)
(** * JavaScript runtime helpers *)
(* ================================================================== *)

(** ** Objects and Maps with string keys

    Both keep their keys in insertion order; writing to a key that is
    present keeps its position ([obj[k] = v], [Map.prototype.set]). The
    keys of this program are [mod:name] identifiers, none of them an
    array index, so the insertion order is the enumeration order. *)

Definition obj (V : Type) := list (string * V).

Fixpoint obj_get {V} (k : string) (o : obj V) : option V :=
  match o with
  | [] => None
  | (k', v) :: rest => if String.eqb k k' then Some v else obj_get k rest
  end.

Definition obj_has {V} (k : string) (o : obj V) : bool :=
  match obj_get k o with Some _ => true | None => false end.

Fixpoint obj_set {V} (k : string) (v : V) (o : obj V) : obj V :=
  match o with
  | [] => [(k, v)]
  | (k', v') :: rest =>
      if String.eqb k k' then (k, v) :: rest else (k', v') :: obj_set k v rest
  end.

Definition obj_keys {V} (o : obj V) : list string := map fst o.
Definition obj_values {V} (o : obj V) : list V := map snd o.

(** ** Sets of strings ([new Set()], [add], [has]) *)

Definition set_has (k : string) (s : list string) : bool :=
  existsb (String.eqb k) s.

Definition set_add (k : string) (s : list string) : list string :=
  if set_has k s then s else s ++ [k].

(** ** [Array.prototype.sort()] without a comparator, on strings:
    ascending code-unit order. *)

Fixpoint insertSorted (x : string) (l : list string) : list string :=
  match l with
  | [] => [x]
  | y :: rest => if String.leb x y then x :: l else y :: insertSorted x rest
  end.

Definition sort (l : list string) : list string :=
  fold_right insertSorted [] l.

(** ** [Array.prototype.sort(cmp)]: a stable sort; [cmp a b] tells
    whether [a] must come after [b] ([cmp(a, b) > 0]). *)

Section SortBy.
Context {A : Type} (after : A -> A -> bool).

Fixpoint insertBy (x : A) (l : list A) : list A :=
  match l with
  | [] => [x]
  | y :: rest => if after x y then y :: insertBy x rest else x :: l
  end.

Definition sortBy (l : list A) : list A := fold_right insertBy [] l.
End SortBy.

(** ** [Array.prototype.join] and [String.prototype.split] *)

Fixpoint join (sep : string) (l : list string) : string :=
  match l with
  | [] => ""
  | [x] => x
  | x :: rest => (x ++ sep ++ join sep rest)%string
  end.

Fixpoint split (sep : ascii) (s : string) : list string :=
  match s with
  | EmptyString => [""]
  | String c rest =>
      if Ascii.eqb c sep then "" :: split sep rest
      else match split sep rest with
           | [] => [String c ""]
           | h :: t => String c h :: t
           end
  end.

Fixpoint includes (c : ascii) (s : string) : bool :=
  match s with
  | EmptyString => false
  | String c' rest => Ascii.eqb c' c || includes c rest
  end.

(** [!s] on a string that may be [null]: falsy when absent or empty. *)
Definition truthyStr (s : option string) : bool :=
  match s with
  | Some (String _ _) => true
  | _ => false
  end.

(** A number is falsy when it is [0], [-0] or [NaN]. *)
Definition truthyNum (x : float) : bool :=
  negb (PrimFloat.eqb x 0) && negb (PrimFloat.is_nan x).

(* ================================================================== *)
(** * The shared record shapes of [mutations.jsonc] *)
(* ================================================================== *)

(** The value of one condition: the shapes the extractors emit and the
    override file holds (a string, a number, a flag, an array of strings,
    and the flat numeric object of a date range). *)
Inductive cvalue : Type :=
| VStr (s : string)
| VNum (x : float)
| VBool (b : bool)
| VArr (l : list string)
| VObj (fields : list (string * float)).

(** One requirement record of an offspring: an object of conditions, with
    an optional numeric [chance]. *)
Definition Requirement := obj cvalue.

(** [children[species]]: the default chance, and the requirement list when
    the key [requirements] is present. *)
Record ChildData : Type := mkChild {
  child_chance : float;
  child_requirements : option (list Requirement)
}.

(** One Group: a parent pair and its offspring. *)
Record Group : Type := mkGroup {
  group_parents : list string;
  group_children : obj ChildData
}.

(** [req.chance], a number when present. *)
Definition req_chance (r : Requirement) : option float :=
  match obj_get "chance" r with
  | Some (VNum x) => Some x
  | _ => None
  end.

(* ================================================================== *)
(** * src/shortest_path_builder.js *)
(* ================================================================== *)

(** One entry of [mutationGraph.get(offspring)]. The two parents come from
    the destructuring [const [parent1, parent2] = group.parents], so each
    is [undefined] when the array is too short. *)
Record PathMutation : Type := mkPath {
  pm_parent1 : option string;
  pm_parent2 : option string;
  pm_chance : float;
  pm_requirements : option Requirement;
  pm_isConditional : bool
}.

(** [beesWithMutations]: every key of every [group.children]. *)
Definition beesWithMutations (allMutations : list Group) : list string :=
  fold_left
    (fun acc group =>
       fold_left (fun acc offspring => set_add offspring acc)
                 (obj_keys (group_children group)) acc)
    allMutations [].

(** [baseBees]: the keys of [allBees] that are no offspring. *)
Definition baseBees (allBees : list string) (allMutations : list Group)
  : list string :=
  fold_left
    (fun acc beeId =>
       if negb (set_has beeId (beesWithMutations allMutations))
       then set_add beeId acc else acc)
    allBees [].

(** [baseBees.forEach((bee) => beeDepth.set(bee, 0))] *)
Definition initialDepth (base : list string) : obj nat :=
  fold_left (fun depth bee => obj_set bee 0 depth) base [].

(** The candidate relations one child entry contributes. *)
Definition childMutations (parent1 parent2 : option string)
  (childData : ChildData) : list PathMutation :=
  match child_requirements childData with
  | Some (req :: reqs) =>
      map (fun req =>
             mkPath parent1 parent2
               (match req_chance req with
                | Some c => c
                | None => child_chance childData
                end)
               (Some req) true)
          (req :: reqs)
  | _ =>
      [mkPath parent1 parent2 (child_chance childData) None false]
  end.

(** The body of [allMutations.forEach] that fills [mutationGraph]. *)
Definition addGroupToGraph (graph : obj (list PathMutation)) (group : Group)
  : obj (list PathMutation) :=
  let parent1 := nth_error (group_parents group) 0 in
  let parent2 := nth_error (group_parents group) 1 in
  fold_left
    (fun (graph : obj (list PathMutation)) (entry : string * ChildData) =>
       let '(offspring, childData) := entry in
       let mutations :=
         match obj_get offspring graph with
         | Some ms => ms
         | None => []
         end in
       obj_set offspring
         (mutations ++ childMutations parent1 parent2 childData) graph)
    (group_children group) graph.

Definition mutationGraph (allMutations : list Group)
  : obj (list PathMutation) :=
  fold_left addGroupToGraph allMutations [].

(** [beeDepth.get(p)], where [p] may be [undefined]. *)
Definition depthOf (beeDepth : obj nat) (p : option string) : option nat :=
  match p with
  | Some k => obj_get k beeDepth
  | None => None
  end.

(** The inner [for (const mutation of mutations)] of the search: the depth
    given by the first relation both of whose parents have a depth. *)
Fixpoint firstReachable (beeDepth : obj nat) (mutations : list PathMutation)
  : option nat :=
  match mutations with
  | [] => None
  | mutation :: rest =>
      match depthOf beeDepth (pm_parent1 mutation),
            depthOf beeDepth (pm_parent2 mutation) with
      | Some depth1 , Some depth2 => Some (Nat.max depth1 depth2 + 1)
      | _ , _ => firstReachable beeDepth rest
      end
  end.

(** One [mutationGraph.forEach] inside the [while] loop. The depth map and
    the queue are updated while the graph is scanned, so an offspring set
    earlier in the scan is seen by the entries after it. *)
Definition scanStep (st : obj nat * list string)
  (entry : string * list PathMutation) : obj nat * list string :=
  let '(beeDepth, queue) := st in
  let '(offspring, mutations) := entry in
  if obj_has offspring beeDepth then st
  else match firstReachable beeDepth mutations with
       | Some offspringDepth =>
           (obj_set offspring offspringDepth beeDepth, queue ++ [offspring])
       | None => st
       end.

Definition scanGraph (graph : obj (list PathMutation))
  (st : obj nat * list string) : obj nat * list string :=
  fold_left scanStep graph st.

(** [while (queue.length > 0)]: [fuel] bounds the number of iterations;
    [None] is returned only when it runs out. *)
Fixpoint bfsLoop (fuel : nat) (graph : obj (list PathMutation))
  (beeDepth : obj nat) (queue : list string) : option (obj nat) :=
  match queue with
  | [] => Some beeDepth
  | _current :: rest =>
      match fuel with
      | 0 => None
      | S fuel' =>
          let '(beeDepth', queue') := scanGraph graph (beeDepth, rest) in
          bfsLoop fuel' graph beeDepth' queue'
      end
  end.

(** The depth map after the search. Every iteration takes one bee off the
    queue and every bee enters the queue at most once, so the base bees
    plus the offspring of the graph bound the iterations. *)
Definition computeDepths (allBees : list string) (allMutations : list Group)
  : option (obj nat) :=
  let base := baseBees allBees allMutations in
  let graph := mutationGraph allMutations in
  bfsLoop (List.length base + List.length graph) graph (initialDepth base) base.

(** The inner [for] of the second pass: the first relation whose parents
    both have a depth, the larger of which is one below the target. *)
Fixpoint findShortest (beeDepth : obj nat) (targetDepth : nat)
  (mutations : list PathMutation) : option PathMutation :=
  match mutations with
  | [] => None
  | mutation :: rest =>
      match depthOf beeDepth (pm_parent1 mutation),
            depthOf beeDepth (pm_parent2 mutation) with
      | Some depth1 , Some depth2 =>
          if Nat.eqb (Nat.max depth1 depth2 + 1) targetDepth
          then Some mutation
          else findShortest beeDepth targetDepth rest
      | _ , _ => findShortest beeDepth targetDepth rest
      end
  end.

(** [[p1, p2].sort().join("|")] *)
Definition pairKey (p1 p2 : string) : string := join "|" (sort [p1; p2]).

(** The child entry written for the chosen relation. *)
Definition shortestChild (mutation : PathMutation) : ChildData :=
  mkChild (pm_chance mutation)
    (match pm_isConditional mutation, pm_requirements mutation with
     | true , Some req => Some [req]
     | _ , _ => None
     end).

(** [group.children[offspring] = ...] on the group stored under
    [parentKey], created on first use. *)
Definition placeMutation (shortestMutations : obj Group) (offspring : string)
  (mutation : PathMutation) : obj Group :=
  match pm_parent1 mutation, pm_parent2 mutation with
  | Some p1 , Some p2 =>
      let parentKey := pairKey p1 p2 in
      let group :=
        match obj_get parentKey shortestMutations with
        | Some g => g
        | None => mkGroup (sort [p1; p2]) []
        end in
      obj_set parentKey
        (mkGroup (group_parents group)
           (obj_set offspring (shortestChild mutation) (group_children group)))
        shortestMutations
  | _ , _ => shortestMutations
  end.

(** The body of the second [mutationGraph.forEach]. *)
Definition pathStep (beeDepth : obj nat)
  (st : obj Group * list string) (entry : string * list PathMutation)
  : obj Group * list string :=
  let '(shortestMutations, processedBees) := st in
  let '(offspring, mutations) := entry in
  match obj_get offspring beeDepth with
  | None => st
  | Some targetDepth =>
      if set_has offspring processedBees then st
      else match findShortest beeDepth targetDepth mutations with
           | Some mutation =>
               (placeMutation shortestMutations offspring mutation,
                set_add offspring processedBees)
           | None => st
           end
  end.

Definition shortestMutations (beeDepth : obj nat)
  (graph : obj (list PathMutation)) : obj Group :=
  fst (fold_left (pathStep beeDepth) graph ([], [])).

(** [delete child.requirements] when the array is empty. *)
Definition cleanChild (child : ChildData) : ChildData :=
  match child_requirements child with
  | Some [] => mkChild (child_chance child) None
  | _ => child
  end.

(** The final [output.forEach]: children rebuilt in sorted key order. *)
Definition sortChildren (children : obj ChildData) : obj ChildData :=
  fold_left
    (fun (sortedChildren : obj ChildData) key =>
       match obj_get key children with
       | Some child => obj_set key (cleanChild child) sortedChildren
       | None => sortedChildren
       end)
    (sort (obj_keys children)) [].

Definition cleanGroup (group : Group) : Group :=
  mkGroup (group_parents group) (sortChildren (group_children group)).

Section LocaleOrder.

(** [a.localeCompare(b)]: negative, zero or positive. The collation is the
    host's; the development depends on no property of it. *)
Variable localeCompare : string -> string -> comparison.

(** The comparator of both group sorts: [true] when it returns a positive
    number. Groups reaching it have two parents. *)
Definition groupAfter (a b : Group) : bool :=
  match localeCompare (nth 0 (group_parents a) "") (nth 0 (group_parents b) "") with
  | Gt => true
  | Lt => false
  | Eq =>
      match localeCompare (nth 1 (group_parents a) "")
                          (nth 1 (group_parents b) "") with
      | Gt => true
      | _ => false
      end
  end.

Definition buildShortestPathMutations (allBees : list string)
  (allMutations : list Group) : option (list Group) :=
  match computeDepths allBees allMutations with
  | None => None
  | Some beeDepth =>
      let graph := mutationGraph allMutations in
      let output := obj_values (shortestMutations beeDepth graph) in
      Some (map cleanGroup (sortBy groupAfter output))
  end.

End LocaleOrder.


(* ================================================================== *)
(** * The MagicBees species parser: identifiers *)
(* ================================================================== *)

(** Character classes of the regular expressions, on ASCII: [[A-Z]],
    [\w] and [\s]. *)
Definition isUpper (c : ascii) : bool :=
  let n := nat_of_ascii c in (65 <=? n)%nat && (n <=? 90)%nat.

Definition isLower (c : ascii) : bool :=
  let n := nat_of_ascii c in (97 <=? n)%nat && (n <=? 122)%nat.

Definition isDigit (c : ascii) : bool :=
  let n := nat_of_ascii c in (48 <=? n)%nat && (n <=? 57)%nat.

Definition isWordChar (c : ascii) : bool :=
  isUpper c || isLower c || isDigit c || Ascii.eqb c "_".

Definition isSpace (c : ascii) : bool :=
  let n := nat_of_ascii c in ((9 <=? n)%nat && (n <=? 13)%nat) || (n =? 32)%nat.

Definition lowerChar (c : ascii) : ascii :=
  if isUpper c then ascii_of_nat (nat_of_ascii c + 32) else c.

Definition upperChar (c : ascii) : ascii :=
  if isLower c then ascii_of_nat (nat_of_ascii c - 32) else c.

(** [s.toLowerCase()] *)
Fixpoint toLowerCase (s : string) : string :=
  match s with
  | EmptyString => EmptyString
  | String c rest => String (lowerChar c) (toLowerCase rest)
  end.

(** [s.replace(/_/g, "")] *)
Fixpoint removeUnderscores (s : string) : string :=
  match s with
  | EmptyString => EmptyString
  | String c rest =>
      if Ascii.eqb c "_" then removeUnderscores rest
      else String c (removeUnderscores rest)
  end.

(** The slug of an enum name: [enumName.toLowerCase().replace(/_/g, "")]. *)
Definition slug (enumName : string) : string :=
  removeUnderscores (toLowerCase enumName).

(** [uid] of [parseMagicBeesSpecies], also the [offspring] of
    [parseBeeMutations]. *)
Definition speciesUid (enumName : string) : string :=
  ("magicbees:" ++ slug enumName)%string.

(** One segment of the display name: two capital letters are kept, any
    other segment is capitalised. *)
Definition displayPart (part : string) : string :=
  match part with
  | String a (String b EmptyString) =>
      if isUpper a && isUpper b then part
      else String (upperChar a) (toLowerCase (String b EmptyString))
  | String a rest => String (upperChar a) (toLowerCase rest)
  | EmptyString => EmptyString
  end.

(** [displayName] of [parseMagicBeesSpecies]. *)
Definition displayName (enumName : string) : string :=
  join " " (map displayPart (split "_" enumName)).

(** [s.trim()] *)
Fixpoint trimStart (s : string) : string :=
  match s with
  | String c rest => if isSpace c then trimStart rest else s
  | EmptyString => EmptyString
  end.

Fixpoint trimEnd (s : string) : string :=
  match s with
  | EmptyString => EmptyString
  | String c rest =>
      match trimEnd rest with
      | EmptyString => if isSpace c then EmptyString else String c EmptyString
      | rest' => String c rest'
      end
  end.

Definition trim (s : string) : string := trimEnd (trimStart s).

(** What is left of [s] after the literal [lit], when [s] starts with it. *)
Fixpoint afterLiteral (lit s : string) : option string :=
  match lit, s with
  | EmptyString , _ => Some s
  | String a lit' , String b s' =>
      if Ascii.eqb a b then afterLiteral lit' s' else None
  | String _ _ , EmptyString => None
  end.

(** The longest run of [\w] at the head of [s], and the rest. *)
Fixpoint takeWord (s : string) : string * string :=
  match s with
  | String c rest =>
      if isWordChar c
      then let '(w, r) := takeWord rest in (String c w, r)
      else (EmptyString, s)
  | EmptyString => (EmptyString, EmptyString)
  end.

Definition dquote : ascii := ascii_of_nat 34.

(** [/getForestrySpecies\s*\(\s*"(\w+)"/] anchored at the head of [s]:
    the captured name. No shorter run of [\w] can be followed by a quote,
    so the greedy run decides the match. *)
Definition forestryAt (s : string) : option string :=
  match afterLiteral "getForestrySpecies" s with
  | Some r =>
      match trimStart r with
      | String "(" r2 =>
          match trimStart r2 with
          | String q r3 =>
              if Ascii.eqb q dquote then
                match takeWord r3 with
                | (String c w, String q' _) =>
                    if Ascii.eqb q' dquote then Some (String c w) else None
                | _ => None
                end
              else None
          | EmptyString => None
          end
      | _ => None
      end
  | None => None
  end.

(** [/ExtraBeeDefinition\.(\w+)/] anchored at the head of [s]. *)
Definition extraBeesAt (s : string) : option string :=
  match afterLiteral "ExtraBeeDefinition." s with
  | Some r =>
      match takeWord r with
      | (String c w, _) => Some (String c w)
      | _ => None
      end
  | None => None
  end.

(** [s.match(re)] for an unanchored expression: the leftmost match. *)
Fixpoint searchFrom (matchAt : string -> option string) (s : string)
  : option string :=
  match matchAt s with
  | Some w => Some w
  | None =>
      match s with
      | String _ rest => searchFrom matchAt rest
      | EmptyString => None
      end
  end.

(** Every character of [s] is in the class [p]. *)
Fixpoint allChars (p : ascii -> bool) (s : string) : bool :=
  match s with
  | EmptyString => true
  | String c rest => p c && allChars p rest
  end.

(** [/^[A-Z_]+$/] *)
Fixpoint allUpperOrUnderscore (s : string) : bool :=
  match s with
  | EmptyString => true
  | String c rest => (isUpper c || Ascii.eqb c "_") && allUpperOrUnderscore rest
  end.

Definition bareSymbol (ref : string) : bool :=
  match ref with
  | EmptyString => false
  | _ => allUpperOrUnderscore ref
  end.

(** A bee of the parser's table: its display name and, while the file is
    being parsed, the enum constant it came from. *)
Record MagicBee : Type := mkBee {
  bee_name : string;
  bee_enumName : option string
}.

(** The [for ... of Object.entries(bees)] lookup by enum name. *)
Fixpoint lookupEnumName (ref : string) (bees : obj MagicBee) : option string :=
  match bees with
  | [] => None
  | (uid, bee) :: rest =>
      match bee_enumName bee with
      | Some n => if String.eqb n ref then Some uid else lookupEnumName ref rest
      | None => lookupEnumName ref rest
      end
  end.

Definition resolveSpeciesReference (ref : string) (bees : obj MagicBee)
  : string :=
  let ref := trim ref in
  match lookupEnumName ref bees with
  | Some uid => uid
  | None =>
      match searchFrom forestryAt ref with
      | Some name => ("forestry:" ++ toLowerCase name)%string
      | None =>
          match searchFrom extraBeesAt ref with
          | Some w =>
              let name :=
                match w with
                | String c rest => String (upperChar c) (toLowerCase rest)
                | EmptyString => EmptyString
                end in
              ("extrabees:" ++ toLowerCase name)%string
          | None =>
              if bareSymbol ref then ("magicbees:" ++ slug ref)%string
              else ref
          end
      end
  end.

(** The key under which [parseMagicBeesLangFile] files a display name. *)
Definition langKey (langEnumName : string) : string := toLowerCase langEnumName.

(** [uid.split(":")[1]] of [applyLangNames]. *)
Definition beeIdOfUid (uid : string) : option string :=
  nth_error (split ":" uid) 1.

(** The table [parseMagicBeesSpecies] builds: every bee carrying an enum
    name is filed under the uid of that name, and the name is what [(\w+)]
    captured. *)
Definition parsedTable (bees : obj MagicBee) : Prop :=
  forall uid bee n,
    In (uid, bee) bees -> bee_enumName bee = Some n ->
    uid = speciesUid n /\ allChars isWordChar n = true.

(* ================================================================== *)
(** * The output builder: [buildBreedingPairsJsonc] *)
(* ================================================================== *)

(** One relation of the intermediate format. A parent or the offspring is
    [None] when the extractor left it [null]; [chance] is in percent. *)
Record Mutation : Type := mkMutation {
  mut_parent1 : option string;
  mut_parent2 : option string;
  mut_offspring : option string;
  mut_chance : float;
  mut_conditions : option (obj cvalue)
}.

(** One entry of [skippedMutations]. *)
Record SkippedMutation : Type := mkSkipped {
  skipped_offspring : option string;
  skipped_inManual : bool
}.

(** ** Keys

    The keys of [manualMutationSet] and [seenMutationKeys] are template
    strings. They are kept here as the values the template is filled with;
    two keys are compared value by value, numbers by the text they print
    as. Equal values print equal strings. The identifiers of this program
    are [mod:name] keys without a vertical bar, for which different
    values also print different strings. *)

(** [`${x}` === `${y}`]: equal numbers print alike ([0] and [-0] both
    print [0]), and [NaN] prints [NaN]. *)
Definition sameNumberText (x y : float) : bool :=
  PrimFloat.eqb x y || (PrimFloat.is_nan x && PrimFloat.is_nan y).

(** [JSON.stringify(x) === JSON.stringify(y)] on numbers: as above, and
    every non-finite number prints [null]. *)
Definition notFinite (x : float) : bool :=
  PrimFloat.is_nan x || PrimFloat.is_infinity x.

Definition sameJsonNumber (x y : float) : bool :=
  PrimFloat.eqb x y || (notFinite x && notFinite y).

(** [`${parentKey}|${species}|${chance}`] *)
Record BaseKey : Type := mkKey {
  key_parents : string;
  key_species : string;
  key_chance : float
}.

Definition baseKeyEqb (a b : BaseKey) : bool :=
  String.eqb (key_parents a) (key_parents b)
  && String.eqb (key_species a) (key_species b)
  && sameNumberText (key_chance a) (key_chance b).

(** The pieces of a serialized condition set: literal text, and numbers
    printed by [JSON.stringify]. *)
Inductive piece : Type :=
| Lit (s : string)
| JsonNum (x : float).

Definition pieceEqb (a b : piece) : bool :=
  match a, b with
  | Lit s , Lit t => String.eqb s t
  | JsonNum x , JsonNum y => sameJsonNumber x y
  | _ , _ => false
  end.

Fixpoint list_eqb {A} (eqb : A -> A -> bool) (l1 l2 : list A) : bool :=
  match l1, l2 with
  | [] , [] => true
  | a :: l1' , b :: l2' => eqb a b && list_eqb eqb l1' l2'
  | _ , _ => false
  end.

(** [mutationKey]: the base key followed by the serialized conditions. *)
Record MutationKey : Type := mkMutationKey {
  mk_base : BaseKey;
  mk_conditions : list piece
}.

Definition mutationKeyEqb (a b : MutationKey) : bool :=
  baseKeyEqb (mk_base a) (mk_base b)
  && list_eqb pieceEqb (mk_conditions a) (mk_conditions b).

(** [JSON.stringify(s)] of a string: quoted, with quotes and backslashes
    escaped (other characters are copied). *)
Fixpoint jsonEscape (s : string) : string :=
  match s with
  | EmptyString => EmptyString
  | String c rest =>
      if Ascii.eqb c dquote || Ascii.eqb c "\"
      then String "\" (String c (jsonEscape rest))
      else String c (jsonEscape rest)
  end.

Definition jsonString (s : string) : string :=
  String dquote (jsonEscape s ++ String dquote EmptyString).

(** [JSON.stringify] of the flat object of a date range. *)
Fixpoint jsonFields (fields : list (string * float)) : list piece :=
  match fields with
  | [] => []
  | [(k, x)] => [Lit (jsonString k ++ ":"); JsonNum x]
  | (k, x) :: rest =>
      Lit (jsonString k ++ ":") :: JsonNum x :: Lit "," :: jsonFields rest
  end.

(** The text after [key=] in [serializeConditions]. *)
Definition serializeValue (value : cvalue) : list piece :=
  match value with
  | VArr l => [Lit (join "," (sort l))]
  | VStr s => [Lit (jsonString s)]
  | VNum x => [JsonNum x]
  | VBool true => [Lit "true"]
  | VBool false => [Lit "false"]
  | VObj fields => Lit "{" :: jsonFields fields ++ [Lit "}"]
  end.

Fixpoint joinPieces (sep : string) (parts : list (list piece)) : list piece :=
  match parts with
  | [] => []
  | [p] => p
  | p :: rest => p ++ Lit sep :: joinPieces sep rest
  end.

Definition serializeConditions (conditions : option (obj cvalue))
  : list piece :=
  match conditions with
  | None => []
  | Some [] => []
  | Some conds =>
      let sortedKeys := sort (obj_keys conds) in
      let parts :=
        map (fun key =>
               Lit (key ++ "=") ::
               match obj_get key conds with
               | Some value => serializeValue value
               | None => []
               end)
            sortedKeys in
      Lit "|" :: joinPieces "|" parts
  end.

(** [JSON.stringify(a) === JSON.stringify(b)] on condition values and on
    requirement records: same keys in the same order, with values that
    print alike. *)
Definition cvalueJsonEqb (a b : cvalue) : bool :=
  match a, b with
  | VStr s , VStr t => String.eqb s t
  | VNum x , VNum y => sameJsonNumber x y
  | VBool x , VBool y => Bool.eqb x y
  | VArr l , VArr m => list_eqb String.eqb l m
  | VObj f , VObj g =>
      list_eqb (fun p q => String.eqb (fst p) (fst q)
                           && sameJsonNumber (snd p) (snd q)) f g
  | _ , _ => false
  end.

Definition requirementJsonEqb (a b : Requirement) : bool :=
  list_eqb (fun p q => String.eqb (fst p) (fst q)
                       && cvalueJsonEqb (snd p) (snd q)) a b.

(** ** Indexing the override set *)

(** [requirement.chance || childData.chance] *)
Definition effectiveChance (requirement : Requirement) (childData : ChildData)
  : float :=
  match req_chance requirement with
  | Some c => if truthyNum c then c else child_chance childData
  | None => child_chance childData
  end.

(** [childData.requirements || []] *)
Definition requirementsOrEmpty (childData : ChildData) : list Requirement :=
  match child_requirements childData with
  | Some l => l
  | None => []
  end.

Definition manualHas (k : BaseKey) (set : list BaseKey) : bool :=
  existsb (baseKeyEqb k) set.

Definition manualAdd (k : BaseKey) (set : list BaseKey) : list BaseKey :=
  if manualHas k set then set else set ++ [k].

(** [group.parents.sort()] sorts the array of the override group itself. *)
Definition sortParents (group : Group) : Group :=
  mkGroup (sort (group_parents group)) (group_children group).

(** [group.parents.sort().join("|")] *)
Definition parentKeyOf (group : Group) : string :=
  join "|" (sort (group_parents group)).

(** The keys one override group adds to [manualMutationSet]: one for each
    requirement of each child. *)
Definition indexGroup (set : list BaseKey) (group : Group) : list BaseKey :=
  let parentKey := parentKeyOf group in
  fold_left
    (fun (set : list BaseKey) (entry : string * ChildData) =>
       let '(species, childData) := entry in
       fold_left
         (fun (set : list BaseKey) requirement =>
            manualAdd
              (mkKey parentKey species (effectiveChance requirement childData))
              set)
         (requirementsOrEmpty childData) set)
    (group_children group) set.

Definition manualMutationSet (manualMutations : list Group) : list BaseKey :=
  fold_left indexGroup manualMutations [].

(** [mutationGroups] after the override groups are entered: a copy of each
    group under its parent key. The children came out of [JSON.parse], so
    the [JSON] round trip of the copy returns them unchanged. *)
Definition seedGroups (manualMutations : list Group) : obj Group :=
  fold_left
    (fun (groups : obj Group) group =>
       obj_set (parentKeyOf group) (sortParents group) groups)
    manualMutations [].

(** ** [checkIfInManualMutations] *)

(** [name.replace(/[_\s]+/g, "")] *)
Fixpoint removeUnderscoresAndSpaces (s : string) : string :=
  match s with
  | EmptyString => EmptyString
  | String c rest =>
      if Ascii.eqb c "_" || isSpace c then removeUnderscoresAndSpaces rest
      else String c (removeUnderscoresAndSpaces rest)
  end.

Definition tryResolve (identifier : option string) : option string :=
  match identifier with
  | Some (String c rest) =>
      let identifier := String c rest in
      if includes ":" identifier then
        match split ":" identifier with
        | modName :: name :: _ =>
            Some (toLowerCase modName ++ ":"
                  ++ removeUnderscoresAndSpaces (toLowerCase name))%string
        | _ => None
        end
      else None
  | _ => None
  end.

(** [key.split("|")[2]]. The key is parent key, species and chance joined
    by bars, so its parts are those of the parent key, then those of the
    species, then the chance. When the first two give fewer than three
    parts the third one is the chance, a number, which is never equal to
    a resolved identifier (that has a colon). *)
Definition thirdPart (key : BaseKey) : option string :=
  nth_error (split "|" (key_parents key) ++ split "|" (key_species key)) 2.

Definition checkIfInManualMutations (mutation : Mutation)
  (manualMutationSet : list BaseKey) : bool :=
  match tryResolve (mut_offspring mutation) with
  | None => false
  | Some offspring =>
      existsb
        (fun key =>
           match thirdPart key with
           | Some manualOffspring => String.eqb manualOffspring offspring
           | None => false
           end)
        manualMutationSet
  end.


(** ** The body of [merged.mutations.forEach] *)

(** Truthiness of [conditions[key]]. *)
Definition truthy (v : option cvalue) : bool :=
  match v with
  | Some (VStr s) => negb (String.eqb s "")
  | Some (VNum x) => truthyNum x
  | Some (VBool b) => b
  | Some (VArr _) => true
  | Some (VObj _) => true
  | None => false
  end.

(** [if (c[key]) entry[key] = c[key]] *)
Definition copyField (conditions : obj cvalue) (key : string) : Requirement :=
  match obj_get key conditions with
  | Some v => if truthy (Some v) then [(key, v)] else []
  | None => []
  end.

(** [if (c[key]) entry[key] = true] *)
Definition flagField (conditions : obj cvalue) (key : string) : Requirement :=
  if truthy (obj_get key conditions) then [(key, VBool true)] else [].

(** [block], from [block] or else from [requiredBlock]. *)
Definition blockField (conditions : obj cvalue) : Requirement :=
  match obj_get "block" conditions, obj_get "requiredBlock" conditions with
  | Some v , other =>
      if truthy (Some v) then [("block", v)]
      else match other with
           | Some w => if truthy (Some w) then [("block", w)] else []
           | None => []
           end
  | None , Some w => if truthy (Some w) then [("block", w)] else []
  | None , None => []
  end.

(** [mutationEntry] before the chance is looked at: the recognized
    conditions, in the order the code assigns them. *)
Definition conditionEntry (conditions : option (obj cvalue)) : Requirement :=
  match conditions with
  | None => []
  | Some [] => []
  | Some c =>
      copyField c "temperature" ++ copyField c "humidity"
      ++ copyField c "biome" ++ copyField c "dateRange"
      ++ copyField c "timeOfDay" ++ blockField c
      ++ copyField c "moonPhase" ++ copyField c "moonPhaseBonus"
      ++ copyField c "thaumcraftVis" ++ flagField c "requireExplosion"
      ++ copyField c "requirePlayer" ++ copyField c "dimension"
      ++ flagField c "isSecret"
  end.

(** [Math.abs(a - b) > 0.0001] *)
Definition differs (a b : float) : bool :=
  PrimFloat.ltb 0.0001 (PrimFloat.abs (PrimFloat.sub a b)).

(** [mutation.chance / 100] *)
Definition normalizedChance (mutation : Mutation) : float :=
  PrimFloat.div (mut_chance mutation) 100.

(** The working state of the loop: the groups by parent key and the keys
    already seen. *)
Record Core : Type := mkCore {
  core_groups : obj Group;
  core_seen : list MutationKey
}.

Definition seenHas (k : MutationKey) (seen : list MutationKey) : bool :=
  existsb (mutationKeyEqb k) seen.

(** The tail of the loop body, after the duplicate checks: the group and
    the offspring entry are fetched or created and the requirement, when
    it has a property, is pushed. [None] is the [TypeError] of a [push] on
    a child that has no [requirements] array. *)
Definition addToGroups (groups : obj Group) (parent1 parent2 offspring : string)
  (chance : float) (conditions : option (obj cvalue)) : option (obj Group) :=
  let parentKey := pairKey parent1 parent2 in
  let group :=
    match obj_get parentKey groups with
    | Some g => g
    | None => mkGroup (sort [parent1; parent2]) []
    end in
  let child :=
    match obj_get offspring (group_children group) with
    | Some c => c
    | None => mkChild chance (Some [])
    end in
  let defaultChance := child_chance child in
  let mutationEntry :=
    if differs chance defaultChance
    then conditionEntry conditions ++ [("chance", VNum chance)]
    else conditionEntry conditions in
  let store (c : ChildData) :=
    obj_set parentKey
      (mkGroup (group_parents group)
         (obj_set offspring c (group_children group)))
      groups in
  match mutationEntry with
  | [] => Some (store child)
  | _ :: _ =>
      match child_requirements child with
      | Some requirements =>
          Some (store (mkChild (child_chance child)
                         (Some (requirements ++ [mutationEntry]))))
      | None => None
      end
  end.

Definition mutationKeyOf (parent1 parent2 offspring : string)
  (mutation : Mutation) : MutationKey :=
  mkMutationKey
    (mkKey (pairKey parent1 parent2) offspring (normalizedChance mutation))
    (serializeConditions (mut_conditions mutation)).

(** One relation: the new state and the diagnostics pushed, or [None]
    when the body throws. *)
Definition processMutation (bees : list string)
  (manualSet : list BaseKey) (core : Core) (mutation : Mutation)
  : option (Core * list SkippedMutation) :=
  if negb (truthyStr (mut_parent1 mutation))
     || negb (truthyStr (mut_parent2 mutation))
     || negb (truthyStr (mut_offspring mutation))
  then Some (core, [mkSkipped (mut_offspring mutation) false])
  else
    match mut_parent1 mutation, mut_parent2 mutation,
          mut_offspring mutation with
    | Some parent1 , Some parent2 , Some offspring =>
        if negb (set_has parent1 bees) || negb (set_has parent2 bees)
           || negb (set_has offspring bees)
        then Some (core,
                   [mkSkipped (mut_offspring mutation)
                      (checkIfInManualMutations mutation manualSet)])
        else
          let mutationKey := mutationKeyOf parent1 parent2 offspring mutation in
          if manualHas (mk_base mutationKey) manualSet
          then Some (core, [mkSkipped (mut_offspring mutation) true])
          else if seenHas mutationKey (core_seen core)
          then Some (core, [])
          else
            match addToGroups (core_groups core) parent1 parent2 offspring
                    (normalizedChance mutation) (mut_conditions mutation) with
            | Some groups =>
                Some (mkCore groups (core_seen core ++ [mutationKey]), [])
            | None => None
            end
    | _ , _ , _ => Some (core, [mkSkipped (mut_offspring mutation) false])
    end.

(** [merged.mutations.forEach(...)] *)
Fixpoint processAll (bees : list string) (manualSet : list BaseKey)
  (core : Core) (mutations : list Mutation)
  : option (Core * list SkippedMutation) :=
  match mutations with
  | [] => Some (core, [])
  | mutation :: rest =>
      match processMutation bees manualSet core mutation with
      | None => None
      | Some (core', skipped) =>
          match processAll bees manualSet core' rest with
          | None => None
          | Some (core'', skipped') => Some (core'', skipped ++ skipped')
          end
      end
  end.

(** ** Folding the new data into the override groups *)

Definition mergeRequirement (child : ChildData) (newRequirement : Requirement)
  : ChildData :=
  if existsb (fun existing => requirementJsonEqb existing newRequirement)
             (requirementsOrEmpty child)
  then child
  else mkChild (child_chance child)
         (Some (requirementsOrEmpty child ++ [newRequirement])).

Definition mergeChild (children : obj ChildData) (entry : string * ChildData)
  : obj ChildData :=
  let '(species, childData) := entry in
  match obj_get species children with
  | None =>
      match child_requirements childData with
      | Some [] => obj_set species (mkChild (child_chance childData) None) children
      | _ => obj_set species childData children
      end
  | Some existing =>
      obj_set species
        (fold_left mergeRequirement (requirementsOrEmpty childData) existing)
        children
  end.

(** The body of the first [output.forEach], on one override group. *)
Definition mergeGroup (mutationGroups : obj Group) (group : Group) : Group :=
  match obj_get (parentKeyOf group) mutationGroups with
  | Some updatedGroup =>
      mkGroup (sort (group_parents group))
        (fold_left mergeChild (group_children updatedGroup)
           (group_children group))
  | None => sortParents group
  end.

(** [wasManual] of the filter that keeps the new groups. *)
Definition wasManual (manualMutations : list Group) (group : Group) : bool :=
  existsb (fun manual => String.eqb (parentKeyOf manual) (parentKeyOf group))
          manualMutations.

Section Consolidation.
Variable localeCompare : string -> string -> comparison.

Definition buildBreedingPairsJsonc (bees : list string)
  (mutations : list Mutation) (manualMutations : list Group)
  : option (list Group * list SkippedMutation) :=
  let manualSorted := map sortParents manualMutations in
  let manualSet := manualMutationSet manualMutations in
  match processAll bees manualSet
          (mkCore (seedGroups manualMutations) []) mutations with
  | None => None
  | Some (core, skippedMutations) =>
      let mutationGroups := core_groups core in
      let merged := map (mergeGroup mutationGroups) manualSorted in
      let newGroups :=
        filter (fun group => negb (wasManual manualSorted group))
               (map sortParents (obj_values mutationGroups)) in
      let sortedGroups := sortBy (groupAfter localeCompare) newGroups in
      Some (map cleanGroup (merged ++ sortedGroups), skippedMutations)
  end.

End Consolidation.

(* ================================================================== *)
(** * Vocabulary of the statements *)
(* ================================================================== *)

(** ** Shortest paths *)

(** [e] is an offspring of some input group. *)
Definition isOffspring (e : string) (allMutations : list Group) : Prop :=
  exists g, In g allMutations /\ In e (obj_keys (group_children g)).

(** The number of groups of [groups] that list [e] as a child. *)
Definition producers (e : string) (groups : list Group) : nat :=
  List.length (filter (fun g => obj_has e (group_children g)) groups).

(** [d'] keeps every depth that [d] holds. *)
Definition extends (d d' : obj nat) : Prop :=
  forall k n, obj_get k d = Some n -> obj_get k d' = Some n.

(** The offspring of the graph that have no depth yet. *)
Definition pending (graph : obj (list PathMutation)) (beeDepth : obj nat)
  : nat :=
  List.length (filter (fun e => negb (obj_has (fst e) beeDepth)) graph).

(** A depth map is justified when every offspring holding a depth has a
    candidate relation whose parents hold depths, the larger one being
    one less. *)
Definition justified (graph : obj (list PathMutation)) (beeDepth : obj nat)
  : Prop :=
  forall k d ms,
    obj_get k beeDepth = Some d -> obj_get k graph = Some ms ->
    exists m d1 d2,
      In m ms /\
      depthOf beeDepth (pm_parent1 m) = Some d1 /\
      depthOf beeDepth (pm_parent2 m) = Some d2 /\
      d = Nat.max d1 d2 + 1.

(** Every child of the groups built is an offspring holding a depth, and
    its entry is the one written for the relation the second pass chose. *)
Definition chosenChildren (beeDepth : obj nat)
  (graph : obj (list PathMutation)) (sm : obj Group) : Prop :=
  forall key g e c,
    In (key, g) sm -> obj_get e (group_children g) = Some c ->
    exists t ms m p1 p2,
      obj_get e beeDepth = Some t /\ obj_get e graph = Some ms /\
      findShortest beeDepth t ms = Some m /\ c = shortestChild m /\
      pm_parent1 m = Some p1 /\ pm_parent2 m = Some p2 /\
      key = pairKey p1 p2.

(** A name without the separator of the parent keys. *)
Definition cleanName (s : string) : Prop := includes "|" s = false.

(** No parent of the input, of the graph, holds the separator. *)
Definition cleanParents (allMutations : list Group) : Prop :=
  forall g p, In g allMutations -> In p (group_parents g) -> cleanName p.

Definition cleanGraph (graph : obj (list PathMutation)) : Prop :=
  forall o ms m,
    In (o, ms) graph -> In m ms ->
    (forall p, pm_parent1 m = Some p -> cleanName p) /\
    (forall p, pm_parent2 m = Some p -> cleanName p).

(** Every group is stored under the key of the pair it lists. *)
Definition keyedByPair (sm : obj Group) : Prop :=
  forall key g,
    In (key, g) sm ->
    exists q1 q2, key = pairKey q1 q2 /\ group_parents g = sort [q1; q2] /\
                  cleanName q1 /\ cleanName q2.

(** The reading of "both parents one level below their offspring" on an
    output: every parent listed by a group holds the depth of each of the
    group's children minus one. *)
Definition parentsOneBelow (beeDepth : obj nat) (output : list Group) : Prop :=
  forall g e d p,
    In g output -> obj_has e (group_children g) = true ->
    obj_get e beeDepth = Some d ->
    In p (group_parents g) -> obj_get p beeDepth = Some (d - 1).

(** ** Consolidation *)

(** Ascending order of an array of strings. *)
Definition ascending (l : list string) : Prop :=
  Sorted (fun a b => String.leb a b = true) l.

(** The same relation with its parents exchanged. *)
Definition swapParents (mutation : Mutation) : Mutation :=
  mkMutation (mut_parent2 mutation) (mut_parent1 mutation)
    (mut_offspring mutation) (mut_chance mutation) (mut_conditions mutation).


(** A parent or the offspring is [null] (or empty). *)
Definition nullish (mutation : Mutation) : bool :=
  negb (truthyStr (mut_parent1 mutation))
  || negb (truthyStr (mut_parent2 mutation))
  || negb (truthyStr (mut_offspring mutation)).

(** A parent or the offspring is [null], or is no key of the registry. *)
Definition unresolved (bees : list string) (mutation : Mutation) : bool :=
  nullish mutation
  || match mut_parent1 mutation, mut_parent2 mutation,
           mut_offspring mutation with
     | Some parent1 , Some parent2 , Some offspring =>
         negb (set_has parent1 bees) || negb (set_has parent2 bees)
         || negb (set_has offspring bees)
     | _ , _ , _ => true
     end.

(** One of the three guards of the loop body stops the relation: it is
    unresolved, or its base key is in the override index. *)
Definition stoppedByGuard (bees : list string) (manualSet : list BaseKey)
  (mutation : Mutation) : bool :=
  match mut_parent1 mutation, mut_parent2 mutation, mut_offspring mutation with
  | Some parent1 , Some parent2 , Some offspring =>
      negb (truthyStr (mut_parent1 mutation))
      || negb (truthyStr (mut_parent2 mutation))
      || negb (truthyStr (mut_offspring mutation))
      || negb (set_has parent1 bees) || negb (set_has parent2 bees)
      || negb (set_has offspring bees)
      || manualHas
           (mk_base (mutationKeyOf parent1 parent2 offspring mutation))
           manualSet
  | _ , _ , _ => true
  end.

(** A relation is settled in a state when processing it again, in either
    parent order, cannot change the groups: it is stopped by one of the
    guards, or its key has been seen. *)
Definition settled (bees : list string) (manualSet : list BaseKey)
  (mutation : Mutation) (core : Core) : Prop :=
  stoppedByGuard bees manualSet mutation = true \/
  exists parent1 parent2 offspring,
    mut_parent1 mutation = Some parent1 /\
    mut_parent2 mutation = Some parent2 /\
    mut_offspring mutation = Some offspring /\
    seenHas (mutationKeyOf parent1 parent2 offspring mutation)
            (core_seen core) = true.



(** No two requirements of the list print the same JSON. *)
Definition distinctRequirements (l : list Requirement) : Prop :=
  ForallOrdPairs (fun a b => requirementJsonEqb a b = false) l.

(** Structural equality of two objects: the same names with equal
    values, in whatever order the names were written. *)
Definition sameFields {V} (eqb : V -> V -> bool) (a b : obj V) : bool :=
  Nat.eqb (List.length a) (List.length b)
  && forallb (fun e => match obj_get (fst e) b with
                       | Some w => eqb (snd e) w
                       | None => false
                       end) a.

Definition cvalueDeepEqb (a b : cvalue) : bool :=
  match a, b with
  | VStr s , VStr t => String.eqb s t
  | VNum x , VNum y => PrimFloat.eqb x y
  | VBool x , VBool y => Bool.eqb x y
  | VArr l , VArr m => list_eqb String.eqb l m
  | VObj f , VObj g => sameFields PrimFloat.eqb f g
  | _ , _ => false
  end.

Definition structurallyIdentical (a b : Requirement) : bool :=
  sameFields cvalueDeepEqb a b.

(** Two requirements of the list, at different places, are structurally
    identical. *)
Fixpoint hasIdenticalPair (l : list Requirement) : bool :=
  match l with
  | [] => false
  | r :: rest => existsb (structurallyIdentical r) rest || hasIdenticalPair rest
  end.

Definition noIdenticalRequirements (output : list Group) : Prop :=
  forall g species child,
    In g output -> obj_get species (group_children g) = Some child ->
    hasIdenticalPair (requirementsOrEmpty child) = false.



(** The shape of the override file: two parents to a group, and no
    vertical bar in a parent or a species. *)
Definition wellFormedOverride (manualMutations : list Group) : Prop :=
  forall g, In g manualMutations ->
    (exists a b, group_parents g = [a; b] /\ cleanName a /\ cleanName b) /\
    (forall species, In species (obj_keys (group_children g)) ->
                     cleanName species).

(* ================================================================== *)
(** * Sample data *)
(* ================================================================== *)

(** ** Two wild bees, one hop, two hops *)

Definition sampleBees : list string :=
  ["forestry:forest"; "forestry:meadows"; "forestry:common";
   "forestry:cultivated"].

Definition sampleMutations : list Group :=
  [ mkGroup ["forestry:forest"; "forestry:meadows"]
      [("forestry:common", mkChild 0.15 None)];
    mkGroup ["forestry:common"; "forestry:meadows"]
      [("forestry:cultivated", mkChild 0.12 None)] ].

(** ** A detour: two wild bees [a], [b]; [c] bred from them; [d] bred
    from [c] with itself in the first group that lists it and from the
    wild bees in a later one. *)

Definition detourBees : list string := ["t:a"; "t:b"; "t:c"; "t:d"].

Definition detourMutations : list Group :=
  [ mkGroup ["t:a"; "t:b"] [("t:c", mkChild 0.25 None)];
    mkGroup ["t:c"; "t:c"] [("t:d", mkChild 0.5 None)];
    mkGroup ["t:a"; "t:b"] [("t:d", mkChild 0.25 None)] ].

(** ** Relations [{X,Y} -> Z] and overrides of the same pair *)

Definition sampleRegistry : list string := ["t:x"; "t:y"; "t:z"].

Definition biomeHell : obj cvalue := [("biome", VArr ["Hell"])].

(** Chance 20, no conditions. *)
Definition relationXY : Mutation :=
  mkMutation (Some "t:x") (Some "t:y") (Some "t:z") 20 None.

(** Chance 5, in the biome Hell. *)
Definition relationHell : Mutation :=
  mkMutation (Some "t:x") (Some "t:y") (Some "t:z") 5 (Some biomeHell).

(** Chance 20, in the biome Hell. *)
Definition relationHell20 : Mutation :=
  mkMutation (Some "t:x") (Some "t:y") (Some "t:z") 20 (Some biomeHell).

(** Chance 20, in the biome Hell by night and by day: the shape the
    MagicBees extractor gives [restrictBiomeType] chained with
    [requireNight()] or [requireDay()]. *)
Definition relationHellByNight : Mutation :=
  mkMutation (Some "t:x") (Some "t:y") (Some "t:z") 20
    (Some [("biome", VArr ["Hell"]); ("time", VStr "night")]).

Definition relationHellByDay : Mutation :=
  mkMutation (Some "t:x") (Some "t:y") (Some "t:z") 20
    (Some [("biome", VArr ["Hell"]); ("time", VStr "day")]).



(** Chance 20.001, hot and in the biome Hell. *)
Definition relationHotHell : Mutation :=
  mkMutation (Some "t:x") (Some "t:y") (Some "t:z") 20.001
    (Some [("temperature", VArr ["HOT"]); ("biome", VArr ["Hell"])]).

(** Chance 20, with a first parent the extractor left [null]. *)
Definition relationNullParent : Mutation :=
  mkMutation None (Some "t:y") (Some "t:z") 20 None.

(** The override [{Y,X} -> Z] at chance 0.20: without a [requirements]
    array, with an empty one, and with one condition set. *)
Definition overrideUnconditional : list Group :=
  [mkGroup ["t:y"; "t:x"] [("t:z", mkChild 0.2 None)]].

Definition overrideEmptyList : list Group :=
  [mkGroup ["t:y"; "t:x"] [("t:z", mkChild 0.2 (Some []))]].

Definition overrideConditional : list Group :=
  [mkGroup ["t:y"; "t:x"]
     [("t:z", mkChild 0.2 (Some [[("temperature", VArr ["HOT"])]]))]].

(** The override [{Y,X} -> Z] at chance 0.20 in the biome Hell when hot,
    the biome written first. *)
Definition overrideHellHot : list Group :=
  [mkGroup ["t:y"; "t:x"]
     [("t:z", mkChild 0.2
                (Some [[("biome", VArr ["Hell"]);
                        ("temperature", VArr ["HOT"])]]))]].

(* ================================================================== *)
(** * Further vocabulary *)
(* ================================================================== *)

(** Every child of every group carries a [requirements] array. *)
Definition requirementsListed (groups : list Group) : Prop :=
  forall g species child,
    In g groups -> In (species, child) (group_children g) ->
    child_requirements child <> None.

(** The diagnostic the loop body records for a relation one of its guards
    stops: no override lookup for a null identifier, the offspring lookup
    for an identifier missing from the registry, [true] for a relation
    found in the override index. *)
Definition diagnosticOf (bees : list string) (manualSet : list BaseKey)
  (mutation : Mutation) : SkippedMutation :=
  mkSkipped (mut_offspring mutation)
    (if nullish mutation then false
     else if unresolved bees mutation
          then checkIfInManualMutations mutation manualSet
          else true).

(** The shape [JSON.parse] gives the override file once no two groups
    list the same parent pair: parent keys differ between groups, and an
    object holds each of its keys once. *)
Definition distinctPairs (manualMutations : list Group) : Prop :=
  NoDup (map parentKeyOf manualMutations) /\
  forall g, In g manualMutations -> NoDup (obj_keys (group_children g)).

(** [child'] keeps the default chance of [child] and lists its
    requirements first, in the same order. *)
Definition keepsEntry (child child' : ChildData) : Prop :=
  child_chance child' = child_chance child /\
  exists added,
    requirementsOrEmpty child' = requirementsOrEmpty child ++ added.

(** The groups the run adds after those of the override file. *)
Definition newGroupsOf (manualMutations output : list Group) : list Group :=
  skipn (List.length manualMutations) output.

(** The map of groups holds, under [key], a group with the child
    [species]. *)
Definition listsChild (groups : obj Group) (key species : string) : Prop :=
  exists g, obj_get key groups = Some g /\
            obj_has species (group_children g) = true.

(** Every group of the map is stored under the key of its own parents,
    and no key is held twice. *)
Definition keyedByParents (groups : obj Group) : Prop :=
  NoDup (obj_keys groups) /\
  forall key g, In (key, g) groups -> parentKeyOf g = key.

(** An override of another pair: [{Z,X} -> Y] at chance 0.10. *)
Definition overrideOtherPair : list Group :=
  [mkGroup ["t:z"; "t:x"] [("t:y", mkChild 0.1 None)]].

(** What the builder gives for the two relations of [{X,Y}] beside it. *)
Definition outputOtherPair : list Group :=
  [mkGroup ["t:x"; "t:z"] [("t:y", mkChild 0.1 None)];
   mkGroup ["t:x"; "t:y"]
     [("t:z", mkChild 0.2
                (Some [[("biome", VArr ["Hell"]); ("chance", VNum 0.05)]]))]].

(** Every key the run has seen stands for a child that is in the map. *)
Definition seenAreListed (core : Core) : Prop :=
  forall k, In k (core_seen core) ->
    listsChild (core_groups core)
      (key_parents (mk_base k)) (key_species (mk_base k)).

(** The depth map leaves nothing to find: an offspring of the graph
    without a depth has no relation whose two parents hold depths. *)
Definition closed (graph : obj (list PathMutation)) (beeDepth : obj nat)
  : Prop :=
  forall offspring mutations,
    In (offspring, mutations) graph ->
    obj_has offspring beeDepth = false ->
    firstReachable beeDepth mutations = None.

(** The graph lists the relation [m] among the candidates of
    [offspring]. *)
Definition candidate (graph : obj (list PathMutation)) (offspring : string)
  (m : PathMutation) : Prop :=
  exists mutations, obj_get offspring graph = Some mutations /\ In m mutations.

(** The child entry [child] is written from the input entry [childData]:
    unconditional with its chance, or with one of its requirements. *)
Definition writtenFrom (childData child : ChildData) : Prop :=
  (child_requirements child = None /\
   child_chance child = child_chance childData) \/
  (exists requirement,
      In requirement (requirementsOrEmpty childData) /\
      child_requirements child = Some [requirement]).

(* ================================================================== *)
(** * src/find_unreachable_bees.js *)
(* ================================================================== *)

(** [new Set(Object.keys(allBees))] *)
Definition allBeeIds (allBees : list string) : list string :=
  fold_left (fun ids beeId => set_add beeId ids) allBees [].

(** [beesWithoutMutations], after its [sort()]: the bee ids that no
    group lists as a child, in ascending order. The set of offspring is
    built by the same loop as in the shortest-path builder. *)
Definition beesWithoutMutations (allBees : list string)
  (allMutations : list Group) : list string :=
  sort
    (fold_left
       (fun found beeId =>
          if negb (set_has beeId (beesWithMutations allMutations))
          then found ++ [beeId] else found)
       (allBeeIds allBees) []).

(* ================================================================== *)
(** * Facts about the runtime helpers *)
(* ================================================================== *)

Section ObjFacts.
Context {V : Type}.
Implicit Types (o : obj V) (k : string) (v : V).

Lemma obj_get_set_same o k v : obj_get k (obj_set k v o) = Some v.
Proof.
  induction o as [|[k' v'] o IH]; simpl.
  - now rewrite String.eqb_refl.
  - destruct (String.eqb k k') eqn:E; simpl.
    + now rewrite String.eqb_refl.
    + now rewrite E.
Qed.

Lemma obj_get_set_other o k k' v :
  k <> k' -> obj_get k (obj_set k' v o) = obj_get k o.
Proof.
  intros Hne. apply String.eqb_neq in Hne.
  induction o as [|[k2 v2] o IH]; simpl.
  - now rewrite Hne.
  - destruct (String.eqb k' k2) eqn:E; simpl.
    + apply String.eqb_eq in E; subst k2. now rewrite Hne.
    + destruct (String.eqb k k2); auto.
Qed.

Lemma obj_has_set o k k' v :
  obj_has k (obj_set k' v o) = String.eqb k k' || obj_has k o.
Proof.
  unfold obj_has. destruct (String.eqb k k') eqn:E.
  - apply String.eqb_eq in E; subst. now rewrite obj_get_set_same.
  - apply String.eqb_neq in E. now rewrite obj_get_set_other.
Qed.

Lemma obj_get_In o k v : obj_get k o = Some v -> In (k, v) o.
Proof.
  induction o as [|[k' v'] o IH]; simpl; [discriminate|].
  destruct (String.eqb k k') eqn:E.
  - apply String.eqb_eq in E; subst. intros [= ->]. now left.
  - intros H. right. auto.
Qed.

Lemma obj_get_None_keys o k : obj_get k o = None <-> ~ In k (obj_keys o).
Proof.
  induction o as [|[k' v'] o IH]; simpl.
  - tauto.
  - destruct (String.eqb k k') eqn:E.
    + apply String.eqb_eq in E; subst. split; [discriminate|].
      intros H. exfalso. apply H. now left.
    + apply String.eqb_neq in E. rewrite IH. split.
      * intros H [H1|H1]; [congruence|tauto].
      * intros H H1. apply H. now right.
Qed.

Lemma obj_has_keys o k : obj_has k o = true <-> In k (obj_keys o).
Proof.
  unfold obj_has. destruct (obj_get k o) eqn:E.
  - split; [intros _|reflexivity].
    apply obj_get_In in E. apply (in_map fst) in E. exact E.
  - apply obj_get_None_keys in E. split; [discriminate|tauto].
Qed.

Lemma obj_get_NoDup o k v :
  NoDup (obj_keys o) -> In (k, v) o -> obj_get k o = Some v.
Proof.
  induction o as [|[k' v'] o IH]; simpl; [tauto|].
  intros Hnd [H|H]; inversion Hnd as [|? ? Hnotin Hnd']; subst.
  - injection H as -> ->. now rewrite String.eqb_refl.
  - destruct (String.eqb k k') eqn:E.
    + apply String.eqb_eq in E; subst. exfalso. apply Hnotin.
      apply (in_map fst) in H. exact H.
    + auto.
Qed.

Lemma obj_keys_set o k v :
  obj_keys (obj_set k v o) =
  if obj_has k o then obj_keys o else obj_keys o ++ [k].
Proof.
  induction o as [|[k' v'] o IH]; simpl; [reflexivity|].
  unfold obj_has in *. simpl.
  destruct (String.eqb k k') eqn:E; simpl.
  - apply String.eqb_eq in E. now subst.
  - rewrite IH. now destruct (obj_get k o).
Qed.

Lemma obj_set_NoDup o k v : NoDup (obj_keys o) -> NoDup (obj_keys (obj_set k v o)).
Proof.
  intros H. rewrite obj_keys_set. destruct (obj_has k o) eqn:E; [exact H|].
  apply NoDup_app; [exact H|repeat constructor; simpl; tauto|].
  intros x Hx [<-|[]].
  apply obj_has_keys in Hx. congruence.
Qed.

End ObjFacts.

Lemma obj_keys_set_In {V} (o : obj V) k k' v :
  In k (obj_keys (obj_set k' v o)) <-> k = k' \/ In k (obj_keys o).
Proof.
  rewrite <- !obj_has_keys, obj_has_set, orb_true_iff, String.eqb_eq.
  tauto.
Qed.

Lemma set_has_In k s : set_has k s = true <-> In k s.
Proof.
  unfold set_has. rewrite existsb_exists. split.
  - intros (x & Hx & E). apply String.eqb_eq in E. now subst.
  - intros H. exists k. split; [exact H|apply String.eqb_refl].
Qed.

Lemma set_add_In k k' s : In k (set_add k' s) <-> k = k' \/ In k s.
Proof.
  unfold set_add. destruct (set_has k' s) eqn:E.
  - apply set_has_In in E. split; [tauto|]. intros [->|H]; auto.
  - rewrite in_app_iff. simpl. intuition congruence.
Qed.

(* ================================================================== *)
(** * The shortest-path builder *)
(* ================================================================== *)

(** ** Offspring of the input, keys of the graph *)

Lemma beesWithMutations_In e allMutations :
  In e (beesWithMutations allMutations) <-> isOffspring e allMutations.
Proof.
  unfold beesWithMutations, isOffspring.
  assert (Hin : forall keys acc,
             In e (fold_left (fun acc o => set_add o acc) keys acc) <->
             In e acc \/ In e keys).
  { induction keys as [|k keys IH]; intros acc; simpl; [tauto|].
    rewrite IH, set_add_In. intuition congruence. }
  assert (H : forall muts acc,
             In e (fold_left
                     (fun acc group =>
                        fold_left (fun acc o => set_add o acc)
                                  (obj_keys (group_children group)) acc)
                     muts acc) <->
             In e acc \/
             exists g, In g muts /\ In e (obj_keys (group_children g))).
  { induction muts as [|g muts IH]; intros acc; simpl.
    - split; [tauto|]. intros [H|(g & [] & _)]. exact H.
    - rewrite IH, Hin. split.
      + intros [[H|H]|(g' & Hg' & H)]; eauto.
      + intros [H|(g' & [<-|Hg'] & H)]; eauto. }
  rewrite H. simpl. tauto.
Qed.

Lemma addGroupToGraph_keys e group graph :
  In e (obj_keys (addGroupToGraph graph group)) <->
  In e (obj_keys graph) \/ In e (obj_keys (group_children group)).
Proof.
  unfold addGroupToGraph.
  generalize (nth_error (group_parents group) 0) as p1.
  generalize (nth_error (group_parents group) 1) as p2.
  intros p2 p1. revert graph.
  induction (group_children group) as [|[o cd] children IH];
    intros graph; simpl; [tauto|].
  rewrite IH, obj_keys_set_In. intuition congruence.
Qed.

Lemma mutationGraph_keys e allMutations :
  In e (obj_keys (mutationGraph allMutations)) <-> isOffspring e allMutations.
Proof.
  unfold mutationGraph, isOffspring.
  assert (H : forall muts acc,
             In e (obj_keys (fold_left addGroupToGraph muts acc)) <->
             In e (obj_keys acc) \/
             exists g, In g muts /\ In e (obj_keys (group_children g))).
  { induction muts as [|g muts IH]; intros acc; simpl.
    - split; [tauto|]. intros [H|(g & [] & _)]. exact H.
    - rewrite IH, addGroupToGraph_keys. split.
      + intros [[H|H]|(g' & Hg' & H)]; eauto.
      + intros [H|(g' & [<-|Hg'] & H)]; eauto. }
  rewrite H. simpl. tauto.
Qed.

Lemma addGroupToGraph_NoDup group graph :
  NoDup (obj_keys graph) -> NoDup (obj_keys (addGroupToGraph graph group)).
Proof.
  unfold addGroupToGraph.
  generalize (nth_error (group_parents group) 0) as p1.
  generalize (nth_error (group_parents group) 1) as p2.
  intros p2 p1. revert graph.
  induction (group_children group) as [|[o cd] children IH];
    intros graph H; simpl; [exact H|].
  apply IH. now apply obj_set_NoDup.
Qed.

Lemma mutationGraph_NoDup allMutations :
  NoDup (obj_keys (mutationGraph allMutations)).
Proof.
  unfold mutationGraph.
  assert (H : forall muts acc, NoDup (obj_keys acc) ->
                               NoDup (obj_keys (fold_left addGroupToGraph muts acc))).
  { induction muts as [|g muts IH]; intros acc Hacc; simpl; [exact Hacc|].
    apply IH. now apply addGroupToGraph_NoDup. }
  apply H. constructor.
Qed.

Lemma baseBees_In e allBees allMutations :
  In e (baseBees allBees allMutations) <->
  In e allBees /\ ~ isOffspring e allMutations.
Proof.
  unfold baseBees.
  assert (H : forall bees acc,
             In e (fold_left
                     (fun acc beeId =>
                        if negb (set_has beeId (beesWithMutations allMutations))
                        then set_add beeId acc else acc) bees acc) <->
             In e acc \/ (In e bees /\ ~ isOffspring e allMutations)).
  { induction bees as [|b bees IH]; intros acc; simpl; [tauto|].
    rewrite IH. destruct (set_has b (beesWithMutations allMutations)) eqn:E; simpl.
    - apply set_has_In, beesWithMutations_In in E.
      split; [tauto|]. intros [H|[[<-|H] Hn]]; tauto.
    - assert (~ isOffspring b allMutations).
      { rewrite <- beesWithMutations_In, <- set_has_In. congruence. }
      rewrite set_add_In. split.
      + intros [[->|H1]|H1]; tauto.
      + intros [H1|[[<-|H1] Hn]]; tauto. }
  rewrite H. simpl. tauto.
Qed.

Lemma initialDepth_get base k d :
  obj_get k (initialDepth base) = Some d -> In k base /\ d = 0.
Proof.
  unfold initialDepth.
  assert (H : forall l acc,
             obj_get k (fold_left (fun depth bee => obj_set bee 0 depth) l acc)
             = Some d -> (In k l /\ d = 0) \/ obj_get k acc = Some d).
  { induction l as [|b l IH]; intros acc; simpl; [tauto|].
    intros H. apply IH in H. destruct H as [H|H]; [tauto|].
    destruct (String.eqb_spec k b) as [->|Hne].
    - rewrite obj_get_set_same in H. injection H as <-. tauto.
    - rewrite obj_get_set_other in H by exact Hne. tauto. }
  intros Hg. apply H in Hg. destruct Hg as [Hg|Hg]; [exact Hg|discriminate].
Qed.

Lemma initialDepth_base base k :
  In k base -> obj_get k (initialDepth base) = Some 0.
Proof.
  unfold initialDepth.
  assert (H : forall l acc,
             In k l \/ obj_get k acc = Some 0 ->
             obj_get k (fold_left (fun depth bee => obj_set bee 0 depth) l acc)
             = Some 0).
  { induction l as [|b l IH]; intros acc; simpl.
    - intros [[]|H]. exact H.
    - intros H. apply IH.
      destruct (String.eqb_spec k b) as [->|Hne].
      + right. apply obj_get_set_same.
      + rewrite obj_get_set_other by exact Hne. intuition congruence. }
  intros Hin. apply H. now left.
Qed.

(** ** The search loop terminates within its bound *)

Lemma filter_length_mono {A} (f f' : A -> bool) (l : list A) :
  (forall x, In x l -> f' x = true -> f x = true) ->
  List.length (filter f' l) <= List.length (filter f l).
Proof.
  induction l as [|a l IH]; simpl; intros H; [lia|].
  assert (IH' := IH (fun x Hx => H x (or_intror Hx))).
  destruct (f' a) eqn:E'.
  - rewrite (H a (or_introl eq_refl) E'). simpl. lia.
  - destruct (f a); simpl; lia.
Qed.

Lemma filter_length_strict {A} (f f' : A -> bool) (l : list A) (x : A) :
  (forall y, In y l -> f' y = true -> f y = true) ->
  In x l -> f x = true -> f' x = false ->
  List.length (filter f' l) < List.length (filter f l).
Proof.
  induction l as [|a l IH]; simpl; intros H Hin Hf Hf'; [tauto|].
  assert (Hl : forall y, In y l -> f' y = true -> f y = true) by auto.
  destruct Hin as [->|Hin].
  - rewrite Hf, Hf'. simpl.
    assert (Hle := filter_length_mono f f' l Hl). lia.
  - specialize (IH Hl Hin Hf Hf').
    destruct (f' a) eqn:E'.
    + rewrite (H a (or_introl eq_refl) E'). simpl. lia.
    + destruct (f a); simpl; lia.
Qed.

Lemma pending_set graph beeDepth o ms d :
  In (o, ms) graph -> obj_has o beeDepth = false ->
  pending graph (obj_set o d beeDepth) < pending graph beeDepth.
Proof.
  intros Hin Hno. unfold pending.
  apply filter_length_strict with (x := (o, ms)); auto.
  - intros y _. rewrite obj_has_set, negb_orb. intros H.
    now apply andb_true_iff in H.
  - simpl. now rewrite Hno.
  - simpl. now rewrite obj_has_set, String.eqb_refl.
Qed.

Lemma scanStep_measure graph st entry :
  In entry graph ->
  List.length (snd (scanStep st entry)) + pending graph (fst (scanStep st entry))
  <= List.length (snd st) + pending graph (fst st).
Proof.
  destruct st as [beeDepth queue], entry as [o ms]. intros Hin.
  unfold scanStep. destruct (obj_has o beeDepth) eqn:Hh; [reflexivity|].
  destruct (firstReachable beeDepth ms) as [d|]; [|reflexivity].
  simpl. rewrite length_app. simpl.
  assert (H := pending_set graph beeDepth o ms d Hin Hh). lia.
Qed.

Lemma scan_measure graph entries st :
  incl entries graph ->
  List.length (snd (fold_left scanStep entries st))
  + pending graph (fst (fold_left scanStep entries st))
  <= List.length (snd st) + pending graph (fst st).
Proof.
  revert st. induction entries as [|e entries IH]; intros st Hincl; simpl.
  - lia.
  - assert (He : In e graph) by (apply Hincl; now left).
    assert (Hrest : incl entries graph) by (intros x Hx; apply Hincl; now right).
    specialize (IH (scanStep st e) Hrest).
    assert (H := scanStep_measure graph st e He). lia.
Qed.

Lemma bfsLoop_total graph fuel : forall beeDepth queue,
  List.length queue + pending graph beeDepth <= fuel ->
  exists d, bfsLoop fuel graph beeDepth queue = Some d.
Proof.
  induction fuel as [|fuel IH]; intros beeDepth queue Hle.
  - destruct queue as [|c rest]; simpl in *; [eauto|lia].
  - destruct queue as [|c rest]; simpl in *; [eauto|].
    destruct (scanGraph graph (beeDepth, rest)) as [d' q'] eqn:E.
    apply IH.
    assert (H := scan_measure graph graph (beeDepth, rest) (incl_refl _)).
    unfold scanGraph in E. rewrite E in H. simpl in H. lia.
Qed.

Lemma computeDepths_total allBees allMutations :
  exists beeDepth, computeDepths allBees allMutations = Some beeDepth.
Proof.
  unfold computeDepths. apply bfsLoop_total.
  unfold pending. apply Nat.add_le_mono_l. apply List.filter_length_le.
Qed.

(** ** What the loop preserves *)

Lemma bfsLoop_preserves (P : obj nat -> Prop) graph :
  (forall st entry, In entry graph -> P (fst st) -> P (fst (scanStep st entry))) ->
  forall fuel beeDepth queue d,
    P beeDepth -> bfsLoop fuel graph beeDepth queue = Some d -> P d.
Proof.
  intros Hstep.
  assert (Hscan : forall entries st, incl entries graph -> P (fst st) ->
                                     P (fst (fold_left scanStep entries st))).
  { induction entries as [|e entries IH]; intros st Hincl HP; simpl; [exact HP|].
    apply IH; [intros x Hx; apply Hincl; now right|].
    apply Hstep; [apply Hincl; now left|exact HP]. }
  induction fuel as [|fuel IH]; intros beeDepth queue d HP Hrun.
  - destruct queue; simpl in Hrun; [now injection Hrun as <-|discriminate].
  - destruct queue as [|c rest]; simpl in Hrun; [now injection Hrun as <-|].
    destruct (scanGraph graph (beeDepth, rest)) as [d' q'] eqn:E.
    apply (IH d' q' d); [|exact Hrun].
    specialize (Hscan graph (beeDepth, rest) (incl_refl _) HP).
    unfold scanGraph in E. now rewrite E in Hscan.
Qed.

Lemma extends_set beeDepth o d :
  obj_has o beeDepth = false -> extends beeDepth (obj_set o d beeDepth).
Proof.
  intros Hno k n Hk. rewrite obj_get_set_other; [exact Hk|].
  intros ->. unfold obj_has in Hno. now rewrite Hk in Hno.
Qed.

Lemma depthOf_extends d d' p n :
  extends d d' -> depthOf d p = Some n -> depthOf d' p = Some n.
Proof. destruct p; simpl; auto. Qed.

Lemma firstReachable_some beeDepth ms d :
  firstReachable beeDepth ms = Some d ->
  exists m d1 d2,
    In m ms /\ depthOf beeDepth (pm_parent1 m) = Some d1 /\
    depthOf beeDepth (pm_parent2 m) = Some d2 /\ d = Nat.max d1 d2 + 1.
Proof.
  induction ms as [|m ms IH]; simpl; [discriminate|].
  destruct (depthOf beeDepth (pm_parent1 m)) as [d1|] eqn:E1;
    [destruct (depthOf beeDepth (pm_parent2 m)) as [d2|] eqn:E2|].
  - intros [= <-]. exists m, d1, d2. auto.
  - intros H. destruct (IH H) as (m' & a & b & Hin & ?). exists m', a, b. auto.
  - intros H. destruct (IH H) as (m' & a & b & Hin & ?). exists m', a, b. auto.
Qed.

Lemma scanStep_justified graph st entry :
  NoDup (obj_keys graph) -> In entry graph ->
  justified graph (fst st) -> justified graph (fst (scanStep st entry)).
Proof.
  destruct st as [beeDepth queue], entry as [o ms]. intros Hnd Hin Hj.
  unfold scanStep. destruct (obj_has o beeDepth) eqn:Hh; [exact Hj|].
  destruct (firstReachable beeDepth ms) as [d|] eqn:Hf; [|exact Hj].
  simpl in *. assert (Hext := extends_set beeDepth o d Hh).
  intros k n ms' Hk Hg.
  destruct (String.eqb_spec k o) as [->|Hne].
  - rewrite obj_get_set_same in Hk. injection Hk as <-.
    rewrite (obj_get_NoDup _ _ _ Hnd Hin) in Hg. injection Hg as <-.
    destruct (firstReachable_some _ _ _ Hf) as (m & d1 & d2 & Hm & H1 & H2 & ->).
    exists m, d1, d2. repeat split; eauto using depthOf_extends.
  - rewrite obj_get_set_other in Hk by exact Hne.
    destruct (Hj k n ms' Hk Hg) as (m & d1 & d2 & Hm & H1 & H2 & ->).
    exists m, d1, d2. repeat split; eauto using depthOf_extends.
Qed.

Lemma scanStep_extends d0 st entry :
  extends d0 (fst st) -> extends d0 (fst (scanStep st entry)).
Proof.
  destruct st as [beeDepth queue], entry as [o ms]. intros He.
  unfold scanStep. destruct (obj_has o beeDepth) eqn:Hh; [exact He|].
  destruct (firstReachable beeDepth ms) as [d|]; [|exact He].
  simpl in *. intros k n Hk. apply (extends_set beeDepth o d Hh). auto.
Qed.

Lemma computeDepths_justified allBees allMutations beeDepth :
  computeDepths allBees allMutations = Some beeDepth ->
  justified (mutationGraph allMutations) beeDepth.
Proof.
  unfold computeDepths. intros Hrun.
  refine (bfsLoop_preserves (justified (mutationGraph allMutations)) _ _ _ _ _ _ _ Hrun).
  - intros st entry Hin. apply scanStep_justified; [apply mutationGraph_NoDup|exact Hin].
  - intros k d ms Hk Hg. exfalso.
    apply initialDepth_get in Hk. destruct Hk as [Hk _].
    apply baseBees_In in Hk. destruct Hk as [_ Hk]. apply Hk.
    apply mutationGraph_keys. apply obj_has_keys. unfold obj_has. now rewrite Hg.
Qed.

Lemma computeDepths_base allBees allMutations beeDepth e :
  computeDepths allBees allMutations = Some beeDepth ->
  In e allBees -> ~ isOffspring e allMutations ->
  obj_get e beeDepth = Some 0.
Proof.
  unfold computeDepths. intros Hrun Hin Hno.
  assert (He : extends (initialDepth (baseBees allBees allMutations)) beeDepth).
  { refine (bfsLoop_preserves (extends _) _ _ _ _ _ _ _ Hrun).
    - intros st entry _. apply scanStep_extends.
    - intros k n H. exact H. }
  apply He. apply initialDepth_base. apply baseBees_In. auto.
Qed.

(** ** The second pass *)

Lemma findShortest_some beeDepth t ms m :
  findShortest beeDepth t ms = Some m ->
  In m ms /\
  exists p1 p2 d1 d2,
    pm_parent1 m = Some p1 /\ pm_parent2 m = Some p2 /\
    obj_get p1 beeDepth = Some d1 /\ obj_get p2 beeDepth = Some d2 /\
    Nat.max d1 d2 + 1 = t.
Proof.
  induction ms as [|m0 ms IH]; simpl; [discriminate|].
  destruct (depthOf beeDepth (pm_parent1 m0)) as [d1|] eqn:E1;
    [destruct (depthOf beeDepth (pm_parent2 m0)) as [d2|] eqn:E2|].
  - destruct (Nat.eqb_spec (Nat.max d1 d2 + 1) t) as [Ht|Ht].
    + intros [= <-]. split; [now left|].
      destruct (pm_parent1 m0) as [p1|]; [|discriminate].
      destruct (pm_parent2 m0) as [p2|]; [|discriminate].
      exists p1, p2, d1, d2. auto.
    + intros H. destruct (IH H) as [Hin Hrest]. auto.
  - intros H. destruct (IH H) as [Hin Hrest]. auto.
  - intros H. destruct (IH H) as [Hin Hrest]. auto.
Qed.

Lemma findShortest_complete beeDepth t ms :
  (exists m d1 d2,
      In m ms /\ depthOf beeDepth (pm_parent1 m) = Some d1 /\
      depthOf beeDepth (pm_parent2 m) = Some d2 /\ t = Nat.max d1 d2 + 1) ->
  exists m, findShortest beeDepth t ms = Some m.
Proof.
  intros (m & d1 & d2 & Hin & H1 & H2 & ->).
  induction ms as [|m0 ms IH]; simpl; [destruct Hin|].
  destruct Hin as [->|Hin].
  - rewrite H1, H2, Nat.eqb_refl. eauto.
  - destruct (depthOf beeDepth (pm_parent1 m0)) as [e1|];
      [destruct (depthOf beeDepth (pm_parent2 m0)) as [e2|]|]; auto.
    destruct (Nat.eqb (Nat.max e1 e2 + 1) (Nat.max d1 d2 + 1)); eauto.
Qed.

Lemma filter_obj_set {V} (f : V -> bool) key (v : V) (o : obj V) :
  List.length (filter f (obj_values (obj_set key v o)))
  + match obj_get key o with
    | Some old => if f old then 1 else 0
    | None => 0
    end
  = List.length (filter f (obj_values o)) + (if f v then 1 else 0).
Proof.
  induction o as [|[k' v'] o IH]; simpl.
  - destruct (f v); simpl; lia.
  - destruct (String.eqb key k') eqn:E; simpl.
    + destruct (f v), (f v'); simpl; lia.
    + destruct (f v'); simpl; lia.
Qed.

Lemma producers_zero e groups :
  producers e groups = 0 ->
  forall g, In g groups -> obj_has e (group_children g) = false.
Proof.
  unfold producers. induction groups as [|g0 groups IH]; simpl; [tauto|].
  destruct (obj_has e (group_children g0)) eqn:E; simpl; [discriminate|].
  intros H g [<-|Hg]; auto.
Qed.

Lemma obj_get_values {V} (o : obj V) k v :
  obj_get k o = Some v -> In v (obj_values o).
Proof. intros H. apply obj_get_In in H. apply (in_map snd) in H. exact H. Qed.

Lemma placeMutation_other e sm o m :
  e <> o ->
  producers e (obj_values (placeMutation sm o m)) = producers e (obj_values sm).
Proof.
  intros Hne. unfold placeMutation.
  destruct (pm_parent1 m) as [p1|]; [|reflexivity].
  destruct (pm_parent2 m) as [p2|]; [|reflexivity].
  unfold producers.
  match goal with |- context [obj_set ?kk ?gg sm] =>
    assert (H := filter_obj_set (fun g => obj_has e (group_children g)) kk gg sm)
  end.
  simpl in H. rewrite obj_has_set in H.
  apply String.eqb_neq in Hne. rewrite Hne in H. simpl in H.
  destruct (obj_get (pairKey p1 p2) sm) as [old|]; simpl in H.
  - apply Nat.add_cancel_r in H. exact H.
  - unfold obj_has in H. simpl in H. rewrite !Nat.add_0_r in H. exact H.
Qed.

Lemma placeMutation_same sm o m p1 p2 :
  pm_parent1 m = Some p1 -> pm_parent2 m = Some p2 ->
  producers o (obj_values sm) = 0 ->
  producers o (obj_values (placeMutation sm o m)) = 1.
Proof.
  intros H1 H2 Hz. unfold placeMutation. rewrite H1, H2.
  unfold producers in *.
  match goal with |- context [obj_set ?kk ?gg sm] =>
    assert (H := filter_obj_set (fun g => obj_has o (group_children g)) kk gg sm)
  end.
  simpl in H. rewrite obj_has_set, String.eqb_refl in H. simpl in H.
  destruct (obj_get (pairKey p1 p2) sm) as [old|] eqn:E; simpl in H.
  - apply obj_get_values in E.
    rewrite (producers_zero o _ Hz old E) in H.
    rewrite Hz, Nat.add_0_r in H. exact H.
  - rewrite Hz, Nat.add_0_r in H. exact H.
Qed.

Lemma pathStep_other beeDepth e st o ms :
  e <> o ->
  producers e (obj_values (fst (pathStep beeDepth st (o, ms))))
  = producers e (obj_values (fst st)).
Proof.
  intros Hne. destruct st as [sm pr]. unfold pathStep.
  destruct (obj_get o beeDepth) as [t|]; [|reflexivity].
  destruct (set_has o pr); [reflexivity|].
  destruct (findShortest beeDepth t ms); [|reflexivity].
  simpl. now apply placeMutation_other.
Qed.

Lemma pathFold_other beeDepth e entries : forall st,
  ~ In e (obj_keys entries) ->
  producers e (obj_values (fst (fold_left (pathStep beeDepth) entries st)))
  = producers e (obj_values (fst st)).
Proof.
  induction entries as [|[o ms] entries IH]; intros st Hn; simpl; [reflexivity|].
  simpl in Hn. rewrite IH by tauto. apply pathStep_other. intuition.
Qed.

Lemma pathStep_processed beeDepth st entry k :
  In k (snd (pathStep beeDepth st entry)) -> k = fst entry \/ In k (snd st).
Proof.
  destruct st as [sm pr], entry as [o ms]. unfold pathStep.
  destruct (obj_get o beeDepth) as [t|]; [|auto].
  destruct (set_has o pr); [auto|].
  destruct (findShortest beeDepth t ms); [|auto].
  simpl. apply set_add_In.
Qed.

(** Every offspring holding a depth gets exactly one producing group. *)
Lemma pathFold_unique beeDepth graph entries : forall st,
  justified graph beeDepth ->
  NoDup (obj_keys entries) ->
  (forall o ms, In (o, ms) entries -> obj_get o graph = Some ms) ->
  (forall e, In e (obj_keys entries) ->
             producers e (obj_values (fst st)) = 0 /\ ~ In e (snd st)) ->
  forall e, In e (obj_keys entries) -> obj_has e beeDepth = true ->
    producers e (obj_values (fst (fold_left (pathStep beeDepth) entries st))) = 1.
Proof.
  induction entries as [|[o ms] entries IH]; intros st Hj Hnd Hg Hfresh e He Hd;
    simpl in *; [tauto|].
  inversion Hnd as [|? ? Hnotin Hnd']; subst.
  destruct He as [<-|He].
  - rewrite pathFold_other by exact Hnotin.
    destruct st as [sm pr]. unfold pathStep.
    unfold obj_has in Hd. destruct (obj_get o beeDepth) as [t|] eqn:Et; [|discriminate].
    destruct (Hfresh o (or_introl eq_refl)) as [Hz Hpr]. simpl in Hz, Hpr.
    destruct (set_has o pr) eqn:Es; [apply set_has_In in Es; tauto|].
    destruct (findShortest_complete beeDepth t ms
                (Hj o t ms Et (Hg o ms (or_introl eq_refl)))) as [m Hm].
    rewrite Hm. simpl.
    destruct (findShortest_some _ _ _ _ Hm) as (_ & p1 & p2 & _ & _ & H1 & H2 & _).
    eapply placeMutation_same; eauto.
  - apply IH; auto.
    intros e' He'. assert (Hne : e' <> o) by (intros ->; tauto).
    rewrite pathStep_other by exact Hne.
    destruct (Hfresh e' (or_intror He')) as [Hz Hpr]. split; [exact Hz|].
    intros Hin. apply pathStep_processed in Hin. simpl in Hin. tauto.
Qed.


Lemma obj_set_In {V} (o : obj V) k v x :
  In x (obj_set k v o) -> x = (k, v) \/ In x o.
Proof.
  induction o as [|[k' v'] o IH]; simpl.
  - intros [<-|[]]. now left.
  - destruct (String.eqb k k'); simpl.
    + intros [<-|H]; auto.
    + intros [<-|H]; auto. destruct (IH H); auto.
Qed.

Lemma placeMutation_chosen beeDepth graph sm o t ms m :
  obj_get o beeDepth = Some t -> obj_get o graph = Some ms ->
  findShortest beeDepth t ms = Some m ->
  chosenChildren beeDepth graph sm ->
  chosenChildren beeDepth graph (placeMutation sm o m).
Proof.
  intros Ht Hg Hm Hc.
  destruct (findShortest_some _ _ _ _ Hm) as (_ & p1 & p2 & _ & _ & H1 & H2 & _).
  unfold placeMutation. rewrite H1, H2.
  intros key g e c Hin Hget.
  apply obj_set_In in Hin. destruct Hin as [Heq|Hin]; [|eauto].
  injection Heq as -> ->. simpl in Hget.
  destruct (String.eqb_spec e o) as [->|Hne].
  - rewrite obj_get_set_same in Hget. injection Hget as <-.
    exists t, ms, m, p1, p2. auto 10.
  - rewrite obj_get_set_other in Hget by exact Hne.
    destruct (obj_get (pairKey p1 p2) sm) as [old|] eqn:E; [|discriminate].
    apply obj_get_In in E. eauto.
Qed.

Lemma pathFold_chosen beeDepth graph entries : forall st,
  (forall o ms, In (o, ms) entries -> obj_get o graph = Some ms) ->
  chosenChildren beeDepth graph (fst st) ->
  chosenChildren beeDepth graph (fst (fold_left (pathStep beeDepth) entries st)).
Proof.
  induction entries as [|[o ms] entries IH]; intros st Hg Hc; simpl; [exact Hc|].
  apply IH; [intros; apply Hg; now right|].
  destruct st as [sm pr]. unfold pathStep.
  destruct (obj_get o beeDepth) as [t|] eqn:Et; [|exact Hc].
  destruct (set_has o pr); [exact Hc|].
  destruct (findShortest beeDepth t ms) as [m|] eqn:Hm; [|exact Hc].
  simpl. eapply placeMutation_chosen; eauto. apply Hg. now left.
Qed.

Lemma placeMutation_keyed sm o m :
  (forall p, pm_parent1 m = Some p -> cleanName p) ->
  (forall p, pm_parent2 m = Some p -> cleanName p) ->
  keyedByPair sm -> keyedByPair (placeMutation sm o m).
Proof.
  intros C1 C2 Hk. unfold placeMutation.
  destruct (pm_parent1 m) as [p1|]; [|exact Hk].
  destruct (pm_parent2 m) as [p2|]; [|exact Hk].
  intros key g Hin. apply obj_set_In in Hin. destruct Hin as [Heq|Hin]; [|eauto].
  injection Heq as Hkey Hgrp. subst key g. cbn [group_parents].
  destruct (obj_get (pairKey p1 p2) sm) as [old|] eqn:E.
  - apply obj_get_In in E. exact (Hk _ _ E).
  - exists p1, p2. cbn [group_parents]. auto.
Qed.

Lemma pathFold_keyed beeDepth graph entries : forall st,
  cleanGraph graph -> incl entries graph ->
  keyedByPair (fst st) ->
  keyedByPair (fst (fold_left (pathStep beeDepth) entries st)).
Proof.
  induction entries as [|[o ms] entries IH]; intros st Hcg Hincl Hk; simpl;
    [exact Hk|].
  apply IH; [exact Hcg|intros x Hx; apply Hincl; now right|].
  destruct st as [sm pr]. unfold pathStep.
  destruct (obj_get o beeDepth) as [t|] eqn:Et; [|exact Hk].
  destruct (set_has o pr); [exact Hk|].
  destruct (findShortest beeDepth t ms) as [m|] eqn:Hm; [|exact Hk].
  simpl. destruct (findShortest_some _ _ _ _ Hm) as [Hin _].
  destruct (Hcg o ms m (Hincl _ (or_introl eq_refl)) Hin) as [C1 C2].
  now apply placeMutation_keyed.
Qed.

(** ** Sorting and the final clean-up keep the groups' content *)

Lemma insertSorted_In x y l : In x (insertSorted y l) <-> x = y \/ In x l.
Proof.
  induction l as [|z l IH]; simpl; [intuition congruence|].
  destruct (String.leb y z); simpl; [intuition congruence|].
  rewrite IH. intuition congruence.
Qed.

Lemma sort_In x l : In x (sort l) <-> In x l.
Proof.
  induction l as [|y l IH]; simpl; [tauto|].
  rewrite insertSorted_In, IH. intuition congruence.
Qed.

Lemma insertBy_In {A} (after : A -> A -> bool) x y l :
  In x (insertBy after y l) <-> x = y \/ In x l.
Proof.
  induction l as [|z l IH]; simpl; [intuition congruence|].
  destruct (after y z); simpl; [|intuition congruence].
  rewrite IH. intuition congruence.
Qed.

Lemma sortBy_In {A} (after : A -> A -> bool) x l :
  In x (sortBy after l) <-> In x l.
Proof.
  induction l as [|y l IH]; simpl; [tauto|].
  rewrite insertBy_In, IH. intuition congruence.
Qed.

Lemma insertBy_filter {A} (after : A -> A -> bool) (f : A -> bool) y l :
  List.length (filter f (insertBy after y l)) = List.length (filter f (y :: l)).
Proof.
  induction l as [|z l IH]; simpl; [reflexivity|].
  destruct (after y z); simpl; [|reflexivity].
  simpl in IH. destruct (f z), (f y); simpl in *; rewrite IH; reflexivity.
Qed.

Lemma sortBy_filter {A} (after : A -> A -> bool) (f : A -> bool) l :
  List.length (filter f (sortBy after l)) = List.length (filter f l).
Proof.
  induction l as [|y l IH]; simpl; [reflexivity|].
  rewrite insertBy_filter. simpl. destruct (f y); simpl; now rewrite IH.
Qed.

Lemma sortChildren_get children e :
  obj_get e (sortChildren children) = option_map cleanChild (obj_get e children).
Proof.
  unfold sortChildren.
  set (step := fun (sortedChildren : obj ChildData) key =>
                 match obj_get key children with
                 | Some child => obj_set key (cleanChild child) sortedChildren
                 | None => sortedChildren
                 end).
  assert (H : forall keys acc,
             obj_get e (fold_left step keys acc) =
             if set_has e keys
             then match obj_get e children with
                  | Some child => Some (cleanChild child)
                  | None => obj_get e acc
                  end
             else obj_get e acc).
  { induction keys as [|k keys IH]; intros acc; simpl; [reflexivity|].
    rewrite IH.
    assert (Hs : step acc k = match obj_get k children with
                              | Some child => obj_set k (cleanChild child) acc
                              | None => acc
                              end) by reflexivity.
    rewrite Hs. clear Hs.
    destruct (String.eqb_spec e k) as [->|Hne]; simpl.
    - destruct (obj_get k children) as [child|] eqn:E.
      + rewrite obj_get_set_same. now destruct (set_has k keys).
      + now destruct (set_has k keys).
    - destruct (obj_get k children) as [child|] eqn:E; [|reflexivity].
      now rewrite obj_get_set_other by exact Hne. }
  rewrite H. simpl.
  destruct (set_has e (sort (obj_keys children))) eqn:Es.
  - now destruct (obj_get e children).
  - destruct (obj_get e children) eqn:E; [|reflexivity].
    exfalso. apply obj_get_In in E. apply (in_map fst) in E.
    apply sort_In, set_has_In in E. unfold obj_keys in Es. simpl in E. congruence.
Qed.

Lemma cleanGroup_has e g :
  obj_has e (group_children (cleanGroup g)) = obj_has e (group_children g).
Proof.
  unfold obj_has. simpl. rewrite sortChildren_get.
  now destruct (obj_get e (group_children g)).
Qed.

Lemma producers_map_clean e groups :
  producers e (map cleanGroup groups) = producers e groups.
Proof.
  unfold producers. induction groups as [|g groups IH]; [reflexivity|].
  cbn [map filter]. rewrite cleanGroup_has.
  destruct (obj_has e (group_children g)); cbn [List.length]; now rewrite IH.
Qed.

Lemma shortestChild_clean m : cleanChild (shortestChild m) = shortestChild m.
Proof.
  unfold shortestChild, cleanChild. simpl.
  destruct (pm_isConditional m), (pm_requirements m); reflexivity.
Qed.

(** ** Shape of the candidate relations *)

Lemma addGroupToGraph_all (Q : PathMutation -> Prop) group graph :
  (forall cd m,
      In m (childMutations (nth_error (group_parents group) 0)
                           (nth_error (group_parents group) 1) cd) -> Q m) ->
  (forall o ms m, In (o, ms) graph -> In m ms -> Q m) ->
  forall o ms m, In (o, ms) (addGroupToGraph graph group) -> In m ms -> Q m.
Proof.
  unfold addGroupToGraph. intros Hnew.
  generalize dependent (nth_error (group_parents group) 0).
  generalize dependent (nth_error (group_parents group) 1).
  intros p2 p1 Hnew. revert graph.
  induction (group_children group) as [|[k cd] children IH];
    intros graph Hold; simpl; [exact Hold|].
  apply IH. intros o ms m Hin Hm.
  apply obj_set_In in Hin. destruct Hin as [Heq|Hin]; [|eauto].
  injection Heq as -> ->. apply in_app_or in Hm. destruct Hm as [Hm|Hm]; [|eauto].
  destruct (obj_get k graph) as [old|] eqn:E; [|destruct Hm].
  apply obj_get_In in E. eauto.
Qed.

Lemma mutationGraph_all (Q : PathMutation -> Prop) allMutations :
  (forall g cd m,
      In g allMutations ->
      In m (childMutations (nth_error (group_parents g) 0)
                           (nth_error (group_parents g) 1) cd) -> Q m) ->
  forall o ms m, In (o, ms) (mutationGraph allMutations) -> In m ms -> Q m.
Proof.
  unfold mutationGraph.
  assert (H : forall muts acc,
             (forall g cd m, In g muts ->
                In m (childMutations (nth_error (group_parents g) 0)
                        (nth_error (group_parents g) 1) cd) -> Q m) ->
             (forall o ms m, In (o, ms) acc -> In m ms -> Q m) ->
             forall o ms m,
               In (o, ms) (fold_left addGroupToGraph muts acc) -> In m ms -> Q m).
  { induction muts as [|g muts IH]; intros acc Hnew Hold; simpl; [exact Hold|].
    apply IH; [intros; eapply Hnew; eauto; now right|].
    apply addGroupToGraph_all; [|exact Hold].
    intros cd m. apply Hnew. now left. }
  intros Hnew. apply H; [exact Hnew|]. intros o ms m [].
Qed.

Lemma childMutations_shape p1 p2 cd m :
  In m (childMutations p1 p2 cd) ->
  pm_parent1 m = p1 /\ pm_parent2 m = p2 /\
  ((pm_isConditional m = true /\ exists req, pm_requirements m = Some req) \/
   (pm_isConditional m = false /\ pm_requirements m = None)).
Proof.
  unfold childMutations.
  destruct (child_requirements cd) as [[|req reqs]|].
  - intros [<-|[]]. simpl. auto.
  - intros Hin. apply in_map_iff in Hin. destruct Hin as (r & <- & _).
    simpl. eauto 6.
  - intros [<-|[]]. simpl. auto.
Qed.

Lemma mutationGraph_clean allMutations :
  cleanParents allMutations -> cleanGraph (mutationGraph allMutations).
Proof.
  intros Hc o ms m Hin Hm.
  refine (mutationGraph_all
            (fun m => (forall p, pm_parent1 m = Some p -> cleanName p) /\
                      (forall p, pm_parent2 m = Some p -> cleanName p))
            allMutations _ o ms m Hin Hm).
  intros g cd m' Hg Hm'. apply childMutations_shape in Hm'.
  destruct Hm' as (-> & -> & _).
  split; intros p Hp; apply nth_error_In in Hp; eauto.
Qed.

Lemma producers_none e groups :
  (forall g, In g groups -> obj_has e (group_children g) = false) ->
  producers e groups = 0.
Proof.
  unfold producers. induction groups as [|g groups IH]; simpl; [reflexivity|].
  intros H. rewrite (H g (or_introl eq_refl)). auto.
Qed.

Lemma shortestMutations_chosen beeDepth allMutations :
  chosenChildren beeDepth (mutationGraph allMutations)
    (shortestMutations beeDepth (mutationGraph allMutations)).
Proof.
  unfold shortestMutations. apply pathFold_chosen.
  - intros o ms Hin. apply obj_get_NoDup; [apply mutationGraph_NoDup|exact Hin].
  - intros key g e c [].
Qed.

(** ** Claims about the shortest-path builder *)

Section ShortestPathClaims.
Variable localeCompare : string -> string -> comparison.

Lemma build_output allBees allMutations beeDepth :
  computeDepths allBees allMutations = Some beeDepth ->
  buildShortestPathMutations localeCompare allBees allMutations =
  Some (map cleanGroup
          (sortBy (groupAfter localeCompare)
             (obj_values (shortestMutations beeDepth (mutationGraph allMutations))))).
Proof. intros H. unfold buildShortestPathMutations. now rewrite H. Qed.

Lemma output_origin beeDepth allMutations g e child :
  In g (map cleanGroup
          (sortBy (groupAfter localeCompare)
             (obj_values (shortestMutations beeDepth (mutationGraph allMutations))))) ->
  obj_get e (group_children g) = Some child ->
  exists key g0 c0,
    In (key, g0) (shortestMutations beeDepth (mutationGraph allMutations)) /\
    group_parents g = group_parents g0 /\
    obj_get e (group_children g0) = Some c0 /\ child = cleanChild c0.
Proof.
  intros Hin Hget. apply in_map_iff in Hin. destruct Hin as (g0 & <- & Hin).
  apply sortBy_In in Hin. apply in_map_iff in Hin.
  destruct Hin as ([key g1] & Heq & Hin). simpl in Heq. subst g1.
  simpl in Hget. rewrite sortChildren_get in Hget.
  destruct (obj_get e (group_children g0)) as [c0|] eqn:E; [|discriminate].
  injection Hget as <-. exists key, g0, c0. auto.
Qed.

(** C7. The builder returns on every input, cyclic or disconnected: it
    yields a depth map and an output; an entity without a depth is the
    child of no output group; an entity with a depth that is an offspring
    of the input is the child of exactly one output group, whose entry is
    the one written for a single candidate relation of that entity, with a
    one-element requirement list when that relation is conditional and
    none otherwise. *)
Theorem shortest_path_partial_result allBees allMutations :
  exists beeDepth output,
    computeDepths allBees allMutations = Some beeDepth /\
    buildShortestPathMutations localeCompare allBees allMutations = Some output /\
    (forall e, obj_get e beeDepth = None -> producers e output = 0) /\
    (forall e, obj_has e beeDepth = true -> isOffspring e allMutations ->
       producers e output = 1 /\
       forall g child,
         In g output -> obj_get e (group_children g) = Some child ->
         exists ms m,
           obj_get e (mutationGraph allMutations) = Some ms /\ In m ms /\
           pm_chance m = child_chance child /\
           (pm_isConditional m = true ->
            exists req, pm_requirements m = Some req /\
                        child_requirements child = Some [req]) /\
           (pm_isConditional m = false -> child_requirements child = None)).
Proof.
  destruct (computeDepths_total allBees allMutations) as [beeDepth Hd].
  exists beeDepth. eexists. split; [exact Hd|].
  split; [apply build_output; exact Hd|].
  assert (Hch := shortestMutations_chosen beeDepth allMutations).
  split.
  - intros e He. rewrite producers_map_clean. unfold producers.
    rewrite sortBy_filter. apply producers_none.
    intros g Hg. apply in_map_iff in Hg. destruct Hg as ([key g0] & <- & Hin).
    simpl. unfold obj_has.
    destruct (obj_get e (group_children g0)) as [c|] eqn:E; [|reflexivity].
    destruct (Hch key g0 e c Hin E) as (t & ms & m & p1 & p2 & Ht & _).
    congruence.
  - intros e He Hoff. split.
    + rewrite producers_map_clean. unfold producers. rewrite sortBy_filter.
      unfold shortestMutations.
      apply (pathFold_unique beeDepth (mutationGraph allMutations)).
      * eapply computeDepths_justified; eauto.
      * apply mutationGraph_NoDup.
      * intros o ms Hin. apply obj_get_NoDup; [apply mutationGraph_NoDup|exact Hin].
      * intros e' _. simpl. auto.
      * now apply mutationGraph_keys.
      * exact He.
    + intros g child Hg Hget.
      destruct (output_origin _ _ _ _ _ Hg Hget)
        as (key & g0 & c0 & Hin & _ & Hc0 & ->).
      destruct (Hch key g0 e c0 Hin Hc0)
        as (t & ms & m & p1 & p2 & Ht & Hms & Hm & -> & _).
      rewrite shortestChild_clean.
      destruct (findShortest_some _ _ _ _ Hm) as [Hmin _].
      exists ms, m. split; [exact Hms|]. split; [exact Hmin|].
      split; [reflexivity|].
      assert (Hshape :
                (pm_isConditional m = true /\ exists req, pm_requirements m = Some req) \/
                (pm_isConditional m = false /\ pm_requirements m = None)).
      { refine (mutationGraph_all
                  (fun m => (pm_isConditional m = true /\
                             exists req, pm_requirements m = Some req) \/
                            (pm_isConditional m = false /\ pm_requirements m = None))
                  allMutations _ e ms m (obj_get_In _ _ _ Hms) Hmin).
        intros g' cd m' _ Hm'. now apply childMutations_shape in Hm'. }
      unfold shortestChild. simpl.
      destruct Hshape as [[Hc (req & Hr)]|[Hc Hr]]; rewrite Hc, Hr; split.
      * intros _. eauto.
      * discriminate.
      * discriminate.
      * reflexivity.
Qed.

End ShortestPathClaims.

(** ** Parent keys determine the pair *)

Lemma append_sep_inj : forall a c b d : string,
  cleanName a -> cleanName c ->
  (a ++ "|" ++ b)%string = (c ++ "|" ++ d)%string -> a = c /\ b = d.
Proof.
  unfold cleanName.
  induction a as [|x a IH]; intros [|y c] b d Ha Hc Heq; simpl in *.
  - injection Heq as ->. auto.
  - injection Heq as <- _. simpl in Hc. discriminate.
  - injection Heq as -> _. simpl in Ha. discriminate.
  - injection Heq as -> Heq.
    apply orb_false_iff in Ha. apply orb_false_iff in Hc.
    destruct (IH c b d (proj2 Ha) (proj2 Hc) Heq) as [-> ->]. auto.
Qed.

Lemma sort_pair a b : sort [a; b] = if String.leb a b then [a; b] else [b; a].
Proof. reflexivity. Qed.

Lemma pairKey_inj q1 q2 p1 p2 :
  cleanName q1 -> cleanName q2 -> cleanName p1 -> cleanName p2 ->
  pairKey q1 q2 = pairKey p1 p2 -> sort [q1; q2] = sort [p1; p2].
Proof.
  intros Hq1 Hq2 Hp1 Hp2. unfold pairKey. rewrite !sort_pair.
  destruct (String.leb q1 q2), (String.leb p1 p2); simpl; intros H;
    apply append_sep_inj in H; auto; destruct H as [-> ->]; reflexivity.
Qed.

Section ShortestPathDepths.
Variable localeCompare : string -> string -> comparison.

(** C2, as the code has it. Every wild bee (a bee that is no offspring)
    holds depth 0, and for every offspring listed by an output group the
    group's two parents hold depths whose maximum is one below the
    offspring's depth; so both lie at most one level below it. *)
Theorem shortest_path_depths allBees allMutations :
  cleanParents allMutations ->
  exists beeDepth output,
    computeDepths allBees allMutations = Some beeDepth /\
    buildShortestPathMutations localeCompare allBees allMutations = Some output /\
    (forall e, In e allBees -> ~ isOffspring e allMutations ->
               obj_get e beeDepth = Some 0) /\
    (forall g e child,
        In g output -> obj_get e (group_children g) = Some child ->
        exists d q1 q2 d1 d2,
          obj_get e beeDepth = Some d /\ group_parents g = [q1; q2] /\
          obj_get q1 beeDepth = Some d1 /\ obj_get q2 beeDepth = Some d2 /\
          Nat.max d1 d2 + 1 = d).
Proof.
  intros Hclean.
  destruct (computeDepths_total allBees allMutations) as [beeDepth Hd].
  exists beeDepth. eexists. split; [exact Hd|].
  split; [apply build_output; exact Hd|].
  split; [intros e; now apply computeDepths_base|].
  intros g e child Hg Hget.
  destruct (output_origin _ _ _ _ _ _ Hg Hget)
    as (key & g0 & c0 & Hin & -> & Hc0 & _).
  destruct (shortestMutations_chosen beeDepth allMutations key g0 e c0 Hin Hc0)
    as (t & ms & m & p1 & p2 & Ht & Hms & Hm & _ & Hp1 & Hp2 & Hkey).
  destruct (findShortest_some _ _ _ _ Hm)
    as (Hmin & p1' & p2' & d1 & d2 & Hp1' & Hp2' & Hd1 & Hd2 & Hmax).
  assert (p1' = p1) by congruence. assert (p2' = p2) by congruence. subst p1' p2'.
  assert (Hcg := mutationGraph_clean allMutations Hclean).
  destruct (Hcg e ms m (obj_get_In _ _ _ Hms) Hmin) as [C1 C2].
  assert (Hkeyed : keyedByPair (shortestMutations beeDepth (mutationGraph allMutations))).
  { unfold shortestMutations. apply (pathFold_keyed beeDepth (mutationGraph allMutations)).
    - exact Hcg.
    - apply incl_refl.
    - intros k' g' []. }
  destruct (Hkeyed key g0 Hin) as (q1 & q2 & Hkey' & Hpar & Cq1 & Cq2).
  rewrite Hpar.
  rewrite (pairKey_inj q1 q2 p1 p2 Cq1 Cq2 (C1 _ Hp1) (C2 _ Hp2)) by congruence.
  rewrite sort_pair. exists t. destruct (String.leb p1 p2).
  - exists p1, p2, d1, d2. auto 6.
  - exists p2, p1, d2, d1. rewrite Nat.max_comm. auto 6.
Qed.

End ShortestPathDepths.

Lemma sampleMutations_clean : cleanParents sampleMutations.
Proof.
  intros g p [<-|[<-|[]]]; simpl; intros [<-|[<-|[]]]; reflexivity.
Qed.

Lemma shortest_path_depths_witness :
  cleanParents sampleMutations /\
  exists beeDepth output,
    computeDepths sampleBees sampleMutations = Some beeDepth /\
    buildShortestPathMutations String.compare sampleBees sampleMutations
    = Some output /\
    (forall e, In e sampleBees -> ~ isOffspring e sampleMutations ->
               obj_get e beeDepth = Some 0) /\
    (forall g e child,
        In g output -> obj_get e (group_children g) = Some child ->
        exists d q1 q2 d1 d2,
          obj_get e beeDepth = Some d /\ group_parents g = [q1; q2] /\
          obj_get q1 beeDepth = Some d1 /\ obj_get q2 beeDepth = Some d2 /\
          Nat.max d1 d2 + 1 = d).
Proof.
  split.
  - exact sampleMutations_clean.
  - exact (shortest_path_depths String.compare sampleBees sampleMutations
             sampleMutations_clean).
Defined.

(** C2 as stated fails on the two-hop sample: [forestry:cultivated] holds
    depth 2, the group chosen for it lists [forestry:meadows], a wild bee
    of depth 0, not 1. *)
Lemma parents_not_both_one_below :
  exists beeDepth output,
    computeDepths sampleBees sampleMutations = Some beeDepth /\
    buildShortestPathMutations String.compare sampleBees sampleMutations
    = Some output /\
    ~ parentsOneBelow beeDepth output.
Proof.
  eexists. eexists. split; [vm_compute; reflexivity|].
  split; [vm_compute; reflexivity|].
  intros H.
  specialize (H (mkGroup ["forestry:common"; "forestry:meadows"]
                   [("forestry:cultivated", mkChild 0.12 None)])
                "forestry:cultivated" 2 "forestry:meadows").
  assert (Hdepth : Some 0 = Some (2 - 1)); [|discriminate Hdepth].
  apply H.
  - left. reflexivity.
  - reflexivity.
  - reflexivity.
  - right. left. reflexivity.
Qed.

(** The depth the search assigns follows the order of the scan and need
    not be minimal. On the detour sample [d] is bred from the wild bees
    [a] and [b] directly, yet the scan meets its relation from [c] first,
    right after [c] received depth 1 in the same pass: [d] gets depth 2
    and the output lists it under [{c, c}]. *)
Lemma depth_follows_scan_order :
  computeDepths detourBees detourMutations
  = Some [("t:a", 0); ("t:b", 0); ("t:c", 1); ("t:d", 2)] /\
  buildShortestPathMutations String.compare detourBees detourMutations
  = Some [ mkGroup ["t:a"; "t:b"] [("t:c", mkChild 0.25 None)];
           mkGroup ["t:c"; "t:c"] [("t:d", mkChild 0.5 None)] ].
Proof. split; vm_compute; reflexivity. Qed.

(* ================================================================== *)
(** * Identifier normalization of the species parser *)
(* ================================================================== *)

Ltac by_cases_on_char c :=
  destruct c as [[] [] [] [] [] [] [] []]; try discriminate; reflexivity.

Lemma lowerChar_idem c : lowerChar (lowerChar c) = lowerChar c.
Proof. by_cases_on_char c. Qed.

Lemma lowerChar_underscore c :
  Ascii.eqb (lowerChar c) "_" = Ascii.eqb c "_".
Proof. by_cases_on_char c. Qed.

Lemma slug_cons c s :
  slug (String c s) =
  if Ascii.eqb c "_" then slug s else String (lowerChar c) (slug s).
Proof. unfold slug. simpl. now rewrite lowerChar_underscore. Qed.

Lemma slug_idempotent s : slug (slug s) = slug s.
Proof.
  induction s as [|c s IH]; [reflexivity|].
  rewrite slug_cons. destruct (Ascii.eqb c "_") eqn:E; [exact IH|].
  rewrite slug_cons, lowerChar_underscore, E, lowerChar_idem, IH.
  reflexivity.
Qed.

Lemma upper_not_space c :
  isUpper c || Ascii.eqb c "_" = true -> isSpace c = false.
Proof. by_cases_on_char c. Qed.

Lemma upper_not_g c :
  isUpper c || Ascii.eqb c "_" = true -> Ascii.eqb "g" c = false.
Proof. by_cases_on_char c. Qed.

Lemma upper_not_x c :
  isUpper c || Ascii.eqb c "_" = true -> Ascii.eqb "x" c = false.
Proof. by_cases_on_char c. Qed.

Lemma trimStart_bare s : allUpperOrUnderscore s = true -> trimStart s = s.
Proof.
  destruct s as [|c s]; simpl; [reflexivity|].
  intros H. apply andb_true_iff in H. now rewrite (upper_not_space c (proj1 H)).
Qed.

Lemma trimEnd_bare s : allUpperOrUnderscore s = true -> trimEnd s = s.
Proof.
  induction s as [|c s IH]; simpl; [reflexivity|].
  intros H. apply andb_true_iff in H. destruct H as [Hc Hs].
  rewrite (IH Hs), (upper_not_space c Hc). now destruct s.
Qed.

Lemma forestry_no_match s :
  allUpperOrUnderscore s = true -> searchFrom forestryAt s = None.
Proof.
  induction s as [|c s IH]; [reflexivity|].
  intros H. simpl in H. apply andb_true_iff in H. destruct H as [Hc Hs].
  cbn [searchFrom]. unfold forestryAt at 1. cbn [afterLiteral].
  rewrite (upper_not_g c Hc). auto.
Qed.

Lemma extraBees_no_match s :
  allUpperOrUnderscore s = true -> searchFrom extraBeesAt s = None.
Proof.
  induction s as [|c s IH]; [reflexivity|].
  intros H. assert (H' := H). simpl in H. apply andb_true_iff in H.
  destruct H as [Hc Hs].
  cbn [searchFrom]. unfold extraBeesAt at 1. cbn [afterLiteral].
  destruct (Ascii.eqb "E" c); [|auto].
  destruct s as [|c2 s]; [reflexivity|].
  cbn [afterLiteral]. simpl in Hs. apply andb_true_iff in Hs.
  rewrite (upper_not_x c2 (proj1 Hs)). apply IH. simpl.
  now rewrite (proj1 Hs), (proj2 Hs).
Qed.

Lemma lookupEnumName_parsed ref bees uid :
  parsedTable bees -> lookupEnumName ref bees = Some uid -> uid = speciesUid ref.
Proof.
  induction bees as [|[u bee] bees IH]; simpl; [discriminate|].
  intros Hp.
  assert (Hrest : parsedTable bees) by (intros x b n Hin; apply Hp; now right).
  destruct (bee_enumName bee) as [n|] eqn:En; [|auto].
  destruct (String.eqb_spec n ref) as [->|Hne]; [|auto].
  intros [= <-]. apply (Hp u bee ref); [now left|exact En].
Qed.

(** A uid is no enum name: it has a colon. *)
Lemma lookupEnumName_uid n bees :
  parsedTable bees -> lookupEnumName (speciesUid n) bees = None.
Proof.
  induction bees as [|[u bee] bees IH]; simpl; [reflexivity|].
  intros Hp.
  assert (Hrest : parsedTable bees) by (intros x b k Hin; apply Hp; now right).
  destruct (bee_enumName bee) as [k|] eqn:Ek; [|auto].
  destruct (String.eqb_spec k (speciesUid n)) as [->|Hne]; [|auto].
  destruct (Hp u bee _ (or_introl eq_refl) Ek) as [_ Hw].
  cbn in Hw. discriminate Hw.
Qed.

Lemma lower_of_upper c :
  isUpper c || Ascii.eqb c "_" = true -> Ascii.eqb c "_" = false ->
  isLower (lowerChar c) = true.
Proof. by_cases_on_char c. Qed.

Lemma slug_lower s :
  allUpperOrUnderscore s = true -> allChars isLower (slug s) = true.
Proof.
  induction s as [|c s IH]; [reflexivity|].
  intros H. simpl in H. apply andb_true_iff in H. destruct H as [Hc Hs].
  assert (Hlow := lower_of_upper c Hc).
  rewrite slug_cons. destruct (Ascii.eqb c "_") eqn:E; [auto|].
  simpl. now rewrite (Hlow eq_refl), (IH Hs).
Qed.

Lemma lower_not_space c : isLower c = true -> isSpace c = false.
Proof. by_cases_on_char c. Qed.

Lemma allChars_impl (p q : ascii -> bool) s :
  (forall c, p c = true -> q c = true) ->
  allChars p s = true -> allChars q s = true.
Proof.
  intros Hpq. induction s as [|c s IH]; simpl; [reflexivity|].
  intros H. apply andb_true_iff in H. destruct H as [Hc Hs].
  now rewrite (Hpq c Hc), (IH Hs).
Qed.

Lemma trim_noSpace s :
  allChars (fun c => negb (isSpace c)) s = true -> trim s = s.
Proof.
  intros H. unfold trim.
  assert (Hstart : trimStart s = s).
  { destruct s as [|c s]; simpl in *; [reflexivity|].
    apply andb_true_iff in H. destruct H as [Hc _].
    apply negb_true_iff in Hc. now rewrite Hc. }
  rewrite Hstart. clear Hstart.
  induction s as [|c s IH]; simpl in *; [reflexivity|].
  apply andb_true_iff in H. destruct H as [Hc Hs].
  apply negb_true_iff in Hc. rewrite (IH Hs), Hc. now destruct s.
Qed.

(** Neither helper-call pattern occurs in a run of lower-case letters:
    each holds a capital. *)
Lemma forestryAt_lower s : allChars isLower s = true -> forestryAt s = None.
Proof.
  intros H. unfold forestryAt.
  destruct s as [|c1 [|c2 [|c3 [|c4 s]]]]; try reflexivity;
    cbn [afterLiteral];
    repeat match goal with
           | |- context [Ascii.eqb ?a ?b] => destruct (Ascii.eqb_spec a b)
           end; try reflexivity.
  subst. cbn in H. discriminate H.
Qed.

Lemma extraBeesAt_lower s : allChars isLower s = true -> extraBeesAt s = None.
Proof.
  intros H. unfold extraBeesAt.
  destruct s as [|c1 s]; [reflexivity|]. cbn [afterLiteral].
  destruct (Ascii.eqb_spec "E" c1) as [<-|]; [|reflexivity].
  cbn in H. discriminate H.
Qed.

Lemma search_lower (matchAt : string -> option string) s :
  (forall t, allChars isLower t = true -> matchAt t = None) ->
  allChars isLower s = true -> searchFrom matchAt s = None.
Proof.
  intros Hm. induction s as [|c s IH]; intros H; cbn [searchFrom].
  - now rewrite Hm.
  - rewrite (Hm _ H). simpl in H. apply andb_true_iff in H. now apply IH.
Qed.

(** A uid of a bare symbol resolves to itself. *)
Lemma resolve_uid n bees :
  parsedTable bees -> allUpperOrUnderscore n = true ->
  resolveSpeciesReference (speciesUid n) bees = speciesUid n.
Proof.
  intros Hp Hn. assert (Hl := slug_lower n Hn).
  assert (Htail : forall t, allChars isLower t = true ->
             forall pre, In pre ["magicbees:"; "agicbees:"; "gicbees:"; "icbees:";
                                "cbees:"; "bees:"; "ees:"; "es:"; "s:"; ":"; ""] ->
             forestryAt (pre ++ t) = None /\ extraBeesAt (pre ++ t) = None).
  { intros t Ht pre Hpre. simpl in Hpre.
    repeat (destruct Hpre as [<-|Hpre]; [split; try reflexivity|]);
      try (destruct Hpre);
      first [now apply forestryAt_lower | now apply extraBeesAt_lower]. }
  assert (Hsearch : forall matchAt,
             (forall t pre, allChars isLower t = true ->
                In pre ["magicbees:"; "agicbees:"; "gicbees:"; "icbees:";
                        "cbees:"; "bees:"; "ees:"; "es:"; "s:"; ":"; ""] ->
                matchAt (pre ++ t)%string = None) ->
             searchFrom matchAt ("magicbees:" ++ slug n)%string = None).
  { intros matchAt Hm.
    assert (H0 : searchFrom matchAt (slug n) = None).
    { apply search_lower; [|exact Hl].
      intros t Ht. apply (Hm t ""); [exact Ht|]. simpl. tauto. }
    cbn [String.append searchFrom].
    repeat match goal with
           | |- context [matchAt (String ?c ?r)] =>
               let E := fresh "E" in
               assert (E : matchAt (String c r) = None);
               [ first
                   [ apply (Hm (slug n) "magicbees:"); [exact Hl|simpl; tauto]
                   | apply (Hm (slug n) "agicbees:"); [exact Hl|simpl; tauto]
                   | apply (Hm (slug n) "gicbees:"); [exact Hl|simpl; tauto]
                   | apply (Hm (slug n) "icbees:"); [exact Hl|simpl; tauto]
                   | apply (Hm (slug n) "cbees:"); [exact Hl|simpl; tauto]
                   | apply (Hm (slug n) "bees:"); [exact Hl|simpl; tauto]
                   | apply (Hm (slug n) "ees:"); [exact Hl|simpl; tauto]
                   | apply (Hm (slug n) "es:"); [exact Hl|simpl; tauto]
                   | apply (Hm (slug n) "s:"); [exact Hl|simpl; tauto]
                   | apply (Hm (slug n) ":"); [exact Hl|simpl; tauto] ]
               | rewrite E; clear E ]
           end.
    exact H0. }
  unfold resolveSpeciesReference.
  assert (Htrim : trim (speciesUid n) = speciesUid n).
  { apply trim_noSpace. unfold speciesUid. cbn [String.append allChars].
    apply (allChars_impl isLower); [|exact Hl].
    intros c Hc. now rewrite (lower_not_space c Hc). }
  rewrite Htrim, (lookupEnumName_uid n bees Hp).
  unfold speciesUid at 1 2.
  rewrite (Hsearch forestryAt) by (intros t pre Ht Hpre; now apply Htail).
  rewrite (Hsearch extraBeesAt) by (intros t pre Ht Hpre; now apply Htail).
  reflexivity.
Qed.

(** C8. A bare enum symbol resolves to the same key whether the species
    is already in the table or is a forward reference, and that key is the
    uid the species' own definition is filed under; resolving the key
    again, or taking the slug of the slug, changes nothing. For
    [AE_SKYSTONE] the key is [magicbees:aeskystone], the key the lang
    file's [AESkystone] is looked up by, while the display name keeps the
    two-letter segment as [AE]. *)
Theorem species_key_stable bees enumName :
  parsedTable bees -> bareSymbol enumName = true ->
  resolveSpeciesReference enumName bees = speciesUid enumName /\
  resolveSpeciesReference enumName [] = speciesUid enumName /\
  resolveSpeciesReference (resolveSpeciesReference enumName bees) bees
  = resolveSpeciesReference enumName bees /\
  slug (slug enumName) = slug enumName /\
  speciesUid "AE_SKYSTONE" = "magicbees:aeskystone" /\
  resolveSpeciesReference "AE_SKYSTONE" [] = "magicbees:aeskystone" /\
  beeIdOfUid (speciesUid "AE_SKYSTONE") = Some (langKey "AESkystone") /\
  displayName "AE_SKYSTONE" = "AE Skystone".
Proof.
  intros Hp Hbare.
  assert (Hall : allUpperOrUnderscore enumName = true).
  { destruct enumName; [discriminate|exact Hbare]. }
  assert (Htrim : trim enumName = enumName).
  { unfold trim. now rewrite trimStart_bare, trimEnd_bare. }
  assert (Hfresh : resolveSpeciesReference enumName [] = speciesUid enumName).
  { unfold resolveSpeciesReference. rewrite Htrim. simpl.
    now rewrite forestry_no_match, extraBees_no_match, Hbare. }
  assert (Hres : resolveSpeciesReference enumName bees = speciesUid enumName).
  { unfold resolveSpeciesReference in *. rewrite Htrim in *.
    destruct (lookupEnumName enumName bees) as [uid|] eqn:E.
    - now apply lookupEnumName_parsed with (bees := bees).
    - exact Hfresh. }
  split; [exact Hres|]. split; [exact Hfresh|].
  split; [rewrite Hres; now apply resolve_uid|].
  split; [apply slug_idempotent|].
  repeat split; reflexivity.
Qed.

Lemma species_key_stable_witness :
  parsedTable [("magicbees:mystical", mkBee "Mystical" (Some "MYSTICAL"))] /\
  bareSymbol "AE_SKYSTONE" = true /\
  resolveSpeciesReference "AE_SKYSTONE"
    [("magicbees:mystical", mkBee "Mystical" (Some "MYSTICAL"))]
  = speciesUid "AE_SKYSTONE".
Proof.
  assert (Hp : parsedTable
                 [("magicbees:mystical", mkBee "Mystical" (Some "MYSTICAL"))]).
  { intros uid bee n [H|[]] Hn. injection H as <- <-. simpl in Hn.
    injection Hn as <-. split; reflexivity. }
  split; [exact Hp|]. split; [reflexivity|].
  exact (proj1 (species_key_stable _ "AE_SKYSTONE" Hp eq_refl)).
Defined.

(* ================================================================== *)
(** * The output builder *)
(* ================================================================== *)

(** ** Sorting parents *)

Lemma insertSorted_ascending x l : ascending l -> ascending (insertSorted x l).
Proof.
  unfold ascending. induction l as [|y l IH]; simpl; intros Hs.
  - repeat constructor.
  - destruct (String.leb x y) eqn:E.
    + constructor; [exact Hs|]. constructor. exact E.
    + inversion Hs as [|? ? Hs' Hhd]; subst.
      constructor; [apply IH; exact Hs'|].
      assert (Hyx : String.leb y x = true).
      { destruct (String.leb_total x y); congruence. }
      destruct l as [|z l]; simpl.
      * constructor. exact Hyx.
      * destruct (String.leb x z); constructor; [exact Hyx|].
        inversion Hhd; subst. assumption.
Qed.

Lemma sort_ascending l : ascending (sort l).
Proof.
  induction l as [|x l IH]; simpl; [constructor|].
  now apply insertSorted_ascending.
Qed.

Lemma sort_of_ascending l : ascending l -> sort l = l.
Proof.
  unfold ascending. induction l as [|x l IH]; simpl; intros Hs; [reflexivity|].
  inversion Hs as [|? ? Hs' Hhd]; subst. rewrite (IH Hs').
  destruct l as [|y l]; simpl; [reflexivity|].
  inversion Hhd as [|? ? Hle]; subst. now rewrite Hle.
Qed.

Lemma sort_idempotent l : sort (sort l) = sort l.
Proof. apply sort_of_ascending, sort_ascending. Qed.

Lemma sort_pair_swap a b : sort [a; b] = sort [b; a].
Proof.
  rewrite !sort_pair.
  destruct (String.leb a b) eqn:Eab, (String.leb b a) eqn:Eba; try reflexivity.
  - now rewrite (String.leb_antisym a b Eab Eba).
  - destruct (String.leb_total a b); congruence.
Qed.

Lemma pairKey_swap a b : pairKey a b = pairKey b a.
Proof. unfold pairKey. now rewrite sort_pair_swap. Qed.

(** ** Keys compare equal to themselves *)

Lemma sameNumberText_refl x : sameNumberText x x = true.
Proof.
  unfold sameNumberText, PrimFloat.is_nan.
  now destruct (PrimFloat.eqb x x).
Qed.

Lemma sameJsonNumber_refl x : sameJsonNumber x x = true.
Proof.
  unfold sameJsonNumber, notFinite, PrimFloat.is_nan.
  now destruct (PrimFloat.eqb x x).
Qed.

Lemma list_eqb_refl {A} (eqb : A -> A -> bool) l :
  (forall a, eqb a a = true) -> list_eqb eqb l l = true.
Proof.
  intros H. induction l as [|a l IH]; simpl; [reflexivity|].
  now rewrite H, IH.
Qed.

Lemma mutationKeyEqb_refl k : mutationKeyEqb k k = true.
Proof.
  unfold mutationKeyEqb, baseKeyEqb.
  rewrite !String.eqb_refl, sameNumberText_refl. simpl.
  apply list_eqb_refl. intros [s|x]; simpl.
  - apply String.eqb_refl.
  - apply sameJsonNumber_refl.
Qed.

Lemma seenHas_app k seen extra :
  seenHas k (seen ++ extra) = seenHas k seen || seenHas k extra.
Proof. unfold seenHas. apply existsb_app. Qed.

Lemma seenHas_added k seen : seenHas k (seen ++ [k]) = true.
Proof.
  rewrite seenHas_app. simpl. rewrite mutationKeyEqb_refl.
  now rewrite orb_true_r.
Qed.

(** ** The loop, one relation at a time *)

Lemma processAll_app bees manualSet core l1 l2 :
  processAll bees manualSet core (l1 ++ l2) =
  match processAll bees manualSet core l1 with
  | None => None
  | Some (core1, skipped1) =>
      match processAll bees manualSet core1 l2 with
      | None => None
      | Some (core2, skipped2) => Some (core2, skipped1 ++ skipped2)
      end
  end.
Proof.
  revert core. induction l1 as [|m l1 IH]; intros core; simpl.
  - destruct (processAll bees manualSet core l2) as [[c s]|]; reflexivity.
  - destruct (processMutation bees manualSet core m) as [[c s]|]; [|reflexivity].
    rewrite IH.
    destruct (processAll bees manualSet c l1) as [[c1 s1]|]; [|reflexivity].
    destruct (processAll bees manualSet c1 l2) as [[c2 s2]|]; [|reflexivity].
    now rewrite app_assoc.
Qed.

Lemma processMutation_seen bees manualSet core m core' skipped k :
  processMutation bees manualSet core m = Some (core', skipped) ->
  seenHas k (core_seen core) = true -> seenHas k (core_seen core') = true.
Proof.
  unfold processMutation. intros H Hk.
  repeat match type of H with
         | (if ?c then _ else _) = _ => destruct c
         | match ?x with _ => _ end = _ => destruct x
         end;
    try (injection H as <- _; exact Hk); try discriminate.
  injection H as <- _. simpl. rewrite seenHas_app, Hk. reflexivity.
Qed.

Lemma processAll_seen bees manualSet l : forall core core' skipped k,
  processAll bees manualSet core l = Some (core', skipped) ->
  seenHas k (core_seen core) = true -> seenHas k (core_seen core') = true.
Proof.
  induction l as [|m l IH]; intros core core' skipped k H Hk; simpl in H.
  - injection H as <- _. exact Hk.
  - destruct (processMutation bees manualSet core m) as [[c s]|] eqn:E;
      [|discriminate].
    destruct (processAll bees manualSet c l) as [[c2 s2]|] eqn:E2;
      [|discriminate].
    injection H as <- _.
    eapply IH; [exact E2|]. eapply processMutation_seen; eauto.
Qed.

Lemma processMutation_settles bees manualSet core m core' skipped :
  processMutation bees manualSet core m = Some (core', skipped) ->
  settled bees manualSet m core'.
Proof.
  unfold processMutation, settled, stoppedByGuard. intros H.
  destruct (mut_parent1 m) as [p1|] eqn:E1; [|now left].
  destruct (mut_parent2 m) as [p2|] eqn:E2; [|now left].
  destruct (mut_offspring m) as [off|] eqn:E3; [|now left].
  destruct (negb (truthyStr (Some p1)) || negb (truthyStr (Some p2))
            || negb (truthyStr (Some off))) eqn:G1; [now left|].
  destruct (negb (set_has p1 bees) || negb (set_has p2 bees)
            || negb (set_has off bees)) eqn:G2.
  { left. cbv beta iota. rewrite orb_false_l, G2. reflexivity. }
  destruct (manualHas _ manualSet) eqn:G3.
  { left. cbv beta iota. apply orb_true_r. }
  right. exists p1, p2, off. repeat split; try reflexivity.
  destruct (seenHas _ (core_seen core)) eqn:G4.
  - injection H as <- _. exact G4.
  - destruct (addToGroups _ _ _ _ _ _); [|discriminate].
    injection H as <- _. simpl. apply seenHas_added.
Qed.

Lemma settled_kept bees manualSet m l core core' skipped :
  processAll bees manualSet core l = Some (core', skipped) ->
  settled bees manualSet m core -> settled bees manualSet m core'.
Proof.
  intros H [Hg|(p1 & p2 & off & E1 & E2 & E3 & Hs)]; [now left|].
  right. exists p1, p2, off. repeat split; auto.
  eapply processAll_seen; eauto.
Qed.

Lemma mutationKeyOf_swap p1 p2 off m :
  mutationKeyOf p2 p1 off (swapParents m) = mutationKeyOf p1 p2 off m.
Proof. unfold mutationKeyOf. simpl. now rewrite (pairKey_swap p2 p1). Qed.

(** A settled relation, presented with its parents exchanged, leaves the
    state as it is. *)
Lemma settled_swap_noop bees manualSet m core :
  settled bees manualSet m core ->
  exists skipped,
    processMutation bees manualSet core (swapParents m) = Some (core, skipped).
Proof.
  intros Hs. unfold processMutation.
  cbn [swapParents mut_parent1 mut_parent2 mut_offspring].
  destruct (truthyStr (mut_parent2 m)) eqn:T2; cbn [negb orb]; [|eauto].
  destruct (truthyStr (mut_parent1 m)) eqn:T1; cbn [negb orb]; [|eauto].
  destruct (truthyStr (mut_offspring m)) eqn:T3; cbn [negb orb]; [|eauto].
  destruct (mut_parent2 m) as [p2|] eqn:E2; [|discriminate T2].
  destruct (mut_parent1 m) as [p1|] eqn:E1; [|discriminate T1].
  destruct (mut_offspring m) as [off|] eqn:E3; [|discriminate T3].
  destruct (set_has p2 bees) eqn:B2; cbn [negb orb]; [|eauto].
  destruct (set_has p1 bees) eqn:B1; cbn [negb orb]; [|eauto].
  destruct (set_has off bees) eqn:B3; cbn [negb orb]; [|eauto].
  rewrite mutationKeyOf_swap.
  destruct (manualHas (mk_base (mutationKeyOf p1 p2 off m)) manualSet) eqn:G3;
    [eauto|].
  destruct Hs as [Hg|(q1 & q2 & o & Hq1 & Hq2 & Ho & Hseen)].
  - unfold stoppedByGuard in Hg. rewrite E1, E2, E3, T1, T2, T3 in Hg.
    rewrite B1, B2, B3, G3 in Hg. discriminate Hg.
  - rewrite E1 in Hq1. rewrite E2 in Hq2. rewrite E3 in Ho.
    injection Hq1 as <-. injection Hq2 as <-. injection Ho as <-.
    rewrite Hseen. eauto.
Qed.

Section ConsolidationClaims.
Variable localeCompare : string -> string -> comparison.

Lemma build_groups_of_core bees manual mutations :
  option_map fst (buildBreedingPairsJsonc localeCompare bees mutations manual) =
  option_map
    (fun r : Core * list SkippedMutation =>
       let mutationGroups := core_groups (fst r) in
       map cleanGroup
         (map (mergeGroup mutationGroups) (map sortParents manual)
          ++ sortBy (groupAfter localeCompare)
               (filter (fun group => negb (wasManual (map sortParents manual) group))
                       (map sortParents (obj_values mutationGroups)))))
    (processAll bees (manualMutationSet manual)
       (mkCore (seedGroups manual) []) mutations).
Proof.
  unfold buildBreedingPairsJsonc.
  destruct (processAll bees (manualMutationSet manual)
              (mkCore (seedGroups manual) []) mutations) as [[core sk]|];
    reflexivity.
Qed.

(** C4. A relation met again with its parents exchanged changes nothing:
    the groups of the output are those of the run without the second
    occurrence. Both orders give the same parent key, and a resolved
    relation followed by its exchanged twin yields exactly one group,
    listing the sorted pair. *)
Theorem parent_pair_symmetry bees manual ms1 m ms2 ms3 :
  option_map fst
    (buildBreedingPairsJsonc localeCompare bees
       (ms1 ++ m :: ms2 ++ swapParents m :: ms3) manual)
  = option_map fst
      (buildBreedingPairsJsonc localeCompare bees
         (ms1 ++ m :: ms2 ++ ms3) manual)
  /\ (forall p1 p2, pairKey p1 p2 = pairKey p2 p1)
  /\ (forall p1 p2 off,
        mut_parent1 m = Some p1 -> mut_parent2 m = Some p2 ->
        mut_offspring m = Some off ->
        stoppedByGuard bees [] m = false ->
        exists children,
          buildBreedingPairsJsonc localeCompare bees [m; swapParents m] []
          = Some ([mkGroup (sort [p1; p2]) children], [])).
Proof.
  split; [|split; [exact pairKey_swap|]].
  - rewrite !build_groups_of_core.
    set (manualSet := manualMutationSet manual).
    set (core0 := mkCore (seedGroups manual) []).
    rewrite !processAll_app.
    destruct (processAll bees manualSet core0 ms1) as [[c1 s1]|]; [|reflexivity].
    cbn [processAll].
    destruct (processMutation bees manualSet c1 m) as [[c2 s2]|] eqn:Em;
      [|reflexivity].
    rewrite !processAll_app.
    destruct (processAll bees manualSet c2 ms2) as [[c3 s3]|] eqn:E2;
      [|reflexivity].
    cbn [processAll].
    assert (Hs : settled bees manualSet m c3).
    { eapply settled_kept; [exact E2|]. eapply processMutation_settles; eauto. }
    destruct (settled_swap_noop bees manualSet m c3 Hs) as [sk ->].
    destruct (processAll bees manualSet c3 ms3) as [[c4 s4]|]; reflexivity.
  - intros p1 p2 off E1 E2 E3 Hg.
    unfold stoppedByGuard in Hg. rewrite E1, E2, E3 in Hg.
    apply orb_false_iff in Hg; destruct Hg as [Hg _].
    apply orb_false_iff in Hg; destruct Hg as [Hg B3].
    apply orb_false_iff in Hg; destruct Hg as [Hg B2].
    apply orb_false_iff in Hg; destruct Hg as [Hg B1].
    apply orb_false_iff in Hg; destruct Hg as [Hg T3].
    apply orb_false_iff in Hg; destruct Hg as [T1 T2].
    set (key := mutationKeyOf p1 p2 off m).
    assert (Hswap : forall core,
               seenHas key (core_seen core) = true ->
               processMutation bees [] core (swapParents m) = Some (core, [])).
    { intros core Hseen. unfold processMutation.
      cbn [swapParents mut_parent1 mut_parent2 mut_offspring].
      rewrite E1, E2, E3, T1, T2, T3, B1, B2, B3.
      cbn [negb orb manualHas existsb].
      rewrite mutationKeyOf_swap. fold key. now rewrite Hseen. }
    unfold buildBreedingPairsJsonc. cbn [manualMutationSet fold_left seedGroups map].
    cbn [processAll]. unfold processMutation at 1.
    rewrite E1, E2, E3, T1, T2, T3, B1, B2, B3.
    cbn [orb core_seen seenHas existsb core_groups manualHas].
    unfold addToGroups. cbn [obj_get group_children child_requirements child_chance].
    fold key.
    set (entry := if differs _ _ then _ else _).
    destruct entry as [|e entry]; cbn [app obj_set group_parents].
    + rewrite Hswap by (cbn [core_seen app]; apply (seenHas_added key [])).
      cbn [core_groups obj_values map snd filter wasManual existsb negb
           sortParents group_parents group_children sortBy fold_right
           insertBy app cleanGroup].
      unfold cleanGroup, sortParents. cbn [group_parents group_children].
      rewrite sort_idempotent. eauto.
    + rewrite Hswap by (cbn [core_seen app]; apply (seenHas_added key [])).
      cbn [core_groups obj_values map snd filter wasManual existsb negb
           sortParents group_parents group_children sortBy fold_right
           insertBy app cleanGroup].
      unfold cleanGroup, sortParents. cbn [group_parents group_children].
      rewrite sort_idempotent. eauto.
Qed.

(** C9. Every group of the output lists its parents in ascending order,
    and the group that stands where an override group stood lists that
    group's parents sorted, whatever their order in the override file. *)
Theorem output_parents_sorted bees mutations manual output skipped :
  buildBreedingPairsJsonc localeCompare bees mutations manual
  = Some (output, skipped) ->
  (forall g, In g output -> ascending (group_parents g)) /\
  (forall i g, nth_error manual i = Some g ->
     exists g', nth_error output i = Some g' /\
                group_parents g' = sort (group_parents g)).
Proof.
  unfold buildBreedingPairsJsonc.
  destruct (processAll bees (manualMutationSet manual)
              (mkCore (seedGroups manual) []) mutations) as [[core sk]|];
    [|discriminate].
  intros [= <- _].
  assert (Hmerge : forall g,
             group_parents (mergeGroup (core_groups core) (sortParents g))
             = sort (group_parents g)).
  { intros g. unfold mergeGroup.
    destruct (obj_get _ (core_groups core)); cbn [group_parents sortParents];
      apply sort_idempotent. }
  split.
  - intros g Hg. apply in_map_iff in Hg. destruct Hg as (g0 & <- & Hg0).
    cbn [cleanGroup group_parents]. apply in_app_or in Hg0.
    destruct Hg0 as [Hg0|Hg0].
    + apply in_map_iff in Hg0. destruct Hg0 as (g1 & <- & Hg1).
      apply in_map_iff in Hg1. destruct Hg1 as (g2 & <- & _).
      rewrite Hmerge. apply sort_ascending.
    + apply sortBy_In, filter_In in Hg0. destruct Hg0 as [Hg0 _].
      apply in_map_iff in Hg0. destruct Hg0 as (g1 & <- & _).
      apply sort_ascending.
  - intros i g Hi.
    assert (Hlt : i < List.length manual) by (apply nth_error_Some; congruence).
    rewrite map_app, nth_error_app1 by (now rewrite !length_map).
    rewrite !map_map, nth_error_map, Hi. cbn [option_map].
    eexists. split; [reflexivity|]. cbn [cleanGroup group_parents].
    apply Hmerge.
Qed.

End ConsolidationClaims.

Lemma parent_pair_symmetry_witness :
  stoppedByGuard sampleRegistry [] relationXY = false /\
  exists children,
    buildBreedingPairsJsonc String.compare sampleRegistry
      [relationXY; swapParents relationXY] []
    = Some ([mkGroup (sort ["t:x"; "t:y"]) children], []).
Proof.
  split; [reflexivity|].
  exact (proj2 (proj2 (parent_pair_symmetry String.compare sampleRegistry
                         [] [] relationXY [] []))
           "t:x" "t:y" "t:z" eq_refl eq_refl eq_refl eq_refl).
Defined.

Lemma output_parents_sorted_witness :
  buildBreedingPairsJsonc String.compare sampleRegistry [relationHell]
    overrideConditional
  = Some ([mkGroup ["t:x"; "t:y"]
             [("t:z", mkChild 0.2
                        (Some [[("temperature", VArr ["HOT"])];
                               [("biome", VArr ["Hell"]);
                                ("chance", VNum 0.05)]]))]], []) /\
  (forall g,
      In g [mkGroup ["t:x"; "t:y"]
              [("t:z", mkChild 0.2
                         (Some [[("temperature", VArr ["HOT"])];
                                [("biome", VArr ["Hell"]);
                                 ("chance", VNum 0.05)]]))]] ->
      ascending (group_parents g)).
Proof.
  assert (H : buildBreedingPairsJsonc String.compare sampleRegistry
                [relationHell] overrideConditional
              = Some ([mkGroup ["t:x"; "t:y"]
                         [("t:z", mkChild 0.2
                                    (Some [[("temperature", VArr ["HOT"])];
                                           [("biome", VArr ["Hell"]);
                                            ("chance", VNum 0.05)]]))]], []))
    by (vm_compute; reflexivity).
  split; [exact H|].
  exact (proj1 (output_parents_sorted String.compare sampleRegistry
                  [relationHell] overrideConditional _ _ H)).
Defined.

(** ** Override entries without a requirement list *)

Lemma manualHas_add k k' set :
  manualHas k set = true -> manualHas k (manualAdd k' set) = true.
Proof.
  unfold manualAdd. destruct (manualHas k' set); [auto|].
  intros H. unfold manualHas in *. rewrite existsb_app, H. reflexivity.
Qed.

Lemma manualHas_added k set : manualHas k (manualAdd k set) = true.
Proof.
  unfold manualAdd. destruct (manualHas k set) eqn:E; [exact E|].
  unfold manualHas. rewrite existsb_app. cbn [existsb].
  unfold baseKeyEqb. rewrite !String.eqb_refl, sameNumberText_refl.
  cbn. apply orb_true_r.
Qed.

(** A requirement of an override child is found in the index under the
    chance it takes effect with. *)
Lemma requirement_indexed manual g species child r :
  In g manual -> In (species, child) (group_children g) ->
  In r (requirementsOrEmpty child) ->
  manualHas (mkKey (parentKeyOf g) species (effectiveChance r child))
    (manualMutationSet manual) = true.
Proof.
  intros Hg Hin Hr. unfold manualMutationSet.
  set (k := mkKey (parentKeyOf g) species (effectiveChance r child)).
  assert (Hmono_reqs : forall pk sp child' reqs set,
             manualHas k set = true ->
             manualHas k
               (fold_left
                  (fun (set : list BaseKey) requirement =>
                     manualAdd (mkKey pk sp (effectiveChance requirement child'))
                       set) reqs set) = true).
  { induction reqs as [|r' reqs IH]; intros set H; simpl; [exact H|].
    apply IH. now apply manualHas_add. }
  assert (Hmono_group : forall g' entries set,
             manualHas k set = true ->
             manualHas k
               (fold_left
                  (fun (set : list BaseKey) (entry : string * ChildData) =>
                     let '(species, childData) := entry in
                     fold_left
                       (fun (set : list BaseKey) requirement =>
                          manualAdd
                            (mkKey (parentKeyOf g') species
                               (effectiveChance requirement childData)) set)
                       (requirementsOrEmpty childData) set)
                  entries set) = true).
  { induction entries as [|[s c] entries IH]; intros set H; simpl; [exact H|].
    apply IH. now apply Hmono_reqs. }
  assert (Hmono_all : forall groups set,
             manualHas k set = true ->
             manualHas k (fold_left indexGroup groups set) = true).
  { induction groups as [|g' groups IH]; intros set H; simpl; [exact H|].
    apply IH. unfold indexGroup. now apply Hmono_group. }
  assert (Hreqs : forall reqs set,
             In r reqs ->
             manualHas k
               (fold_left
                  (fun (set : list BaseKey) requirement =>
                     manualAdd
                       (mkKey (parentKeyOf g) species
                          (effectiveChance requirement child)) set)
                  reqs set) = true).
  { induction reqs as [|r' reqs IH]; intros set H; simpl; [destruct H|].
    destruct H as [->|H]; [|now apply IH].
    apply Hmono_reqs. apply manualHas_added. }
  assert (Hgroup : forall entries set,
             In (species, child) entries ->
             manualHas k
               (fold_left
                  (fun (set : list BaseKey) (entry : string * ChildData) =>
                     let '(species, childData) := entry in
                     fold_left
                       (fun (set : list BaseKey) requirement =>
                          manualAdd
                            (mkKey (parentKeyOf g) species
                               (effectiveChance requirement childData)) set)
                       (requirementsOrEmpty childData) set)
                  entries set) = true).
  { induction entries as [|[s c] entries IH]; intros set H; simpl; [destruct H|].
    destruct H as [Heq|H]; [|now apply IH].
    injection Heq as -> ->. apply Hmono_group. now apply Hreqs. }
  revert Hg. generalize (@nil BaseKey) as set.
  induction manual as [|g' manual IH]; intros set Hg'; simpl; [destruct Hg'|].
  destruct Hg' as [->|Hg']; [|now apply IH].
  apply Hmono_all. unfold indexGroup. now apply Hgroup.
Qed.

(** The part of C1 the code keeps: a resolved relation whose parent key,
    offspring and normalized chance are those of a requirement of an
    override child is dropped with [inManual = true], and the state is
    left as it is. *)
Lemma conditional_override_match_dropped
  bees manual core m p1 p2 off g child r :
  mut_parent1 m = Some p1 -> mut_parent2 m = Some p2 ->
  mut_offspring m = Some off -> unresolved bees m = false ->
  In g manual -> In (off, child) (group_children g) ->
  In r (requirementsOrEmpty child) ->
  pairKey p1 p2 = parentKeyOf g ->
  normalizedChance m = effectiveChance r child ->
  processMutation bees (manualMutationSet manual) core m
  = Some (core, [mkSkipped (Some off) true]).
Proof.
  intros E1 E2 E3 Hu Hg Hin Hr Hkey Hchance.
  unfold unresolved, nullish in Hu. unfold processMutation.
  rewrite E1, E2, E3 in *.
  apply orb_false_iff in Hu. destruct Hu as [Hn Hb].
  rewrite Hn, Hb. unfold mutationKeyOf. cbn [mk_base].
  rewrite Hkey, Hchance.
  now rewrite (requirement_indexed manual g off child r Hg Hin Hr).
Qed.

(** C1, on the code. An override entry is indexed once for each of its
    requirements, so an entry without a [requirements] array is not
    indexed at all: the relation [{X,Y} -> Z, 20] that matches the
    unconditional override [{Y,X} -> Z, 0.20] is processed and leaves no
    diagnostic, and the same relation restricted to a biome makes the
    builder throw; against the override carrying one condition set the
    relation is dropped with [inManual = true]. *)
Theorem unconditional_override_not_indexed :
  manualMutationSet overrideUnconditional = [] /\
  buildBreedingPairsJsonc String.compare sampleRegistry [relationXY]
    overrideUnconditional
  = Some ([mkGroup ["t:x"; "t:y"] [("t:z", mkChild 0.2 None)]], []) /\
  buildBreedingPairsJsonc String.compare sampleRegistry [relationHell20]
    overrideUnconditional = None /\
  buildBreedingPairsJsonc String.compare sampleRegistry [relationXY]
    overrideConditional
  = Some ([mkGroup ["t:x"; "t:y"]
             [("t:z", mkChild 0.2 (Some [[("temperature", VArr ["HOT"])]]))]],
          [mkSkipped (Some "t:z") true]).
Proof. repeat split; vm_compute; reflexivity. Qed.

(** The rule behind C3, where the offspring entry has a requirement
    list: a relation with a recognized condition is appended to it, and
    the appended record carries [chance] exactly when the normalized
    chance differs from the entry's default chance. *)
Lemma addToGroups_appends groups p1 p2 off chance conditions g child reqs :
  obj_get (pairKey p1 p2) groups = Some g ->
  obj_get off (group_children g) = Some child ->
  child_requirements child = Some reqs ->
  conditionEntry conditions <> [] ->
  addToGroups groups p1 p2 off chance conditions
  = Some (obj_set (pairKey p1 p2)
            (mkGroup (group_parents g)
               (obj_set off
                  (mkChild (child_chance child)
                     (Some (reqs ++
                            [conditionEntry conditions ++
                             (if differs chance (child_chance child)
                              then [("chance", VNum chance)] else [])])))
                  (group_children g)))
            groups).
Proof.
  intros Hg Hc Hr Hne. unfold addToGroups. rewrite Hg, Hc, Hr.
  destruct (differs chance (child_chance child)).
  - destruct (conditionEntry conditions ++ [("chance", VNum chance)]) eqn:E;
      [now destruct (conditionEntry conditions)|].
    now rewrite <- E.
  - rewrite app_nil_r.
    destruct (conditionEntry conditions) eqn:E; [contradiction|reflexivity].
Qed.

(** C3, on the code. Against the override [{Y,X} -> Z, 0.20] written
    without a [requirements] array, the relation [{X,Y} -> Z, 5,
    biome = Hell] makes the loop body push onto a missing array: the
    builder throws. With an empty array in the override the merged entry
    is the claimed one. *)
Theorem conditional_relation_on_unconditional_override :
  buildBreedingPairsJsonc String.compare sampleRegistry [relationHell]
    overrideUnconditional = None /\
  buildBreedingPairsJsonc String.compare sampleRegistry [relationHell]
    overrideEmptyList
  = Some ([mkGroup ["t:x"; "t:y"]
             [("t:z", mkChild 0.2
                        (Some [[("biome", VArr ["Hell"]);
                                ("chance", VNum 0.05)]]))]], []).
Proof. split; vm_compute; reflexivity. Qed.

(** ** Requirement lists *)

Lemma ForallOrdPairs_snoc {A} (R : A -> A -> Prop) l x :
  ForallOrdPairs R l -> (forall a, In a l -> R a x) ->
  ForallOrdPairs R (l ++ [x]).
Proof.
  induction 1 as [|a l Ha Hl IH]; intros Hx; simpl.
  - repeat constructor.
  - constructor.
    + apply Forall_app. split.
      * exact Ha.
      * constructor; [|constructor]. apply Hx. now left.
    + apply IH. intros b Hb. apply Hx. now right.
Qed.

Lemma mergeRequirement_distinct child newRequirement :
  distinctRequirements (requirementsOrEmpty child) ->
  distinctRequirements
    (requirementsOrEmpty (mergeRequirement child newRequirement)).
Proof.
  intros Hd. unfold mergeRequirement.
  destruct (existsb _ (requirementsOrEmpty child)) eqn:E; [exact Hd|].
  cbn [requirementsOrEmpty child_requirements].
  apply ForallOrdPairs_snoc; [exact Hd|].
  intros a Ha.
  destruct (requirementJsonEqb a newRequirement) eqn:Ea; [|reflexivity].
  assert (Hex : existsb (fun existing => requirementJsonEqb existing newRequirement)
                        (requirementsOrEmpty child) = true).
  { apply existsb_exists. eauto. }
  congruence.
Qed.

Lemma mergeRequirements_distinct news : forall child,
  distinctRequirements (requirementsOrEmpty child) ->
  distinctRequirements
    (requirementsOrEmpty (fold_left mergeRequirement news child)).
Proof.
  induction news as [|r news IH]; intros child Hd; simpl; [exact Hd|].
  apply IH. now apply mergeRequirement_distinct.
Qed.

Lemma mergeChild_distinct children entry species child :
  obj_get species children = Some child ->
  distinctRequirements (requirementsOrEmpty child) ->
  exists child',
    obj_get species (mergeChild children entry) = Some child' /\
    distinctRequirements (requirementsOrEmpty child').
Proof.
  destruct entry as [k cd]. intros Hg Hd. unfold mergeChild.
  destruct (String.eqb_spec species k) as [<-|Hne].
  - rewrite Hg. rewrite obj_get_set_same. eexists. split; [reflexivity|].
    now apply mergeRequirements_distinct.
  - exists child. split; [|exact Hd].
    destruct (obj_get k children) as [existing|].
    + now rewrite obj_get_set_other.
    + destruct (child_requirements cd) as [[|r l]|];
        now rewrite obj_get_set_other.
Qed.

Lemma mergeChildren_distinct entries : forall children species child,
  obj_get species children = Some child ->
  distinctRequirements (requirementsOrEmpty child) ->
  exists child',
    obj_get species (fold_left mergeChild entries children) = Some child' /\
    distinctRequirements (requirementsOrEmpty child').
Proof.
  induction entries as [|e entries IH]; intros children species child Hg Hd;
    simpl; [eauto|].
  destruct (mergeChild_distinct children e species child Hg Hd)
    as (child1 & Hg1 & Hd1).
  eapply IH; eauto.
Qed.

Lemma cleanChild_requirements child :
  requirementsOrEmpty (cleanChild child) = requirementsOrEmpty child.
Proof.
  destruct child as [c [[|r l]|]]; reflexivity.
Qed.

Lemma sortChildren_NoDup children : NoDup (obj_keys (sortChildren children)).
Proof.
  unfold sortChildren.
  assert (H : forall keys (acc : obj ChildData),
             NoDup (obj_keys acc) ->
             NoDup (obj_keys
                      (fold_left
                         (fun (sortedChildren : obj ChildData) key =>
                            match obj_get key children with
                            | Some child =>
                                obj_set key (cleanChild child) sortedChildren
                            | None => sortedChildren
                            end) keys acc))).
  { induction keys as [|k keys IH]; intros acc Hacc; simpl; [exact Hacc|].
    apply IH. destruct (obj_get k children); [|exact Hacc].
    now apply obj_set_NoDup. }
  apply H. constructor.
Qed.

(** A settled relation, met again, leaves the state as it is. *)
Lemma settled_noop bees manualSet m core :
  settled bees manualSet m core ->
  exists skipped,
    processMutation bees manualSet core m = Some (core, skipped).
Proof.
  intros Hs. unfold processMutation.
  destruct (truthyStr (mut_parent1 m)) eqn:T1; cbn [negb orb]; [|eauto].
  destruct (truthyStr (mut_parent2 m)) eqn:T2; cbn [negb orb]; [|eauto].
  destruct (truthyStr (mut_offspring m)) eqn:T3; cbn [negb orb]; [|eauto].
  destruct (mut_parent1 m) as [p1|] eqn:E1; [|discriminate T1].
  destruct (mut_parent2 m) as [p2|] eqn:E2; [|discriminate T2].
  destruct (mut_offspring m) as [off|] eqn:E3; [|discriminate T3].
  destruct (set_has p1 bees) eqn:B1; cbn [negb orb]; [|eauto].
  destruct (set_has p2 bees) eqn:B2; cbn [negb orb]; [|eauto].
  destruct (set_has off bees) eqn:B3; cbn [negb orb]; [|eauto].
  destruct (manualHas (mk_base (mutationKeyOf p1 p2 off m)) manualSet) eqn:G3;
    [eauto|].
  destruct Hs as [Hg|(q1 & q2 & o & Hq1 & Hq2 & Ho & Hseen)].
  - unfold stoppedByGuard in Hg. rewrite E1, E2, E3, T1, T2, T3 in Hg.
    rewrite B1, B2, B3, G3 in Hg. discriminate Hg.
  - rewrite E1 in Hq1. rewrite E2 in Hq2. rewrite E3 in Ho.
    injection Hq1 as <-. injection Hq2 as <-. injection Ho as <-.
    rewrite Hseen. eauto.
Qed.

Section RequirementClaims.
Variable localeCompare : string -> string -> comparison.

Lemma repeated_relation_noop bees manual ms1 m ms2 ms3 :
  option_map fst
    (buildBreedingPairsJsonc localeCompare bees
       (ms1 ++ m :: ms2 ++ m :: ms3) manual)
  = option_map fst
      (buildBreedingPairsJsonc localeCompare bees
         (ms1 ++ m :: ms2 ++ ms3) manual).
Proof.
  rewrite !(build_groups_of_core localeCompare).
  set (manualSet := manualMutationSet manual).
  set (core0 := mkCore (seedGroups manual) []).
  rewrite !processAll_app.
  destruct (processAll bees manualSet core0 ms1) as [[c1 s1]|]; [|reflexivity].
  cbn [processAll].
  destruct (processMutation bees manualSet c1 m) as [[c2 s2]|] eqn:Em;
    [|reflexivity].
  rewrite !processAll_app.
  destruct (processAll bees manualSet c2 ms2) as [[c3 s3]|] eqn:E2;
    [|reflexivity].
  cbn [processAll].
  assert (Hs : settled bees manualSet m c3).
  { eapply settled_kept; [exact E2|]. eapply processMutation_settles; eauto. }
  destruct (settled_noop bees manualSet m c3 Hs) as [sk ->].
  destruct (processAll bees manualSet c3 ms3) as [[c4 s4]|]; reflexivity.
Qed.

(** C5, as the code has it. In every group of the output the offspring
    keys are distinct. Requirements are not compared structurally. A
    relation met again with the identity key of an earlier one (sorted
    parents, offspring, chance/100, serialized conditions) is dropped:
    the output is that of the run without the later occurrence. And for
    an offspring that an override group already lists, consolidation
    appends no requirement whose JSON text is that of one already in its
    list: when the override's own list has no two with the same text,
    neither has the list of the output. *)
Theorem offspring_unique_override_requirements_distinct
  bees mutations manual output skipped :
  buildBreedingPairsJsonc localeCompare bees mutations manual
  = Some (output, skipped) ->
  (forall g, In g output -> NoDup (obj_keys (group_children g))) /\
  (forall ms1 m ms2 ms3,
      mutations = ms1 ++ m :: ms2 ++ m :: ms3 ->
      option_map fst
        (buildBreedingPairsJsonc localeCompare bees
           (ms1 ++ m :: ms2 ++ ms3) manual)
      = Some output) /\
  (forall i g species child,
      nth_error manual i = Some g ->
      obj_get species (group_children g) = Some child ->
      distinctRequirements (requirementsOrEmpty child) ->
      exists g' child',
        nth_error output i = Some g' /\
        obj_get species (group_children g') = Some child' /\
        distinctRequirements (requirementsOrEmpty child')).
Proof.
  intros Hbuild.
  split; [|split].
  - unfold buildBreedingPairsJsonc in Hbuild.
    destruct (processAll bees (manualMutationSet manual)
                (mkCore (seedGroups manual) []) mutations) as [[core sk]|];
      [|discriminate].
    injection Hbuild as <- _.
    intros g Hg. apply in_map_iff in Hg. destruct Hg as (g0 & <- & _).
    apply sortChildren_NoDup.
  - intros ms1 m ms2 ms3 ->.
    rewrite <- repeated_relation_noop. now rewrite Hbuild.
  - unfold buildBreedingPairsJsonc in Hbuild.
    destruct (processAll bees (manualMutationSet manual)
                (mkCore (seedGroups manual) []) mutations) as [[core sk]|];
      [|discriminate].
    injection Hbuild as <- _.
    intros i g species child Hi Hg Hd.
    assert (Hlt : i < List.length manual) by (apply nth_error_Some; congruence).
    rewrite map_app, nth_error_app1 by (now rewrite !length_map).
    rewrite !map_map, nth_error_map, Hi. cbn [option_map].
    assert (Hm : exists child1,
               obj_get species
                 (group_children (mergeGroup (core_groups core) (sortParents g)))
               = Some child1 /\
               distinctRequirements (requirementsOrEmpty child1)).
    { unfold mergeGroup.
      destruct (obj_get (parentKeyOf (sortParents g)) (core_groups core))
        as [updated|]; cbn [group_children sortParents].
      - now apply mergeChildren_distinct with (child := child).
      - eauto. }
    destruct Hm as (child1 & Hg1 & Hd1).
    exists (cleanGroup (mergeGroup (core_groups core) (sortParents g))),
           (cleanChild child1).
    split; [reflexivity|]. split.
    + cbn [cleanGroup group_children]. rewrite sortChildren_get, Hg1. reflexivity.
    + now rewrite cleanChild_requirements.
Qed.

End RequirementClaims.

Lemma distinct_requirements_witness :
  buildBreedingPairsJsonc String.compare sampleRegistry [relationHell]
    overrideConditional
  = Some ([mkGroup ["t:x"; "t:y"]
             [("t:z", mkChild 0.2
                        (Some [[("temperature", VArr ["HOT"])];
                               [("biome", VArr ["Hell"]);
                                ("chance", VNum 0.05)]]))]], []) /\
  (forall g,
      In g [mkGroup ["t:x"; "t:y"]
              [("t:z", mkChild 0.2
                         (Some [[("temperature", VArr ["HOT"])];
                                [("biome", VArr ["Hell"]);
                                 ("chance", VNum 0.05)]]))]] ->
      NoDup (obj_keys (group_children g))).
Proof.
  assert (H : buildBreedingPairsJsonc String.compare sampleRegistry
                [relationHell] overrideConditional
              = Some ([mkGroup ["t:x"; "t:y"]
                         [("t:z", mkChild 0.2
                                    (Some [[("temperature", VArr ["HOT"])];
                                           [("biome", VArr ["Hell"]);
                                            ("chance", VNum 0.05)]]))]], []))
    by (vm_compute; reflexivity).
  split; [exact H|].
  exact (proj1 (offspring_unique_override_requirements_distinct String.compare
                  sampleRegistry [relationHell] overrideConditional _ _ H)).
Defined.

(** C5 as stated fails, for a new group and for an offspring the
    override lists. Two relations that differ only in a condition the
    loop body does not read pass the duplicate check and leave the same
    requirement twice in a new group. And a relation whose chance is not
    the override's, with the conditions of an override requirement, is
    appended to that requirement's list with its names in the order the
    loop body assigns them: the two differ as JSON text and are
    structurally identical. *)
Lemma identical_requirements_remain :
  (exists output skipped,
      buildBreedingPairsJsonc String.compare sampleRegistry
        [relationHellByNight; relationHellByDay] []
      = Some (output, skipped) /\
      ~ noIdenticalRequirements output) /\
  (exists output skipped,
      noIdenticalRequirements overrideHellHot /\
      buildBreedingPairsJsonc String.compare sampleRegistry
        [relationHotHell] overrideHellHot
      = Some (output, skipped) /\
      ~ noIdenticalRequirements output).
Proof.
  split.
  - exists [mkGroup ["t:x"; "t:y"]
              [("t:z", mkChild 0.2 (Some [[("biome", VArr ["Hell"])];
                                          [("biome", VArr ["Hell"])]]))]], [].
    split; [vm_compute; reflexivity|].
    intros H.
    specialize (H _ "t:z" _ (or_introl eq_refl) eq_refl).
    vm_compute in H. discriminate H.
  - exists [mkGroup ["t:x"; "t:y"]
              [("t:z", mkChild 0.2
                         (Some [[("biome", VArr ["Hell"]);
                                 ("temperature", VArr ["HOT"])];
                                [("temperature", VArr ["HOT"]);
                                 ("biome", VArr ["Hell"])]]))]], [].
    split; [|split; [vm_compute; reflexivity|]].
    + intros g species child [<-|[]] Hget. cbn [group_children] in Hget.
      cbn [obj_get] in Hget.
      destruct (String.eqb species "t:z"); [|discriminate].
      injection Hget as <-. reflexivity.
    + intros H.
      specialize (H _ "t:z" _ (or_introl eq_refl) eq_refl).
      vm_compute in H. discriminate H.
Qed.

(** ** Conditions the loop body does not read *)






(** ** The override index and [checkIfInManualMutations] *)

Lemma split_nonempty sep s : split sep s <> [].
Proof.
  destruct s as [|c s]; simpl; [discriminate|].
  destruct (Ascii.eqb c sep); [discriminate|].
  destruct (split sep s); discriminate.
Qed.

Lemma split_append_sep sep a b :
  split sep (a ++ String sep b)%string = split sep a ++ split sep b.
Proof.
  induction a as [|x a IH]; simpl.
  - now rewrite Ascii.eqb_refl.
  - destruct (Ascii.eqb x sep); [now rewrite IH|].
    rewrite IH. destruct (split sep a) as [|h t] eqn:E; [|reflexivity].
    now apply split_nonempty in E.
Qed.

Lemma split_clean s : cleanName s -> split "|" s = [s].
Proof.
  unfold cleanName. induction s as [|c s IH]; simpl; [reflexivity|].
  intros H. apply orb_false_iff in H. destruct H as [Hc Hs].
  rewrite Hc, (IH Hs). reflexivity.
Qed.

Lemma thirdPart_indexed g species c :
  (exists a b, group_parents g = [a; b] /\ cleanName a /\ cleanName b) ->
  cleanName species ->
  thirdPart (mkKey (parentKeyOf g) species c) = Some species.
Proof.
  intros (a & b & Hp & Ha & Hb) Hs. unfold thirdPart, parentKeyOf.
  cbn [key_parents key_species]. rewrite Hp, sort_pair.
  destruct (String.leb a b); cbn [join];
    change ("|" ++ ?x)%string with (String "|" x);
    rewrite split_append_sep, !split_clean by assumption; reflexivity.
Qed.

Lemma manualAdd_In k x set : In x (manualAdd k set) -> x = k \/ In x set.
Proof.
  unfold manualAdd. destruct (manualHas k set); [auto|].
  intros H. apply in_app_or in H. destruct H as [H|[<-|[]]]; auto.
Qed.

Lemma manualAdd_incl k x set : In x set -> In x (manualAdd k set).
Proof.
  unfold manualAdd. destruct (manualHas k set); [auto|].
  intros H. apply in_or_app. now left.
Qed.

Lemma manualAdd_holds k set :
  exists k', In k' (manualAdd k set) /\
             key_parents k' = key_parents k /\ key_species k' = key_species k.
Proof.
  unfold manualAdd. destruct (manualHas k set) eqn:E.
  - unfold manualHas in E. apply existsb_exists in E.
    destruct E as (k' & Hin & Heq). unfold baseKeyEqb in Heq.
    apply andb_true_iff in Heq. destruct Heq as [Heq _].
    apply andb_true_iff in Heq. destruct Heq as [Hp Hs].
    apply String.eqb_eq in Hp, Hs. exists k'. auto.
  - exists k. split; [|auto]. apply in_or_app. right. now left.
Qed.

(** Where the keys of the index come from. *)
Lemma manualMutationSet_origin manual k :
  In k (manualMutationSet manual) ->
  exists g species child r,
    In g manual /\ In (species, child) (group_children g) /\
    In r (requirementsOrEmpty child) /\
    k = mkKey (parentKeyOf g) species (effectiveChance r child).
Proof.
  unfold manualMutationSet.
  assert (Hreqs : forall pk species child reqs set,
             In k (fold_left
                     (fun (set : list BaseKey) requirement =>
                        manualAdd (mkKey pk species
                                     (effectiveChance requirement child)) set)
                     reqs set) ->
             In k set \/
             exists r, In r reqs /\ k = mkKey pk species (effectiveChance r child)).
  { induction reqs as [|r reqs IH]; intros set; simpl; [auto|].
    intros H. apply IH in H. destruct H as [H|(r' & Hr' & ->)]; [|eauto].
    apply manualAdd_In in H. destruct H as [->|H]; eauto. }
  assert (Hgroup : forall g entries set,
             In k (fold_left
                     (fun (set : list BaseKey) (entry : string * ChildData) =>
                        let '(species, childData) := entry in
                        fold_left
                          (fun (set : list BaseKey) requirement =>
                             manualAdd
                               (mkKey (parentKeyOf g) species
                                  (effectiveChance requirement childData)) set)
                          (requirementsOrEmpty childData) set)
                     entries set) ->
             In k set \/
             exists species child r,
               In (species, child) entries /\ In r (requirementsOrEmpty child) /\
               k = mkKey (parentKeyOf g) species (effectiveChance r child)).
  { induction entries as [|[species child] entries IH]; intros set; simpl; [auto|].
    intros H. apply IH in H.
    destruct H as [H|(s & c & r & Hin & Hr & ->)]; [|eauto 8].
    apply Hreqs in H. destruct H as [H|(r & Hr & ->)]; eauto 8. }
  assert (Hall : forall groups set,
             In k (fold_left indexGroup groups set) ->
             In k set \/
             exists g species child r,
               In g groups /\ In (species, child) (group_children g) /\
               In r (requirementsOrEmpty child) /\
               k = mkKey (parentKeyOf g) species (effectiveChance r child)).
  { induction groups as [|g groups IH]; intros set; simpl; [auto|].
    intros H. apply IH in H.
    destruct H as [H|(g' & s & c & r & Hg & Hin & Hr & ->)]; [|eauto 10].
    apply Hgroup in H. destruct H as [H|(s & c & r & Hin & Hr & ->)]; eauto 10. }
  intros H. apply Hall in H. destruct H as [[]|H]. exact H.
Qed.

(** Every requirement of every override child puts a key in the index. *)
Lemma manualMutationSet_holds manual g species child r :
  In g manual -> In (species, child) (group_children g) ->
  In r (requirementsOrEmpty child) ->
  exists k, In k (manualMutationSet manual) /\
            key_parents k = parentKeyOf g /\ key_species k = species.
Proof.
  intros Hg0 Hin0 Hr0. unfold manualMutationSet.
  set (Q := fun (pk sp : string) (set : list BaseKey) =>
              exists k, In k set /\ key_parents k = pk /\ key_species k = sp).
  assert (Hmono_reqs : forall pk sp pk' sp' child' reqs set,
             Q pk sp set ->
             Q pk sp (fold_left
                        (fun (set : list BaseKey) requirement =>
                           manualAdd (mkKey pk' sp'
                                        (effectiveChance requirement child')) set)
                        reqs set)).
  { induction reqs as [|r' reqs IH]; intros set HQ; simpl; [exact HQ|].
    apply IH. destruct HQ as (k & Hin & Hp & Hs).
    exists k. split; [now apply manualAdd_incl|auto]. }
  assert (Hreqs : forall pk sp child' reqs set,
             In r reqs ->
             Q pk sp (fold_left
                        (fun (set : list BaseKey) requirement =>
                           manualAdd (mkKey pk sp
                                        (effectiveChance requirement child')) set)
                        reqs set)).
  { induction reqs as [|r' reqs IH]; intros set Hin; simpl; [destruct Hin|].
    destruct Hin as [->|Hin]; [|now apply IH].
    apply Hmono_reqs.
    destruct (manualAdd_holds (mkKey pk sp (effectiveChance r child')) set)
      as (k & Hk & Hp & Hs). exists k. auto. }
  assert (Hmono_group : forall pk sp g' entries set,
             Q pk sp set ->
             Q pk sp (fold_left
                        (fun (set : list BaseKey) (entry : string * ChildData) =>
                           let '(species, childData) := entry in
                           fold_left
                             (fun (set : list BaseKey) requirement =>
                                manualAdd
                                  (mkKey (parentKeyOf g') species
                                     (effectiveChance requirement childData)) set)
                             (requirementsOrEmpty childData) set)
                        entries set)).
  { induction entries as [|[s c] entries IH]; intros set HQ; simpl; [exact HQ|].
    apply IH. now apply Hmono_reqs. }
  assert (Hgroup : forall entries set,
             In (species, child) entries ->
             Q (parentKeyOf g) species
               (fold_left
                  (fun (set : list BaseKey) (entry : string * ChildData) =>
                     let '(species, childData) := entry in
                     fold_left
                       (fun (set : list BaseKey) requirement =>
                          manualAdd
                            (mkKey (parentKeyOf g) species
                               (effectiveChance requirement childData)) set)
                       (requirementsOrEmpty childData) set)
                  entries set)).
  { induction entries as [|[s c] entries IH]; intros set Hin; simpl;
      [destruct Hin|].
    destruct Hin as [Heq|Hin]; [|now apply IH].
    injection Heq as -> ->. apply Hmono_group. now apply Hreqs. }
  assert (Hmono_all : forall pk sp groups set,
             Q pk sp set -> Q pk sp (fold_left indexGroup groups set)).
  { induction groups as [|g' groups IH]; intros set HQ; simpl; [exact HQ|].
    apply IH. unfold indexGroup. now apply Hmono_group. }
  revert Hg0. generalize (@nil BaseKey) as set.
  induction manual as [|g' manual IH]; intros set Hg; simpl; [destruct Hg|].
  destruct Hg as [->|Hg]; [|now apply IH].
  apply Hmono_all. unfold indexGroup. now apply Hgroup.
Qed.

Lemma checkIfInManualMutations_true manual m :
  wellFormedOverride manual ->
  checkIfInManualMutations m (manualMutationSet manual) = true ->
  exists g species,
    In g manual /\ In species (obj_keys (group_children g)) /\
    tryResolve (mut_offspring m) = Some species.
Proof.
  intros Hwf. unfold checkIfInManualMutations.
  destruct (tryResolve (mut_offspring m)) as [offspring|]; [|discriminate].
  intros H. apply existsb_exists in H. destruct H as (k & Hk & Heq).
  apply manualMutationSet_origin in Hk.
  destruct Hk as (g & species & child & r & Hg & Hin & _ & ->).
  assert (Hkeys : In species (obj_keys (group_children g))).
  { apply (in_map fst) in Hin. exact Hin. }
  destruct (Hwf g Hg) as [Hp Hs].
  rewrite (thirdPart_indexed g species _ Hp (Hs species Hkeys)) in Heq.
  apply String.eqb_eq in Heq. subst offspring. eauto.
Qed.

Lemma checkIfInManualMutations_conditional manual m g species child r :
  wellFormedOverride manual ->
  In g manual -> In (species, child) (group_children g) ->
  In r (requirementsOrEmpty child) ->
  tryResolve (mut_offspring m) = Some species ->
  checkIfInManualMutations m (manualMutationSet manual) = true.
Proof.
  intros Hwf Hg Hin Hr Ht. unfold checkIfInManualMutations. rewrite Ht.
  destruct (manualMutationSet_holds manual g species child r Hg Hin Hr)
    as (k & Hk & Hp & Hs).
  apply existsb_exists. exists k. split; [exact Hk|].
  assert (Hkeys : In species (obj_keys (group_children g))).
  { apply (in_map fst) in Hin. exact Hin. }
  destruct (Hwf g Hg) as [Hpar Hsp].
  assert (Hthird := thirdPart_indexed g species (key_chance k) Hpar
                      (Hsp species Hkeys)).
  unfold thirdPart in *. cbn [key_parents key_species] in Hthird.
  rewrite Hp, Hs, Hthird. apply String.eqb_refl.
Qed.

(** C6, as the code has it. A relation with a null parent or offspring,
    or with one that is no key of the registry, never makes the loop body
    throw: the state is left as it is and one diagnostic is recorded for
    its offspring. Its [inManual] is [false] when a parent or the
    offspring is null; otherwise it is [true] only if some override entry
    has the normalized offspring as its key, and it is [true] whenever
    such an entry carries a requirement. *)
Theorem unresolved_relation_skipped bees manual core m :
  wellFormedOverride manual ->
  unresolved bees m = true ->
  exists inManual,
    processMutation bees (manualMutationSet manual) core m
    = Some (core, [mkSkipped (mut_offspring m) inManual]) /\
    (nullish m = true -> inManual = false) /\
    (inManual = true ->
     exists g species,
       In g manual /\ In species (obj_keys (group_children g)) /\
       tryResolve (mut_offspring m) = Some species) /\
    (nullish m = false ->
     forall g species child r,
       In g manual -> In (species, child) (group_children g) ->
       In r (requirementsOrEmpty child) ->
       tryResolve (mut_offspring m) = Some species ->
       inManual = true).
Proof.
  intros Hwf Hu. unfold unresolved in Hu. unfold processMutation.
  fold (nullish m).
  destruct (nullish m) eqn:Hn.
  - exists false. split; [reflexivity|]. split; [reflexivity|].
    split; discriminate.
  - cbn [orb] in Hu.
    destruct (mut_parent1 m) as [p1|] eqn:E1;
      [|unfold nullish in Hn; rewrite E1 in Hn; discriminate Hn].
    destruct (mut_parent2 m) as [p2|] eqn:E2;
      [|unfold nullish in Hn; rewrite E2 in Hn; cbn in Hn;
        rewrite orb_true_r in Hn; discriminate Hn].
    destruct (mut_offspring m) as [off|] eqn:Eo;
      [|unfold nullish in Hn; rewrite Eo in Hn; cbn in Hn;
        rewrite orb_true_r in Hn; discriminate Hn].
    rewrite Hu.
    exists (checkIfInManualMutations m (manualMutationSet manual)).
    split; [reflexivity|]. split; [discriminate|]. split.
    + intros H. rewrite <- Eo. now apply checkIfInManualMutations_true.
    + intros _ g species child r Hg Hin Hr Ht.
      apply (checkIfInManualMutations_conditional manual m g species child r);
        auto. now rewrite Eo.
Qed.

Lemma overrideConditional_wellFormed : wellFormedOverride overrideConditional.
Proof.
  intros g [<-|[]]. split.
  - exists "t:y", "t:x". repeat split; reflexivity.
  - intros species [<-|[]]. reflexivity.
Qed.

Lemma unresolved_relation_skipped_witness :
  wellFormedOverride overrideConditional /\
  unresolved sampleRegistry relationNullParent = true /\
  exists inManual,
    processMutation sampleRegistry (manualMutationSet overrideConditional)
      (mkCore (seedGroups overrideConditional) []) relationNullParent
    = Some (mkCore (seedGroups overrideConditional) [],
            [mkSkipped (Some "t:z") inManual]) /\
    (nullish relationNullParent = true -> inManual = false).
Proof.
  split; [exact overrideConditional_wellFormed|]. split; [reflexivity|].
  destruct (unresolved_relation_skipped sampleRegistry overrideConditional
              (mkCore (seedGroups overrideConditional) []) relationNullParent
              overrideConditional_wellFormed eq_refl)
    as (inManual & Hrun & Hnull & _).
  exists inManual. split; [exact Hrun|exact Hnull].
Defined.

(** C6 as stated fails for a relation with a null parent: the override
    lists its offspring, and the code's own lookup finds it, yet the
    diagnostic says [inManual = false]. *)
Lemma null_parent_reported_not_in_manual :
  buildBreedingPairsJsonc String.compare sampleRegistry [relationNullParent]
    overrideConditional
  = Some ([mkGroup ["t:x"; "t:y"]
             [("t:z", mkChild 0.2 (Some [[("temperature", VArr ["HOT"])]]))]],
          [mkSkipped (Some "t:z") false]) /\
  tryResolve (mut_offspring relationNullParent) = Some "t:z" /\
  checkIfInManualMutations relationNullParent
    (manualMutationSet overrideConditional) = true.
Proof. repeat split; vm_compute; reflexivity. Qed.

(* ================================================================== *)
(** * More about the output builder *)
(* ================================================================== *)

(** ** When the loop body cannot throw *)

Lemma obj_values_In {V} (o : obj V) v :
  In v (obj_values o) <-> exists k, In (k, v) o.
Proof.
  unfold obj_values. rewrite in_map_iff. split.
  - intros ([k v'] & <- & H). eauto.
  - intros (k & H). exists (k, v). auto.
Qed.

Lemma seedGroups_from manual key g :
  In (key, g) (seedGroups manual) ->
  exists g0, In g0 manual /\ g = sortParents g0 /\ key = parentKeyOf g0.
Proof.
  unfold seedGroups.
  assert (H : forall l acc,
             In (key, g)
                (fold_left
                   (fun (groups : obj Group) group =>
                      obj_set (parentKeyOf group) (sortParents group) groups)
                   l acc) ->
             In (key, g) acc \/
             exists g0, In g0 l /\ g = sortParents g0 /\ key = parentKeyOf g0).
  { induction l as [|g1 l IH]; intros acc; simpl; [auto|].
    intros Hin. apply IH in Hin. destruct Hin as [Hin|(g0 & H0 & H1 & H2)].
    - apply obj_set_In in Hin. destruct Hin as [Heq|Hin]; [|auto].
      injection Heq as -> ->. right. exists g1. auto.
    - right. exists g0. auto. }
  intros Hin. apply H in Hin. destruct Hin as [[]|Hin]. exact Hin.
Qed.

Lemma addToGroups_listed groups p1 p2 off chance conditions :
  requirementsListed (obj_values groups) ->
  exists groups',
    addToGroups groups p1 p2 off chance conditions = Some groups' /\
    requirementsListed (obj_values groups').
Proof.
  intros Hl. unfold addToGroups.
  set (group := match obj_get (pairKey p1 p2) groups with
                | Some g => g
                | None => mkGroup (sort [p1; p2]) []
                end).
  set (child := match obj_get off (group_children group) with
                | Some c => c
                | None => mkChild chance (Some [])
                end).
  assert (Hgroup : forall s c, In (s, c) (group_children group) ->
                               child_requirements c <> None).
  { intros s c Hin. subst group.
    destruct (obj_get (pairKey p1 p2) groups) as [g|] eqn:E; [|destruct Hin].
    apply (Hl g s c); [|exact Hin]. eapply obj_get_values; eauto. }
  assert (Hchild : child_requirements child <> None).
  { subst child.
    destruct (obj_get off (group_children group)) as [c|] eqn:E.
    - apply (Hgroup off c). now apply obj_get_In.
    - discriminate. }
  assert (Hstore : forall c, child_requirements c <> None ->
             requirementsListed
               (obj_values
                  (obj_set (pairKey p1 p2)
                     (mkGroup (group_parents group)
                        (obj_set off c (group_children group))) groups))).
  { intros c Hc g s c' Hg Hin. apply obj_values_In in Hg.
    destruct Hg as (k & Hk). apply obj_set_In in Hk.
    destruct Hk as [Heq|Hk].
    - injection Heq as _ Hg'. subst g. cbn [group_children] in Hin.
      apply obj_set_In in Hin. destruct Hin as [Heq|Hin].
      + injection Heq as _ Hc'. now subst c'.
      + eauto.
    - apply (Hl g s c'); [|exact Hin]. apply obj_values_In. eauto. }
  destruct (if differs chance (child_chance child)
            then conditionEntry conditions ++ [("chance", VNum chance)]
            else conditionEntry conditions) as [|e entry] eqn:Ee.
  - eexists. split; [reflexivity|]. now apply Hstore.
  - destruct (child_requirements child) as [reqs|] eqn:Er; [|contradiction].
    eexists. split; [reflexivity|]. apply Hstore. discriminate.
Qed.

Lemma processMutation_listed bees manualSet core m :
  requirementsListed (obj_values (core_groups core)) ->
  exists core' skipped,
    processMutation bees manualSet core m = Some (core', skipped) /\
    requirementsListed (obj_values (core_groups core')).
Proof.
  intros Hl. unfold processMutation.
  destruct (negb (truthyStr (mut_parent1 m)) || negb (truthyStr (mut_parent2 m))
            || negb (truthyStr (mut_offspring m))); [eauto|].
  destruct (mut_parent1 m) as [p1|]; [|eauto].
  destruct (mut_parent2 m) as [p2|]; [|eauto].
  destruct (mut_offspring m) as [off|]; [|eauto].
  destruct (negb (set_has p1 bees) || negb (set_has p2 bees)
            || negb (set_has off bees)); [eauto|].
  destruct (manualHas _ manualSet); [eauto|].
  destruct (seenHas _ (core_seen core)); [eauto|].
  destruct (addToGroups_listed (core_groups core) p1 p2 off
              (normalizedChance m) (mut_conditions m) Hl) as (groups' & -> & Hl').
  eauto.
Qed.

Lemma processAll_listed bees manualSet mutations : forall core,
  requirementsListed (obj_values (core_groups core)) ->
  exists core' skipped,
    processAll bees manualSet core mutations = Some (core', skipped).
Proof.
  induction mutations as [|m mutations IH]; intros core Hl; simpl; [eauto|].
  destruct (processMutation_listed bees manualSet core m Hl)
    as (core1 & sk1 & -> & Hl1).
  destruct (IH core1 Hl1) as (core2 & sk2 & ->). eauto.
Qed.

Section BuilderTotal.
Variable localeCompare : string -> string -> comparison.

(** X1. When every child of the override set carries a [requirements]
    array (in particular when there is no override set), the builder
    returns for every registry and every list of relations. *)
Theorem builder_returns_when_requirements_listed bees mutations manual :
  requirementsListed manual ->
  exists output skipped,
    buildBreedingPairsJsonc localeCompare bees mutations manual
    = Some (output, skipped).
Proof.
  intros Hl. unfold buildBreedingPairsJsonc.
  destruct (processAll_listed bees (manualMutationSet manual) mutations
              (mkCore (seedGroups manual) [])) as (core & sk & ->).
  - intros g s c Hg Hin. cbn [core_groups] in Hg. apply obj_values_In in Hg.
    destruct Hg as (k & Hk). apply seedGroups_from in Hk.
    destruct Hk as (g0 & Hg0 & -> & _). eapply Hl; eauto.
  - eauto.
Qed.

End BuilderTotal.

Lemma overrideEmptyList_listed : requirementsListed overrideEmptyList.
Proof.
  intros g s c [<-|[]] [Heq|[]]. injection Heq as _ <-. discriminate.
Qed.

Lemma builder_returns_when_requirements_listed_witness :
  requirementsListed overrideEmptyList /\
  exists output skipped,
    buildBreedingPairsJsonc String.compare sampleRegistry
      [relationXY; relationHell] overrideEmptyList
    = Some (output, skipped).
Proof.
  split; [exact overrideEmptyList_listed|].
  exact (builder_returns_when_requirements_listed String.compare sampleRegistry
           [relationXY; relationHell] overrideEmptyList overrideEmptyList_listed).
Defined.

(** ** The diagnostics *)

Lemma processMutation_diagnostic bees manualSet core m core' skipped :
  processMutation bees manualSet core m = Some (core', skipped) ->
  skipped = if stoppedByGuard bees manualSet m
            then [diagnosticOf bees manualSet m] else [].
Proof.
  unfold processMutation, stoppedByGuard, diagnosticOf, unresolved.
  fold (nullish m). destruct (nullish m) eqn:Hn.
  - intros [= _ <-].
    destruct (mut_parent1 m), (mut_parent2 m), (mut_offspring m);
      rewrite ?orb_true_l; reflexivity.
  - unfold nullish in Hn.
    destruct (mut_parent1 m) as [p1|]; [|discriminate Hn].
    destruct (mut_parent2 m) as [p2|];
      [|cbn in Hn; rewrite orb_true_r in Hn; discriminate Hn].
    destruct (mut_offspring m) as [off|];
      [|cbn in Hn; rewrite orb_true_r in Hn; discriminate Hn].
    cbn [orb].
    destruct (negb (set_has p1 bees) || negb (set_has p2 bees)
              || negb (set_has off bees)); cbn [orb].
    + now intros [= _ <-].
    + destruct (manualHas _ manualSet); [now intros [= _ <-]|].
      destruct (seenHas _ (core_seen core)); [now intros [= _ <-]|].
      destruct (addToGroups _ _ _ _ _ _); [now intros [= _ <-]|discriminate].
Qed.

Lemma processAll_diagnostics bees manualSet mutations :
  forall core core' skipped,
    processAll bees manualSet core mutations = Some (core', skipped) ->
    skipped = map (diagnosticOf bees manualSet)
                (filter (stoppedByGuard bees manualSet) mutations).
Proof.
  induction mutations as [|m mutations IH]; intros core core' skipped H;
    simpl in H.
  - now injection H as _ <-.
  - destruct (processMutation bees manualSet core m) as [[c1 s1]|] eqn:E1;
      [|discriminate].
    destruct (processAll bees manualSet c1 mutations) as [[c2 s2]|] eqn:E2;
      [|discriminate].
    injection H as _ <-.
    rewrite (processMutation_diagnostic _ _ _ _ _ _ E1), (IH _ _ _ E2).
    simpl. now destruct (stoppedByGuard bees manualSet m).
Qed.

Section Diagnostics.
Variable localeCompare : string -> string -> comparison.

(** X2. The skip diagnostics are exactly the relations stopped by one of
    the three guards (a null identifier, an identifier missing from the
    registry, a key of the override index), one entry each, in the order
    of the input. A relation dropped as a duplicate within the run leaves
    no entry. *)
Theorem diagnostics_list_stopped_relations
  bees mutations manual output skipped :
  buildBreedingPairsJsonc localeCompare bees mutations manual
  = Some (output, skipped) ->
  skipped = map (diagnosticOf bees (manualMutationSet manual))
              (filter (stoppedByGuard bees (manualMutationSet manual))
                      mutations).
Proof.
  unfold buildBreedingPairsJsonc.
  destruct (processAll bees (manualMutationSet manual)
              (mkCore (seedGroups manual) []) mutations)
    as [[core sk]|] eqn:E; [|discriminate].
  intros [= _ <-]. eapply processAll_diagnostics; eauto.
Qed.

End Diagnostics.

Lemma diagnostics_list_stopped_relations_witness :
  buildBreedingPairsJsonc String.compare sampleRegistry
    [relationNullParent; relationXY; relationXY; relationHell]
    overrideConditional
  = Some ([mkGroup ["t:x"; "t:y"]
             [("t:z", mkChild 0.2
                        (Some [[("temperature", VArr ["HOT"])];
                               [("biome", VArr ["Hell"]);
                                ("chance", VNum 0.05)]]))]],
          [mkSkipped (Some "t:z") false; mkSkipped (Some "t:z") true;
           mkSkipped (Some "t:z") true]) /\
  [mkSkipped (Some "t:z") false; mkSkipped (Some "t:z") true;
   mkSkipped (Some "t:z") true]
  = map (diagnosticOf sampleRegistry (manualMutationSet overrideConditional))
      (filter (stoppedByGuard sampleRegistry
                 (manualMutationSet overrideConditional))
         [relationNullParent; relationXY; relationXY; relationHell]).
Proof.
  assert (H : buildBreedingPairsJsonc String.compare sampleRegistry
                [relationNullParent; relationXY; relationXY; relationHell]
                overrideConditional
              = Some ([mkGroup ["t:x"; "t:y"]
                         [("t:z", mkChild 0.2
                                    (Some [[("temperature", VArr ["HOT"])];
                                           [("biome", VArr ["Hell"]);
                                            ("chance", VNum 0.05)]]))]],
                      [mkSkipped (Some "t:z") false;
                       mkSkipped (Some "t:z") true;
                       mkSkipped (Some "t:z") true]))
    by (vm_compute; reflexivity).
  split; [exact H|].
  exact (diagnostics_list_stopped_relations String.compare _ _ _ _ _ H).
Defined.

(** ** A run that adds nothing *)

Lemma obj_set_same_id {V} (o : obj V) k v :
  obj_get k o = Some v -> obj_set k v o = o.
Proof.
  induction o as [|[k' v'] o IH]; simpl; [discriminate|].
  destruct (String.eqb k k') eqn:E.
  - apply String.eqb_eq in E. subst k'. now intros [= ->].
  - intros H. now rewrite IH.
Qed.

Lemma cvalueJsonEqb_refl v : cvalueJsonEqb v v = true.
Proof.
  destruct v as [s|x|b|l|f]; simpl.
  - apply String.eqb_refl.
  - apply sameJsonNumber_refl.
  - now destruct b.
  - apply list_eqb_refl, String.eqb_refl.
  - apply list_eqb_refl. intros [k x]. simpl.
    now rewrite String.eqb_refl, sameJsonNumber_refl.
Qed.

Lemma requirementJsonEqb_refl r : requirementJsonEqb r r = true.
Proof.
  apply list_eqb_refl. intros [k v]. simpl.
  now rewrite String.eqb_refl, cvalueJsonEqb_refl.
Qed.

Lemma mergeRequirement_present child r :
  In r (requirementsOrEmpty child) -> mergeRequirement child r = child.
Proof.
  intros H. unfold mergeRequirement.
  assert (E : existsb (fun existing => requirementJsonEqb existing r)
                (requirementsOrEmpty child) = true).
  { apply existsb_exists. exists r. split; [exact H|].
    apply requirementJsonEqb_refl. }
  now rewrite E.
Qed.

Lemma mergeRequirements_present child l :
  incl l (requirementsOrEmpty child) ->
  fold_left mergeRequirement l child = child.
Proof.
  induction l as [|r l IH]; intros H; simpl; [reflexivity|].
  rewrite mergeRequirement_present by (apply H; now left).
  apply IH. intros x Hx. apply H. now right.
Qed.

Lemma mergeChildren_self children l :
  NoDup (obj_keys children) -> incl l children ->
  fold_left mergeChild l children = children.
Proof.
  intros Hnd. induction l as [|[species child] l IH]; intros H; simpl;
    [reflexivity|].
  assert (Hg : obj_get species children = Some child).
  { apply obj_get_NoDup; [exact Hnd|]. apply H. now left. }
  rewrite Hg, mergeRequirements_present by apply incl_refl.
  rewrite obj_set_same_id by exact Hg.
  apply IH. intros x Hx. apply H. now right.
Qed.

Lemma processMutation_stopped bees manualSet core m :
  stoppedByGuard bees manualSet m = true ->
  processMutation bees manualSet core m
  = Some (core, [diagnosticOf bees manualSet m]).
Proof.
  unfold processMutation, stoppedByGuard, diagnosticOf, unresolved.
  fold (nullish m). unfold nullish.
  destruct (mut_parent1 m) as [p1|]; [|reflexivity].
  destruct (mut_parent2 m) as [p2|];
    [|cbn; now rewrite orb_true_r].
  destruct (mut_offspring m) as [off|];
    [|cbn; now rewrite orb_true_r].
  destruct (negb (truthyStr (Some p1)) || negb (truthyStr (Some p2))
            || negb (truthyStr (Some off))); [reflexivity|].
  cbn [orb].
  destruct (negb (set_has p1 bees) || negb (set_has p2 bees)
            || negb (set_has off bees)); [reflexivity|].
  cbn [orb]. now intros ->.
Qed.

Lemma processAll_stopped bees manualSet core mutations :
  forallb (stoppedByGuard bees manualSet) mutations = true ->
  processAll bees manualSet core mutations
  = Some (core, map (diagnosticOf bees manualSet) mutations).
Proof.
  induction mutations as [|m mutations IH]; simpl; [reflexivity|].
  intros H. apply andb_true_iff in H as [Hm Hrest].
  now rewrite processMutation_stopped, IH.
Qed.

Lemma seedGroups_get manual g :
  NoDup (map parentKeyOf manual) -> In g manual ->
  obj_get (parentKeyOf g) (seedGroups manual) = Some (sortParents g).
Proof.
  unfold seedGroups.
  set (step := fun (groups : obj Group) group =>
                 obj_set (parentKeyOf group) (sortParents group) groups).
  assert (Hother : forall l acc k,
             ~ In k (map parentKeyOf l) ->
             obj_get k (fold_left step l acc) = obj_get k acc).
  { induction l as [|g1 l IH]; intros acc k Hk; simpl; [reflexivity|].
    rewrite IH by (intros Hin; apply Hk; now right).
    unfold step. apply obj_get_set_other.
    intros ->. apply Hk. now left. }
  generalize (@nil (string * Group)) as acc.
  induction manual as [|g1 manual IH]; intros acc Hnd Hin; [destruct Hin|].
  inversion Hnd as [|? ? Hnotin Hnd']; subst. simpl.
  destruct Hin as [->|Hin].
  - rewrite Hother by exact Hnotin. unfold step. apply obj_get_set_same.
  - now apply IH.
Qed.

Lemma filter_none {A} (f : A -> bool) l :
  (forall x, In x l -> f x = false) -> filter f l = [].
Proof.
  induction l as [|x l IH]; intros H; simpl; [reflexivity|].
  rewrite (H x) by now left. apply IH. intros y Hy. apply H. now right.
Qed.

Lemma parentKeyOf_sortParents g : parentKeyOf (sortParents g) = parentKeyOf g.
Proof. unfold parentKeyOf, sortParents. simpl. now rewrite sort_idempotent. Qed.

Lemma sortParents_idem g : sortParents (sortParents g) = sortParents g.
Proof. unfold sortParents. simpl. now rewrite sort_idempotent. Qed.

Lemma wasManual_sorted manual g :
  In g manual -> wasManual (map sortParents manual) (sortParents g) = true.
Proof.
  intros H. unfold wasManual. apply existsb_exists.
  exists (sortParents g). split; [now apply in_map|apply String.eqb_refl].
Qed.

Lemma mergeGroup_self manual g :
  distinctPairs manual -> In g manual ->
  mergeGroup (seedGroups manual) (sortParents g) = sortParents g.
Proof.
  intros [Hkeys Hchildren] Hin. unfold mergeGroup.
  rewrite parentKeyOf_sortParents, seedGroups_get by assumption.
  unfold sortParents. cbn [group_parents group_children].
  rewrite sort_idempotent, mergeChildren_self;
    [reflexivity|now apply Hchildren|apply incl_refl].
Qed.

Section NothingAdded.
Variable localeCompare : string -> string -> comparison.

(** X3. When every extracted relation is stopped by a guard (in
    particular when none is given) and no two override groups list the
    same pair, the output is the override file itself, group by group in
    file order, with parents sorted, children sorted and empty
    requirement arrays removed; every relation is reported. *)
Theorem overrides_alone_are_output_unchanged bees mutations manual :
  distinctPairs manual ->
  forallb (stoppedByGuard bees (manualMutationSet manual)) mutations = true ->
  buildBreedingPairsJsonc localeCompare bees mutations manual
  = Some (map (fun g => cleanGroup (sortParents g)) manual,
          map (diagnosticOf bees (manualMutationSet manual)) mutations).
Proof.
  intros Hd Hstopped. unfold buildBreedingPairsJsonc.
  rewrite processAll_stopped by exact Hstopped.
  cbn [core_groups].
  rewrite (filter_none _ (map sortParents (obj_values (seedGroups manual)))).
  - cbn [sortBy fold_right]. rewrite app_nil_r, !map_map.
    f_equal. f_equal. apply map_ext_in. intros g Hg.
    now rewrite mergeGroup_self.
  - intros g Hg. apply in_map_iff in Hg as (g1 & <- & Hg1).
    apply obj_values_In in Hg1 as (key & Hkey).
    apply seedGroups_from in Hkey as (g0 & Hg0 & -> & _).
    rewrite sortParents_idem, wasManual_sorted by exact Hg0. reflexivity.
Qed.

End NothingAdded.

Lemma overrideConditional_distinctPairs : distinctPairs overrideConditional.
Proof.
  split.
  - repeat constructor. simpl. tauto.
  - intros g [<-|[]]. repeat constructor. simpl. tauto.
Qed.

Lemma overrides_alone_are_output_unchanged_witness :
  buildBreedingPairsJsonc String.compare sampleRegistry
    [relationNullParent; relationXY] overrideConditional
  = Some (map (fun g => cleanGroup (sortParents g)) overrideConditional,
          map (diagnosticOf sampleRegistry
                 (manualMutationSet overrideConditional))
              [relationNullParent; relationXY]).
Proof.
  apply (overrides_alone_are_output_unchanged String.compare sampleRegistry
           [relationNullParent; relationXY] overrideConditional).
  - exact overrideConditional_distinctPairs.
  - vm_compute. reflexivity.
Defined.

(** ** What becomes of an override entry *)

Lemma keepsEntry_refl child : keepsEntry child child.
Proof. split; [reflexivity|]. exists []. now rewrite app_nil_r. Qed.

Lemma keepsEntry_trans a b c : keepsEntry a b -> keepsEntry b c -> keepsEntry a c.
Proof.
  intros [H1 [l1 E1]] [H2 [l2 E2]]. split; [congruence|].
  exists (l1 ++ l2). now rewrite E2, E1, app_assoc.
Qed.

Lemma mergeRequirement_keeps child r : keepsEntry child (mergeRequirement child r).
Proof.
  unfold mergeRequirement.
  destruct (existsb _ _); [apply keepsEntry_refl|].
  split; [reflexivity|]. now exists [r].
Qed.

Lemma mergeRequirements_keeps l : forall child,
  keepsEntry child (fold_left mergeRequirement l child).
Proof.
  induction l as [|r l IH]; intros child; simpl; [apply keepsEntry_refl|].
  eapply keepsEntry_trans; [apply mergeRequirement_keeps|apply IH].
Qed.

Lemma mergeChild_keeps children entry species child :
  obj_get species children = Some child ->
  exists child', obj_get species (mergeChild children entry) = Some child' /\
                 keepsEntry child child'.
Proof.
  intros Hg. destruct entry as [sp cd]. unfold mergeChild.
  destruct (String.eqb species sp) eqn:E.
  - apply String.eqb_eq in E. subst sp. rewrite Hg.
    rewrite obj_get_set_same. eexists. split; [reflexivity|].
    apply mergeRequirements_keeps.
  - apply String.eqb_neq in E. exists child. split; [|apply keepsEntry_refl].
    destruct (obj_get sp children);
      [|destruct (child_requirements cd) as [[|? ?]|]];
      now rewrite obj_get_set_other.
Qed.

Lemma mergeChildren_keeps l : forall children species child,
  obj_get species children = Some child ->
  exists child', obj_get species (fold_left mergeChild l children) = Some child' /\
                 keepsEntry child child'.
Proof.
  induction l as [|entry l IH]; intros children species child Hg; simpl.
  - exists child. split; [exact Hg|apply keepsEntry_refl].
  - destruct (mergeChild_keeps children entry species child Hg)
      as (c1 & Hg1 & Hk1).
    destruct (IH _ _ _ Hg1) as (c2 & Hg2 & Hk2).
    exists c2. split; [exact Hg2|]. eapply keepsEntry_trans; eauto.
Qed.

Lemma cleanChild_keeps child : keepsEntry child (cleanChild child).
Proof.
  split.
  - destruct child as [c [[|r l]|]]; reflexivity.
  - exists []. now rewrite cleanChild_requirements, app_nil_r.
Qed.

Lemma mergeGroup_keeps mutationGroups g species child :
  obj_get species (group_children g) = Some child ->
  group_parents (mergeGroup mutationGroups (sortParents g))
  = sort (group_parents g) /\
  exists child',
    obj_get species
      (group_children (mergeGroup mutationGroups (sortParents g)))
    = Some child' /\ keepsEntry child child'.
Proof.
  intros Hg. unfold mergeGroup.
  destruct (obj_get (parentKeyOf (sortParents g)) mutationGroups)
    as [updatedGroup|].
  - cbn [group_parents group_children sortParents].
    split; [apply sort_idempotent|]. now apply mergeChildren_keeps.
  - rewrite sortParents_idem. cbn [group_parents group_children sortParents].
    split; [reflexivity|]. exists child. split; [exact Hg|apply keepsEntry_refl].
Qed.

Section OverrideKept.
Variable localeCompare : string -> string -> comparison.

(** X4. The override file takes precedence: the group at position [i] of
    the override file is the group at position [i] of the output, with
    its parents sorted, and each of its children is still there with the
    default chance it had and its own requirements first, in their
    order; extracted data only appends requirements. *)
Theorem override_entries_kept_in_place
  bees mutations manual output skipped i g species child :
  buildBreedingPairsJsonc localeCompare bees mutations manual
  = Some (output, skipped) ->
  nth_error manual i = Some g ->
  obj_get species (group_children g) = Some child ->
  exists g' child',
    nth_error output i = Some g' /\
    group_parents g' = sort (group_parents g) /\
    obj_get species (group_children g') = Some child' /\
    keepsEntry child child'.
Proof.
  unfold buildBreedingPairsJsonc.
  destruct (processAll bees (manualMutationSet manual)
              (mkCore (seedGroups manual) []) mutations)
    as [[core sk]|]; [|discriminate].
  intros [= <- _] Hi Hg.
  destruct (mergeGroup_keeps (core_groups core) g species child Hg)
    as (Hparents & c1 & Hg1 & Hk1).
  exists (cleanGroup (mergeGroup (core_groups core) (sortParents g))),
         (cleanChild c1).
  repeat split.
  - rewrite map_app, nth_error_app1.
    + rewrite !map_map. now rewrite nth_error_map, Hi.
    + rewrite !length_map. apply nth_error_Some. congruence.
  - exact Hparents.
  - unfold cleanGroup. cbn [group_children].
    now rewrite sortChildren_get, Hg1.
  - apply (keepsEntry_trans _ _ _ Hk1 (cleanChild_keeps c1)).
  - destruct Hk1 as [_ [added E]]. exists added.
    now rewrite cleanChild_requirements.
Qed.

End OverrideKept.

Lemma override_entries_kept_in_place_witness :
  exists g' child',
    nth_error [mkGroup ["t:x"; "t:y"]
                 [("t:z", mkChild 0.2
                            (Some [[("temperature", VArr ["HOT"])];
                                   [("biome", VArr ["Hell"]);
                                    ("chance", VNum 0.05)]]))]] 0
    = Some g' /\
    group_parents g' = sort ["t:y"; "t:x"] /\
    obj_get "t:z" (group_children g') = Some child' /\
    keepsEntry (mkChild 0.2 (Some [[("temperature", VArr ["HOT"])]])) child'.
Proof.
  apply (override_entries_kept_in_place String.compare sampleRegistry
           [relationXY; relationHell] overrideConditional _
           [mkSkipped (Some "t:z") true] 0
           (mkGroup ["t:y"; "t:x"]
              [("t:z", mkChild 0.2 (Some [[("temperature", VArr ["HOT"])]]))])
           "t:z").
  - vm_compute. reflexivity.
  - reflexivity.
  - reflexivity.
Defined.

(** ** The map of groups during the run *)

Lemma seedGroups_keyed manual : keyedByParents (seedGroups manual).
Proof.
  split.
  - unfold seedGroups.
    assert (H : forall l (acc : obj Group),
               NoDup (obj_keys acc) ->
               NoDup (obj_keys
                        (fold_left
                           (fun (groups : obj Group) group =>
                              obj_set (parentKeyOf group) (sortParents group)
                                      groups) l acc))).
    { induction l as [|g l IH]; intros acc Hacc; simpl; [exact Hacc|].
      apply IH. now apply obj_set_NoDup. }
    apply H. constructor.
  - intros key g Hin.
    apply seedGroups_from in Hin as (g0 & _ & -> & ->).
    apply parentKeyOf_sortParents.
Qed.

Lemma keyed_get groups key g :
  keyedByParents groups -> obj_get key groups = Some g -> parentKeyOf g = key.
Proof. intros [_ H] Hg. apply H. now apply obj_get_In. Qed.

Lemma keyed_set groups key g :
  keyedByParents groups -> parentKeyOf g = key ->
  keyedByParents (obj_set key g groups).
Proof.
  intros [Hnd Hk] Hg. split; [now apply obj_set_NoDup|].
  intros k g1 Hin. apply obj_set_In in Hin as [[= -> ->]|Hin]; auto.
Qed.

Lemma pairKey_parentKey p1 p2 :
  parentKeyOf (mkGroup (sort [p1; p2]) []) = pairKey p1 p2.
Proof.
  unfold parentKeyOf, pairKey. cbn [group_parents].
  now rewrite sort_idempotent.
Qed.

(** The shape of what the tail of the loop body stores. *)
Lemma addToGroups_shape groups p1 p2 off chance conditions groups' :
  addToGroups groups p1 p2 off chance conditions = Some groups' ->
  exists g',
    groups' = obj_set (pairKey p1 p2) g' groups /\
    (keyedByParents groups -> parentKeyOf g' = pairKey p1 p2) /\
    obj_has off (group_children g') = true /\
    (forall g s, obj_get (pairKey p1 p2) groups = Some g ->
                 obj_has s (group_children g) = true ->
                 obj_has s (group_children g') = true).
Proof.
  unfold addToGroups.
  set (group := match obj_get (pairKey p1 p2) groups with
                | Some g => g
                | None => mkGroup (sort [p1; p2]) []
                end).
  set (child := match obj_get off (group_children group) with
                | Some c => c
                | None => mkChild chance (Some [])
                end).
  assert (Hkey : keyedByParents groups -> forall c,
             parentKeyOf (mkGroup (group_parents group) c) = pairKey p1 p2).
  { intros Hk c. subst group.
    destruct (obj_get (pairKey p1 p2) groups) as [g|] eqn:E.
    - apply (keyed_get _ _ _ Hk) in E. exact E.
    - apply pairKey_parentKey. }
  assert (Hkept : forall c g s,
             obj_get (pairKey p1 p2) groups = Some g ->
             obj_has s (group_children g) = true ->
             obj_has s (obj_set off c (group_children group)) = true).
  { intros c g s E Hs. subst group. rewrite E.
    rewrite obj_has_set, Hs. apply orb_true_r. }
  assert (Hstore : forall c,
             exists g',
               obj_set (pairKey p1 p2)
                 (mkGroup (group_parents group)
                    (obj_set off c (group_children group))) groups
               = obj_set (pairKey p1 p2) g' groups /\
               (keyedByParents groups -> parentKeyOf g' = pairKey p1 p2) /\
               obj_has off (group_children g') = true /\
               (forall g s, obj_get (pairKey p1 p2) groups = Some g ->
                            obj_has s (group_children g) = true ->
                            obj_has s (group_children g') = true)).
  { intros c. eexists. split; [reflexivity|]. split; [|split].
    - intros Hk. apply Hkey, Hk.
    - cbn [group_children]. rewrite obj_has_set, String.eqb_refl. reflexivity.
    - intros g s. cbn [group_children]. apply Hkept. }
  destruct (if differs chance (child_chance child)
            then conditionEntry conditions ++ [("chance", VNum chance)]
            else conditionEntry conditions) as [|e l].
  - intros [= <-]. apply Hstore.
  - destruct (child_requirements child) as [requirements|]; [|discriminate].
    intros [= <-]. apply Hstore.
Qed.

Lemma addToGroups_keyed groups p1 p2 off chance conditions groups' :
  addToGroups groups p1 p2 off chance conditions = Some groups' ->
  keyedByParents groups -> keyedByParents groups'.
Proof.
  intros H Hk. apply addToGroups_shape in H as (g' & -> & Hkey & _).
  apply keyed_set; auto.
Qed.

Lemma addToGroups_lists_new groups p1 p2 off chance conditions groups' :
  addToGroups groups p1 p2 off chance conditions = Some groups' ->
  listsChild groups' (pairKey p1 p2) off.
Proof.
  intros H. apply addToGroups_shape in H as (g' & -> & _ & Hoff & _).
  exists g'. now rewrite obj_get_set_same.
Qed.

Lemma addToGroups_lists_kept groups p1 p2 off chance conditions groups' k s :
  addToGroups groups p1 p2 off chance conditions = Some groups' ->
  listsChild groups k s -> listsChild groups' k s.
Proof.
  intros H (g & Hg & Hs).
  apply addToGroups_shape in H as (g' & -> & _ & _ & Hkept).
  destruct (String.eqb k (pairKey p1 p2)) eqn:E.
  - apply String.eqb_eq in E. subst k. exists g'.
    rewrite obj_get_set_same. split; [reflexivity|]. eapply Hkept; eauto.
  - apply String.eqb_neq in E. exists g.
    now rewrite obj_get_set_other.
Qed.

Lemma processMutation_keyed bees manualSet core m core' skipped :
  processMutation bees manualSet core m = Some (core', skipped) ->
  keyedByParents (core_groups core) -> keyedByParents (core_groups core').
Proof.
  unfold processMutation. intros H Hk.
  repeat match type of H with
         | (if ?c then _ else _) = _ => destruct c
         | match ?x with _ => _ end = _ => destruct x eqn:?
         end;
    try discriminate; injection H as <- _; auto.
  cbn [core_groups]. eapply addToGroups_keyed; eauto.
Qed.

Lemma processAll_keyed bees manualSet l : forall core core' skipped,
  processAll bees manualSet core l = Some (core', skipped) ->
  keyedByParents (core_groups core) -> keyedByParents (core_groups core').
Proof.
  induction l as [|m l IH]; intros core core' skipped H Hk; simpl in H.
  - now injection H as <- _.
  - destruct (processMutation bees manualSet core m) as [[c s]|] eqn:E;
      [|discriminate].
    destruct (processAll bees manualSet c l) as [[c2 s2]|] eqn:E2;
      [|discriminate].
    injection H as <- _. eapply IH; eauto.
    eapply processMutation_keyed; eauto.
Qed.

(** ** The groups added after the override file *)

Lemma parentKeyOf_cleanGroup g : parentKeyOf (cleanGroup g) = parentKeyOf g.
Proof. reflexivity. Qed.

Lemma NoDup_map_filter {A B} (f : A -> B) (p : A -> bool) l :
  NoDup (map f l) -> NoDup (map f (filter p l)).
Proof.
  induction l as [|a l IH]; simpl; [auto|].
  intros H. inversion H as [|? ? Hnotin Hnd]; subst.
  destruct (p a); simpl; [|auto].
  constructor; [|auto].
  intros Hin. apply Hnotin. apply in_map_iff in Hin as (x & Hx & Hin).
  apply filter_In in Hin as [Hin _]. apply in_map_iff. eauto.
Qed.

Lemma NoDup_map_insertBy {A B} (f : A -> B) (after : A -> A -> bool) x l :
  NoDup (map f (x :: l)) -> NoDup (map f (insertBy after x l)).
Proof.
  induction l as [|z l IH]; simpl; [auto|].
  intros H. destruct (after x z); [|exact H].
  inversion H as [|? ? Hx Hrest]; subst.
  inversion Hrest as [|? ? Hz Hl]; subst.
  cbn [map]. constructor.
  - intros Hin. apply in_map_iff in Hin as (y & Hy & Hin).
    apply insertBy_In in Hin as [->|Hin].
    + apply Hx. left. auto.
    + apply Hz. apply in_map_iff. eauto.
  - apply IH. cbn [map]. constructor; [|exact Hl].
    intros Hin. apply Hx. now right.
Qed.

Lemma NoDup_map_sortBy {A B} (f : A -> B) (after : A -> A -> bool) l :
  NoDup (map f l) -> NoDup (map f (sortBy after l)).
Proof.
  induction l as [|x l IH]; simpl; [auto|].
  intros H. inversion H as [|? ? Hx Hl]; subst.
  apply NoDup_map_insertBy. cbn [map]. constructor; [|auto].
  intros Hin. apply Hx. apply in_map_iff in Hin as (y & Hy & Hin).
  apply sortBy_In in Hin. apply in_map_iff. eauto.
Qed.

Lemma keyed_values groups :
  keyedByParents groups ->
  map parentKeyOf (map sortParents (obj_values groups)) = obj_keys groups.
Proof.
  intros [_ Hk]. unfold obj_values, obj_keys. rewrite !map_map.
  apply map_ext_in. intros [key g] Hin. simpl.
  rewrite parentKeyOf_sortParents. now apply Hk.
Qed.

Section NewGroups.
Variable localeCompare : string -> string -> comparison.

Lemma newGroupsOf_build bees mutations manual output skipped :
  buildBreedingPairsJsonc localeCompare bees mutations manual
  = Some (output, skipped) ->
  exists core,
    processAll bees (manualMutationSet manual)
      (mkCore (seedGroups manual) []) mutations = Some (core, skipped) /\
    output
    = map cleanGroup
        (map (mergeGroup (core_groups core)) (map sortParents manual))
      ++ newGroupsOf manual output /\
    newGroupsOf manual output
    = map cleanGroup
        (sortBy (groupAfter localeCompare)
           (filter (fun group =>
                      negb (wasManual (map sortParents manual) group))
                   (map sortParents (obj_values (core_groups core))))).
Proof.
  unfold buildBreedingPairsJsonc, newGroupsOf.
  destruct (processAll bees (manualMutationSet manual)
              (mkCore (seedGroups manual) []) mutations)
    as [[core sk]|]; [|discriminate].
  intros [= <- <-]. exists core. split; [reflexivity|].
  rewrite map_app.
  set (merged := map cleanGroup
                   (map (mergeGroup (core_groups core))
                      (map sortParents manual))).
  assert (Hlen : List.length manual = List.length merged)
    by (subst merged; now rewrite !length_map).
  rewrite Hlen, skipn_app, skipn_all, Nat.sub_diag. cbn [skipn app].
  split; reflexivity.
Qed.

(** X5. Among the groups added after the override file no parent pair
    comes twice, and none is the pair of an override group: the
    relations of one pair are gathered in one group, and those of an
    overridden pair go to the override group. *)
Theorem new_groups_have_fresh_distinct_pairs
  bees mutations manual output skipped :
  buildBreedingPairsJsonc localeCompare bees mutations manual
  = Some (output, skipped) ->
  NoDup (map parentKeyOf (newGroupsOf manual output)) /\
  forall g m, In g (newGroupsOf manual output) -> In m manual ->
              parentKeyOf g <> parentKeyOf m.
Proof.
  intros H.
  destruct (newGroupsOf_build _ _ _ _ _ H) as (core & Hcore & _ & ->).
  assert (Hk : keyedByParents (core_groups core)).
  { apply (processAll_keyed _ _ _ _ _ _ Hcore). apply seedGroups_keyed. }
  split.
  - rewrite map_map.
    rewrite (map_ext _ parentKeyOf parentKeyOf_cleanGroup).
    apply NoDup_map_sortBy, NoDup_map_filter.
    rewrite keyed_values by exact Hk. apply Hk.
  - intros g m Hg Hm.
    apply in_map_iff in Hg as (g1 & <- & Hg1).
    apply sortBy_In in Hg1. apply filter_In in Hg1 as [_ Hnot].
    rewrite parentKeyOf_cleanGroup. intros Heq.
    apply negb_true_iff in Hnot.
    assert (Hyes : wasManual (map sortParents manual) g1 = true).
    { unfold wasManual. apply existsb_exists. exists (sortParents m).
      split; [now apply in_map|].
      rewrite parentKeyOf_sortParents. now apply String.eqb_eq. }
    congruence.
Qed.

End NewGroups.

Lemma new_groups_have_fresh_distinct_pairs_witness :
  NoDup (map parentKeyOf (newGroupsOf overrideOtherPair outputOtherPair)) /\
  forall g m, In g (newGroupsOf overrideOtherPair outputOtherPair) ->
              In m overrideOtherPair ->
              parentKeyOf g <> parentKeyOf m.
Proof.
  apply (new_groups_have_fresh_distinct_pairs String.compare sampleRegistry
           [relationXY; relationHell] overrideOtherPair outputOtherPair []).
  vm_compute. reflexivity.
Defined.

(** ** No relation is lost *)

Lemma seen_listed core p1 p2 off m :
  seenAreListed core ->
  seenHas (mutationKeyOf p1 p2 off m) (core_seen core) = true ->
  listsChild (core_groups core) (pairKey p1 p2) off.
Proof.
  intros Hs Hseen. unfold seenHas in Hseen.
  apply existsb_exists in Hseen as (k & Hk & Heq).
  unfold mutationKeyEqb, baseKeyEqb in Heq.
  apply andb_true_iff in Heq as [Heq _].
  apply andb_true_iff in Heq as [Heq _].
  apply andb_true_iff in Heq as [Hp Hsp].
  apply String.eqb_eq in Hp, Hsp.
  unfold mutationKeyOf in Hp, Hsp.
  cbn [mk_base key_parents key_species] in Hp, Hsp.
  rewrite Hp, Hsp. now apply Hs.
Qed.

Lemma processMutation_lists bees manualSet core m core' skipped :
  processMutation bees manualSet core m = Some (core', skipped) ->
  seenAreListed core ->
  seenAreListed core' /\
  (forall k s, listsChild (core_groups core) k s ->
               listsChild (core_groups core') k s) /\
  (forall p1 p2 off,
      mut_parent1 m = Some p1 -> mut_parent2 m = Some p2 ->
      mut_offspring m = Some off ->
      stoppedByGuard bees manualSet m = false ->
      listsChild (core_groups core') (pairKey p1 p2) off).
Proof.
  unfold processMutation, stoppedByGuard. intros H Hs.
  destruct (mut_parent1 m) as [q1|];
    [|injection H as <- _; repeat split; auto; discriminate].
  destruct (mut_parent2 m) as [q2|];
    [|rewrite orb_true_r in H; injection H as <- _; repeat split; auto;
      discriminate].
  destruct (mut_offspring m) as [o|];
    [|rewrite orb_true_r in H; injection H as <- _; repeat split; auto;
      discriminate].
  destruct (negb (truthyStr (Some q1)) || negb (truthyStr (Some q2))
            || negb (truthyStr (Some o)));
    [injection H as <- _; repeat split; auto; discriminate|].
  cbn [orb].
  destruct (negb (set_has q1 bees) || negb (set_has q2 bees)
            || negb (set_has o bees));
    [injection H as <- _; repeat split; auto; discriminate|].
  cbn [orb].
  destruct (manualHas _ manualSet);
    [injection H as <- _; repeat split; auto; discriminate|].
  destruct (seenHas (mutationKeyOf q1 q2 o m) (core_seen core)) eqn:Eseen.
  - injection H as <- _. repeat split; auto.
    intros p1 p2 off [= <-] [= <-] [= <-] _.
    eapply seen_listed; eauto.
  - destruct (addToGroups (core_groups core) q1 q2 o (normalizedChance m)
                (mut_conditions m)) as [groups|] eqn:Eadd; [|discriminate].
    injection H as <- _. cbn [core_groups core_seen]. repeat split.
    + intros k Hk. cbn [core_groups core_seen] in *.
      apply in_app_iff in Hk as [Hk|[<-|[]]].
      * eapply addToGroups_lists_kept; eauto.
      * cbn. eapply addToGroups_lists_new; eauto.
    + intros k s. eapply addToGroups_lists_kept; eauto.
    + intros p1 p2 off [= <-] [= <-] [= <-] _.
      eapply addToGroups_lists_new; eauto.
Qed.

Lemma processAll_lists bees manualSet l : forall core core' skipped,
  processAll bees manualSet core l = Some (core', skipped) ->
  seenAreListed core ->
  (forall k s, listsChild (core_groups core) k s ->
               listsChild (core_groups core') k s) /\
  (forall m p1 p2 off,
      In m l ->
      mut_parent1 m = Some p1 -> mut_parent2 m = Some p2 ->
      mut_offspring m = Some off ->
      stoppedByGuard bees manualSet m = false ->
      listsChild (core_groups core') (pairKey p1 p2) off).
Proof.
  induction l as [|m0 l IH]; intros core core' skipped H Hs; simpl in H.
  - injection H as <- _. split; [auto|]. intros m p1 p2 off [].
  - destruct (processMutation bees manualSet core m0) as [[c s]|] eqn:E;
      [|discriminate].
    destruct (processAll bees manualSet c l) as [[c2 s2]|] eqn:E2;
      [|discriminate].
    injection H as <- _.
    destruct (processMutation_lists _ _ _ _ _ _ E Hs) as (Hs1 & Hkept1 & Hnew1).
    destruct (IH _ _ _ E2 Hs1) as (Hkept2 & Hnew2).
    split; [auto|].
    intros m p1 p2 off [<-|Hin] E1 E3 E4 Hg.
    + apply Hkept2. eapply Hnew1; eauto.
    + eapply Hnew2; eauto.
Qed.

Lemma mergeChild_has children entry s :
  obj_has s (mergeChild children entry)
  = String.eqb s (fst entry) || obj_has s children.
Proof.
  destruct entry as [sp cd]. unfold mergeChild. cbn [fst].
  destruct (obj_get sp children);
    [|destruct (child_requirements cd) as [[|? ?]|]];
    apply obj_has_set.
Qed.

Lemma mergeChildren_has l s : forall children,
  obj_has s children = true \/ In s (obj_keys l) ->
  obj_has s (fold_left mergeChild l children) = true.
Proof.
  induction l as [|entry l IH]; intros children H; simpl.
  - destruct H as [H|[]]. exact H.
  - apply IH. rewrite mergeChild_has.
    destruct H as [H|[H|H]]; auto.
    + left. rewrite H. apply orb_true_r.
    + left. rewrite H, String.eqb_refl. reflexivity.
Qed.

Section NothingLost.
Variable localeCompare : string -> string -> comparison.

(** X6. No relation is lost: a relation of the input that none of the
    three guards stops has its offspring, in the output, among the
    children of a group of its parent pair (an override group of that
    pair when there is one, else a new group). *)
Theorem unstopped_relation_is_in_output
  bees mutations manual output skipped m p1 p2 off :
  buildBreedingPairsJsonc localeCompare bees mutations manual
  = Some (output, skipped) ->
  In m mutations ->
  mut_parent1 m = Some p1 -> mut_parent2 m = Some p2 ->
  mut_offspring m = Some off ->
  stoppedByGuard bees (manualMutationSet manual) m = false ->
  exists g, In g output /\ parentKeyOf g = pairKey p1 p2 /\
            obj_has off (group_children g) = true.
Proof.
  intros H Hin E1 E2 E3 Hg.
  destruct (newGroupsOf_build _ _ _ _ _ _ H) as (core & Hcore & Hout & Hrest).
  rewrite Hrest in Hout. rewrite Hout. clear H Hout Hrest.
  assert (Hk : keyedByParents (core_groups core)).
  { apply (processAll_keyed _ _ _ _ _ _ Hcore). apply seedGroups_keyed. }
  assert (Hs : seenAreListed (mkCore (seedGroups manual) []))
    by (intros k []).
  destruct (processAll_lists _ _ _ _ _ _ Hcore Hs) as (_ & Hnew).
  destruct (Hnew m p1 p2 off Hin E1 E2 E3 Hg) as (g & Hget & Hhas).
  assert (Hkey : parentKeyOf g = pairKey p1 p2)
    by (eapply keyed_get; eauto).
  destruct (wasManual (map sortParents manual) (sortParents g)) eqn:Ew.
  - unfold wasManual in Ew. apply existsb_exists in Ew as (m' & Hm' & Heq).
    apply String.eqb_eq in Heq. rewrite parentKeyOf_sortParents, Hkey in Heq.
    exists (cleanGroup (mergeGroup (core_groups core) m')).
    split; [|split].
    + apply in_or_app. left. now apply in_map, in_map.
    + rewrite parentKeyOf_cleanGroup. unfold mergeGroup.
      rewrite Heq, Hget. unfold parentKeyOf in *. cbn [group_parents].
      now rewrite sort_idempotent.
    + rewrite cleanGroup_has. unfold mergeGroup. rewrite Heq, Hget.
      cbn [group_children]. apply mergeChildren_has. right.
      now apply obj_has_keys.
  - exists (cleanGroup (sortParents g)). split; [|split].
    + apply in_or_app. right. apply in_map, sortBy_In, filter_In.
      split; [|now rewrite Ew].
      apply in_map. eapply obj_get_values; eauto.
    + now rewrite parentKeyOf_cleanGroup, parentKeyOf_sortParents.
    + now rewrite cleanGroup_has.
Qed.

End NothingLost.

Lemma unstopped_relation_is_in_output_witness :
  exists g, In g outputOtherPair /\ parentKeyOf g = pairKey "t:x" "t:y" /\
            obj_has "t:z" (group_children g) = true.
Proof.
  apply (unstopped_relation_is_in_output String.compare sampleRegistry
           [relationXY; relationHell] overrideOtherPair outputOtherPair []
           relationHell "t:x" "t:y" "t:z").
  - vm_compute. reflexivity.
  - simpl. auto.
  - reflexivity.
  - reflexivity.
  - reflexivity.
  - vm_compute. reflexivity.
Defined.

(* ================================================================== *)
(** * More about the shortest-path builder *)
(* ================================================================== *)

(** ** The search stops only when nothing is left to find *)

Lemma scanStep_queue st entry :
  snd (scanStep st entry) = snd st \/
  List.length (snd (scanStep st entry)) = S (List.length (snd st)).
Proof.
  destruct st as [beeDepth queue], entry as [o ms]. unfold scanStep.
  destruct (obj_has o beeDepth); [now left|].
  destruct (firstReachable beeDepth ms); [|now left].
  right. cbn [snd]. rewrite length_app. cbn [List.length]. apply Nat.add_1_r.
Qed.

Lemma scan_queue entries : forall st,
  List.length (snd st) <= List.length (snd (fold_left scanStep entries st)).
Proof.
  induction entries as [|e entries IH]; intros st; simpl; [apply Nat.le_refl|].
  eapply Nat.le_trans; [|apply IH].
  destruct (scanStep_queue st e) as [H|H]; rewrite H; auto.
Qed.

Lemma scanStep_idle st entry :
  List.length (snd (scanStep st entry)) = List.length (snd st) ->
  scanStep st entry = st /\
  (obj_has (fst entry) (fst st) = false ->
   firstReachable (fst st) (snd entry) = None).
Proof.
  destruct st as [beeDepth queue], entry as [o ms]. unfold scanStep.
  cbn [fst snd].
  destruct (obj_has o beeDepth); [intros _; split; [reflexivity|discriminate]|].
  destruct (firstReachable beeDepth ms); [|intros _; split; reflexivity].
  cbn [snd]. rewrite length_app. cbn [List.length]. rewrite Nat.add_1_r.
  intros H. exfalso. exact (Nat.neq_succ_diag_l _ H).
Qed.

Lemma scan_idle entries : forall st,
  List.length (snd (fold_left scanStep entries st)) = List.length (snd st) ->
  fold_left scanStep entries st = st /\
  forall entry, In entry entries ->
    obj_has (fst entry) (fst st) = false ->
    firstReachable (fst st) (snd entry) = None.
Proof.
  induction entries as [|e entries IH]; intros st H; simpl in *.
  - split; [reflexivity|]. intros entry [].
  - assert (Hstep : List.length (snd (scanStep st e)) = List.length (snd st)).
    { apply Nat.le_antisymm.
      - rewrite <- H. apply scan_queue.
      - destruct (scanStep_queue st e) as [E|E]; rewrite E; auto. }
    destruct (scanStep_idle st e Hstep) as [Hsame Hnone].
    rewrite Hsame in *. destruct (IH st H) as [Hfold Hrest].
    split; [exact Hfold|].
    intros entry [<-|Hin]; auto.
Qed.

Lemma bfsLoop_closed graph fuel : forall beeDepth queue result,
  bfsLoop fuel graph beeDepth queue = Some result ->
  (queue = [] -> closed graph beeDepth) ->
  closed graph result.
Proof.
  induction fuel as [|fuel IH]; intros beeDepth queue result Hrun Hinit.
  - destruct queue; simpl in Hrun; [|discriminate].
    injection Hrun as <-. now apply Hinit.
  - destruct queue as [|current rest]; simpl in Hrun.
    + injection Hrun as <-. now apply Hinit.
    + destruct (scanGraph graph (beeDepth, rest)) as [beeDepth' queue'] eqn:E.
      apply (IH _ _ _ Hrun). intros ->.
      unfold scanGraph in E.
      assert (Hlen : List.length (snd (fold_left scanStep graph (beeDepth, rest)))
                     = List.length (snd (beeDepth, rest))).
      { apply Nat.le_antisymm; [|apply scan_queue].
        rewrite E. cbn [snd List.length]. apply Nat.le_0_l. }
      destruct (scan_idle graph (beeDepth, rest) Hlen) as [Hsame Hnone].
      rewrite E in Hsame. injection Hsame as -> _.
      intros o ms Hin Hno. exact (Hnone (o, ms) Hin Hno).
Qed.

Lemma firstReachable_empty mutations : firstReachable [] mutations = None.
Proof.
  induction mutations as [|m mutations IH]; simpl; [reflexivity|].
  destruct (pm_parent1 m); simpl; [|exact IH]. exact IH.
Qed.

Lemma computeDepths_closed allBees allMutations beeDepth :
  computeDepths allBees allMutations = Some beeDepth ->
  closed (mutationGraph allMutations) beeDepth.
Proof.
  unfold computeDepths. intros Hrun.
  apply (bfsLoop_closed _ _ _ _ _ Hrun). intros Hbase. rewrite Hbase.
  intros o ms _ _. apply firstReachable_empty.
Qed.

Lemma firstReachable_none beeDepth mutations m d1 d2 :
  firstReachable beeDepth mutations = None -> In m mutations ->
  depthOf beeDepth (pm_parent1 m) = Some d1 ->
  depthOf beeDepth (pm_parent2 m) = Some d2 -> False.
Proof.
  induction mutations as [|m0 mutations IH]; intros Hnone Hin H1 H2;
    [destruct Hin|].
  simpl in Hnone. destruct Hin as [->|Hin].
  - rewrite H1, H2 in Hnone. discriminate.
  - destruct (depthOf beeDepth (pm_parent1 m0));
      [destruct (depthOf beeDepth (pm_parent2 m0)); [discriminate|]|]; auto.
Qed.

(** ** Every relation of the input is a candidate of the graph *)

Section GraphOfGroup.
Variables parent1 parent2 : option string.

Let addChild (graph : obj (list PathMutation)) (entry : string * ChildData)
  : obj (list PathMutation) :=
  let '(offspring, childData) := entry in
  obj_set offspring
    (match obj_get offspring graph with
     | Some ms => ms
     | None => []
     end ++ childMutations parent1 parent2 childData) graph.

Lemma addChild_keeps graph entry o m :
  candidate graph o m -> candidate (addChild graph entry) o m.
Proof.
  destruct entry as [o' cd]. intros (ms & Hget & Hin). unfold addChild.
  destruct (String.eqb o o') eqn:E.
  - apply String.eqb_eq in E. subst o'. rewrite Hget.
    eexists. rewrite obj_get_set_same. split; [reflexivity|].
    apply in_or_app. now left.
  - apply String.eqb_neq in E. exists ms.
    now rewrite obj_get_set_other.
Qed.

Lemma addChild_adds graph o cd m :
  In m (childMutations parent1 parent2 cd) ->
  candidate (addChild graph (o, cd)) o m.
Proof.
  intros Hin. unfold addChild. eexists. rewrite obj_get_set_same.
  split; [reflexivity|]. apply in_or_app. now right.
Qed.

Lemma addChildren_keeps children : forall graph o m,
  candidate graph o m -> candidate (fold_left addChild children graph) o m.
Proof.
  induction children as [|e children IH]; intros graph o m H; simpl; [exact H|].
  apply IH. now apply addChild_keeps.
Qed.

Lemma addChildren_adds children : forall graph o cd m,
  In (o, cd) children ->
  In m (childMutations parent1 parent2 cd) ->
  candidate (fold_left addChild children graph) o m.
Proof.
  induction children as [|e children IH]; intros graph o cd m Hin Hm;
    [destruct Hin|].
  simpl. destruct Hin as [->|Hin].
  - apply addChildren_keeps. now apply addChild_adds.
  - eapply IH; eauto.
Qed.

End GraphOfGroup.

Lemma addGroupToGraph_keeps graph group o m :
  candidate graph o m -> candidate (addGroupToGraph graph group) o m.
Proof. apply addChildren_keeps. Qed.

Lemma addGroupToGraph_adds graph group o cd m :
  In (o, cd) (group_children group) ->
  In m (childMutations (nth_error (group_parents group) 0)
                       (nth_error (group_parents group) 1) cd) ->
  candidate (addGroupToGraph graph group) o m.
Proof. apply addChildren_adds. Qed.

Lemma mutationGraph_candidate allMutations group o cd m :
  In group allMutations ->
  In (o, cd) (group_children group) ->
  In m (childMutations (nth_error (group_parents group) 0)
                       (nth_error (group_parents group) 1) cd) ->
  candidate (mutationGraph allMutations) o m.
Proof.
  unfold mutationGraph. generalize (@nil (string * list PathMutation)) as graph.
  induction allMutations as [|g allMutations IH]; intros graph Hg Hin Hm;
    [destruct Hg|].
  simpl. destruct Hg as [->|Hg].
  - assert (Hkeep : forall l graph0,
               candidate graph0 o m ->
               candidate (fold_left addGroupToGraph l graph0) o m).
    { induction l as [|g0 l IHl]; intros graph0 H; simpl; [exact H|].
      apply IHl. now apply addGroupToGraph_keeps. }
    apply Hkeep. eapply addGroupToGraph_adds; eauto.
  - now apply IH.
Qed.

Lemma childMutations_first parent1 parent2 cd :
  exists m, In m (childMutations parent1 parent2 cd).
Proof.
  unfold childMutations.
  destruct (child_requirements cd) as [[|req reqs]|];
    eexists; left; reflexivity.
Qed.

Section SearchComplete.
Variable localeCompare : string -> string -> comparison.

(** X7. The search leaves no breedable bee out: once it has stopped,
    whenever the two parents of an input group hold depths, every child
    of that group holds a depth too, and exactly one group of the output
    lists it. *)
Theorem search_reaches_every_breedable
  allBees allMutations beeDepth output group offspring parent1 parent2 d1 d2 :
  computeDepths allBees allMutations = Some beeDepth ->
  buildShortestPathMutations localeCompare allBees allMutations
  = Some output ->
  In group allMutations ->
  In offspring (obj_keys (group_children group)) ->
  nth_error (group_parents group) 0 = Some parent1 ->
  nth_error (group_parents group) 1 = Some parent2 ->
  obj_get parent1 beeDepth = Some d1 ->
  obj_get parent2 beeDepth = Some d2 ->
  obj_has offspring beeDepth = true /\ producers offspring output = 1.
Proof.
  intros Hrun Hout Hgroup Hchild E1 E2 H1 H2.
  assert (Hhas : obj_has offspring beeDepth = true).
  { apply in_map_iff in Hchild as ([o cd] & Ho & Hin).
    cbn [fst] in Ho. subst o.
    destruct (childMutations_first (nth_error (group_parents group) 0)
                (nth_error (group_parents group) 1) cd) as [m Hm].
    destruct (mutationGraph_candidate allMutations group offspring cd m
                Hgroup Hin Hm) as (ms & Hget & Hms).
    apply childMutations_shape in Hm as (P1 & P2 & _).
    destruct (obj_has offspring beeDepth) eqn:Hhas; [reflexivity|].
    exfalso.
    apply (firstReachable_none beeDepth ms m d1 d2).
    - apply (computeDepths_closed _ _ _ Hrun offspring ms);
        [now apply obj_get_In|exact Hhas].
    - exact Hms.
    - rewrite P1, E1. exact H1.
    - rewrite P2, E2. exact H2. }
  split; [exact Hhas|].
  rewrite (build_output localeCompare _ _ _ Hrun) in Hout.
  injection Hout as <-.
  rewrite producers_map_clean. unfold producers. rewrite sortBy_filter.
  unfold shortestMutations.
  apply (pathFold_unique beeDepth (mutationGraph allMutations)).
  - eapply computeDepths_justified; eauto.
  - apply mutationGraph_NoDup.
  - intros o ms Hin. apply obj_get_NoDup; [apply mutationGraph_NoDup|exact Hin].
  - intros e' _. simpl. auto.
  - apply mutationGraph_keys. exists group. auto.
  - exact Hhas.
Qed.

End SearchComplete.

Lemma search_reaches_every_breedable_witness :
  obj_has "t:d" [("t:a", 0); ("t:b", 0); ("t:c", 1); ("t:d", 2)] = true /\
  producers "t:d"
    [ mkGroup ["t:a"; "t:b"] [("t:c", mkChild 0.25 None)];
      mkGroup ["t:c"; "t:c"] [("t:d", mkChild 0.5 None)] ] = 1.
Proof.
  apply (search_reaches_every_breedable String.compare
           detourBees detourMutations
           [("t:a", 0); ("t:b", 0); ("t:c", 1); ("t:d", 2)]
           [ mkGroup ["t:a"; "t:b"] [("t:c", mkChild 0.25 None)];
             mkGroup ["t:c"; "t:c"] [("t:d", mkChild 0.5 None)] ]
           (mkGroup ["t:c"; "t:c"] [("t:d", mkChild 0.5 None)])
           "t:d" "t:c" "t:c" 1 1).
  - vm_compute. reflexivity.
  - vm_compute. reflexivity.
  - simpl. auto.
  - simpl. auto.
  - reflexivity.
  - reflexivity.
  - reflexivity.
  - reflexivity.
Defined.

(** ** Every candidate of the graph is a relation of the input *)

Section GraphOrigin.
Variable Q : string -> PathMutation -> Prop.

Lemma addGroupToGraph_origin graph group :
  (forall o cd m,
      In (o, cd) (group_children group) ->
      In m (childMutations (nth_error (group_parents group) 0)
                           (nth_error (group_parents group) 1) cd) ->
      Q o m) ->
  (forall o m, candidate graph o m -> Q o m) ->
  forall o m, candidate (addGroupToGraph graph group) o m -> Q o m.
Proof.
  unfold addGroupToGraph.
  generalize (nth_error (group_parents group) 0) as parent1.
  generalize (nth_error (group_parents group) 1) as parent2.
  intros parent2 parent1.
  revert graph.
  induction (group_children group) as [|[o' cd] children IH];
    intros graph Hnew Hold o m; simpl; [apply Hold|].
  apply IH.
  - intros o0 cd0 m0 Hin. apply Hnew. now right.
  - clear o m. intros o m (ms & Hget & Hin).
    destruct (String.eqb o o') eqn:E.
    + apply String.eqb_eq in E. subst o'.
      rewrite obj_get_set_same in Hget. injection Hget as <-.
      apply in_app_or in Hin as [Hin|Hin].
      * apply Hold.
        destruct (obj_get o graph) as [ms0|] eqn:Eg; [|destruct Hin].
        exists ms0. split; [exact Eg|exact Hin].
      * apply (Hnew o cd m); [now left|exact Hin].
    + apply String.eqb_neq in E. rewrite obj_get_set_other in Hget by exact E.
      apply Hold. now exists ms.
Qed.

Lemma mutationGraph_origin allMutations :
  (forall group o cd m,
      In group allMutations ->
      In (o, cd) (group_children group) ->
      In m (childMutations (nth_error (group_parents group) 0)
                           (nth_error (group_parents group) 1) cd) ->
      Q o m) ->
  forall o m, candidate (mutationGraph allMutations) o m -> Q o m.
Proof.
  unfold mutationGraph.
  assert (H : forall groups graph,
             (forall group o cd m,
                 In group groups ->
                 In (o, cd) (group_children group) ->
                 In m (childMutations (nth_error (group_parents group) 0)
                                      (nth_error (group_parents group) 1) cd) ->
                 Q o m) ->
             (forall o m, candidate graph o m -> Q o m) ->
             forall o m,
               candidate (fold_left addGroupToGraph groups graph) o m -> Q o m).
  { induction groups as [|g groups IH]; intros graph Hnew Hold o m; simpl;
      [apply Hold|].
    apply IH.
    - intros group o0 cd0 m0 Hin. apply Hnew. now right.
    - apply addGroupToGraph_origin; [|exact Hold].
      intros o0 cd0 m0. apply Hnew. now left. }
  intros Hnew. apply H; [exact Hnew|].
  intros o m (ms & Hget & _). discriminate Hget.
Qed.

End GraphOrigin.

Lemma childMutations_written parent1 parent2 cd m :
  In m (childMutations parent1 parent2 cd) ->
  writtenFrom cd (cleanChild (shortestChild m)).
Proof.
  unfold childMutations, writtenFrom, requirementsOrEmpty.
  destruct (child_requirements cd) as [[|req reqs]|].
  - intros [<-|[]]. left. split; reflexivity.
  - intros Hin. apply in_map_iff in Hin as (r & <- & Hr).
    right. exists r. split; [exact Hr|]. reflexivity.
  - intros [<-|[]]. left. split; reflexivity.
Qed.

Section OutputOrigin.
Variable localeCompare : string -> string -> comparison.

(** X8. The output is drawn from the input: every child entry of every
    output group is a child of an input group with the same two parents
    (the output lists them sorted), and it is written from that input
    entry, either unconditional with its chance or with a single one of
    its requirements. *)
Theorem output_relations_come_from_input
  allBees allMutations output g offspring child :
  cleanParents allMutations ->
  buildShortestPathMutations localeCompare allBees allMutations
  = Some output ->
  In g output ->
  obj_get offspring (group_children g) = Some child ->
  exists group childData parent1 parent2,
    In group allMutations /\
    In (offspring, childData) (group_children group) /\
    nth_error (group_parents group) 0 = Some parent1 /\
    nth_error (group_parents group) 1 = Some parent2 /\
    group_parents g = sort [parent1; parent2] /\
    writtenFrom childData child.
Proof.
  intros Hclean Hout Hg Hget.
  unfold buildShortestPathMutations in Hout.
  destruct (computeDepths allBees allMutations) as [beeDepth|]; [|discriminate].
  injection Hout as <-.
  destruct (output_origin localeCompare _ _ _ _ _ Hg Hget)
    as (key & g0 & c0 & Hin & -> & Hc0 & ->).
  destruct (shortestMutations_chosen beeDepth allMutations key g0 offspring c0
              Hin Hc0)
    as (t & ms & m & p1 & p2 & Ht & Hms & Hm & -> & Hp1 & Hp2 & Hkey).
  destruct (findShortest_some _ _ _ _ Hm) as (Hmin & _).
  assert (Hcg := mutationGraph_clean allMutations Hclean).
  destruct (Hcg offspring ms m (obj_get_In _ _ _ Hms) Hmin) as [C1 C2].
  assert (Hkeyed : keyedByPair
                     (shortestMutations beeDepth (mutationGraph allMutations))).
  { unfold shortestMutations.
    apply (pathFold_keyed beeDepth (mutationGraph allMutations)).
    - exact Hcg.
    - apply incl_refl.
    - intros k' g' []. }
  destruct (Hkeyed key g0 Hin) as (q1 & q2 & Hkey' & Hpar & Cq1 & Cq2).
  assert (Hsort : group_parents g0 = sort [p1; p2]).
  { rewrite Hpar.
    apply (pairKey_inj q1 q2 p1 p2 Cq1 Cq2 (C1 _ Hp1) (C2 _ Hp2)).
    congruence. }
  refine (mutationGraph_origin
            (fun o m0 =>
               o = offspring -> m0 = m ->
               exists group childData parent1 parent2,
                 In group allMutations /\
                 In (offspring, childData) (group_children group) /\
                 nth_error (group_parents group) 0 = Some parent1 /\
                 nth_error (group_parents group) 1 = Some parent2 /\
                 group_parents g0 = sort [parent1; parent2] /\
                 writtenFrom childData (cleanChild (shortestChild m)))
            allMutations _ offspring m _ eq_refl eq_refl).
  - intros group o cd m0 Hgroup Hchild Hm0 -> ->.
    assert (Hw := childMutations_written _ _ _ _ Hm0).
    apply childMutations_shape in Hm0 as (P1 & P2 & _).
    exists group, cd, p1, p2. repeat split; auto; congruence.
  - now exists ms.
Qed.

End OutputOrigin.

Lemma output_relations_come_from_input_witness :
  exists group childData parent1 parent2,
    In group detourMutations /\
    In ("t:d", childData) (group_children group) /\
    nth_error (group_parents group) 0 = Some parent1 /\
    nth_error (group_parents group) 1 = Some parent2 /\
    ["t:c"; "t:c"] = sort [parent1; parent2] /\
    writtenFrom childData (mkChild 0.5 None).
Proof.
  apply (output_relations_come_from_input String.compare
           detourBees detourMutations
           [ mkGroup ["t:a"; "t:b"] [("t:c", mkChild 0.25 None)];
             mkGroup ["t:c"; "t:c"] [("t:d", mkChild 0.5 None)] ]
           (mkGroup ["t:c"; "t:c"] [("t:d", mkChild 0.5 None)])
           "t:d" (mkChild 0.5 None)).
  - intros g p Hg Hp. simpl in Hg.
    destruct Hg as [<-|[<-|[<-|[]]]]; simpl in Hp;
      destruct Hp as [<-|[<-|[]]]; reflexivity.
  - vm_compute. reflexivity.
  - simpl. auto.
  - reflexivity.
Defined.

(* ================================================================== *)
(** * The listing of bees without mutations *)
(* ================================================================== *)

Lemma allBeeIds_In e allBees : In e (allBeeIds allBees) <-> In e allBees.
Proof.
  unfold allBeeIds.
  assert (H : forall l acc,
             In e (fold_left (fun ids beeId => set_add beeId ids) l acc)
             <-> In e acc \/ In e l).
  { induction l as [|x l IH]; intros acc; simpl; [tauto|].
    rewrite IH, set_add_In. intuition. }
  rewrite H. simpl. tauto.
Qed.

Lemma beesWithoutMutations_In e allBees allMutations :
  In e (beesWithoutMutations allBees allMutations) <->
  In e allBees /\ ~ isOffspring e allMutations.
Proof.
  unfold beesWithoutMutations. rewrite sort_In.
  set (offspring := beesWithMutations allMutations).
  assert (H : forall l acc,
             In e (fold_left
                     (fun found beeId =>
                        if negb (set_has beeId offspring)
                        then found ++ [beeId] else found) l acc)
             <-> In e acc \/ (In e l /\ set_has e offspring = false)).
  { induction l as [|x l IH]; intros acc; simpl; [tauto|].
    rewrite IH. destruct (set_has x offspring) eqn:E; simpl.
    - split; [intros [H|[H1 H2]]; auto|].
      intros [H|[[->|H1] H2]]; auto. congruence.
    - rewrite in_app_iff. simpl. split.
      + intros [[H|[<-|[]]]|[H1 H2]]; auto.
      + intros [H|[[<-|H1] H2]]; auto. }
  rewrite H, allBeeIds_In. simpl.
  assert (Hoff : set_has e offspring = false <-> ~ isOffspring e allMutations).
  { subst offspring. rewrite <- beesWithMutations_In, <- set_has_In.
    destruct (set_has e (beesWithMutations allMutations)); split; intros;
      congruence. }
  rewrite Hoff. tauto.
Qed.

(** X9. The listing script and the shortest-path builder agree on the
    wild bees: the ids the script prints, in ascending order, are exactly
    the builder's base bees, and the search gives each of them depth 0. *)
Theorem unreachable_listing_is_the_base_bees allBees allMutations :
  ascending (beesWithoutMutations allBees allMutations) /\
  (forall e, In e (beesWithoutMutations allBees allMutations) <->
             In e (baseBees allBees allMutations)) /\
  (forall beeDepth e,
      computeDepths allBees allMutations = Some beeDepth ->
      In e (beesWithoutMutations allBees allMutations) ->
      obj_get e beeDepth = Some 0).
Proof.
  split; [apply sort_ascending|]. split.
  - intros e. now rewrite beesWithoutMutations_In, baseBees_In.
  - intros beeDepth e Hrun He.
    apply beesWithoutMutations_In in He as [Hin Hno].
    eapply computeDepths_base; eauto.
Qed.

Lemma unreachable_listing_is_the_base_bees_witness :
  obj_get "t:a" [("t:a", 0); ("t:b", 0); ("t:c", 1); ("t:d", 2)] = Some 0.
Proof.
  apply (proj2 (proj2 (unreachable_listing_is_the_base_bees
                         detourBees detourMutations))
           [("t:a", 0); ("t:b", 0); ("t:c", 1); ("t:d", 2)] "t:a").
  - vm_compute. reflexivity.
  - vm_compute. auto.
Defined.
